(** * ClientDashboard: provider synchronisation and command dispatch

    A shallow embedding of the TypeScript sources of the console's
    engine, and the properties of its specification proved (or refuted)
    on that embedding.

    Conventions of the embedding.
    - A JavaScript [number] that the code only uses as an integer (a
      token count, a time stamp in milliseconds, an HTTP status, an
      attempt counter) is a [Z].
    - A function that may [throw] returns a [result]; [Throw e] is the
      exception [e] leaving the function.
    - An [async] function whose awaits run one after the other is a
      state-passing function: the state is either the mutable object the
      code shares (a [Map]) or the history of the requests made so far,
      and what the outside world answers is a function of that history.
    - The persistent store behind [prisma] is a value; its queries are
      total functions on that value.  A write to the store may fail: how
      it ends is a parameter, as for a call to the provider. *)

From stdpp Require Import gmap strings list.
From Stdlib Require Import ZArith Lia Ascii String DecimalString.

Set Default Proof Using "Type".

Inductive result (A E : Type) : Type :=
| Ok (a : A)
| Throw (e : E).
Arguments Ok {A E} a.
Arguments Throw {A E} e.

Definition is_Ok {A E} (r : result A E) : bool :=
  match r with Ok _ => true | Throw _ => false end.

(** * Part I: the program *)

(** ** utils/retry.ts *)
Module Retry.
Local Open Scope Z_scope.

(** What one call of [withRetry] did: how it ended, the state it left,
    how many times it invoked the operation and the delays it slept. *)
Record run (T E W : Type) : Type := mkRun {
  outcome : result T E;
  final : W;
  calls : nat;
  sleeps : list Z;
}.
Arguments mkRun {T E W}.
Arguments outcome {T E W}.
Arguments final {T E W}.
Arguments calls {T E W}.
Arguments sleeps {T E W}.

Section WithRetry.
Context {T E W : Type}.

(** [fn]: one invocation of the operation from state [w].
    [jitter a]: the value of [Math.floor(Math.random() * 100)] drawn
    after the failure number [a]. *)
Variable fn : W → result T E * W.
Variable jitter : Z → Z.
Variables retries baseDelayMs : Z.

(** The [for (;;)] loop.  [attempt] is the loop's variable; [budget]
    bounds the iterations still to come and is what the recursion
    descends on: [RetryFacts.withRetry_loop_unfold] shows that with
    [budget = retries - attempt] the loop is exactly the source's.
    The delay slept is the integer the formula gives; the source
    computes it in JavaScript numbers, which give the same integer as
    long as the delays stay below 2^53 ([Backoff.exact]). *)
Fixpoint withRetry_loop (budget : nat) (attempt : Z) (w : W)
    (n : nat) (slept : list Z) : run T E W :=
  match fn w with
  | (Ok v, w') => mkRun (Ok v) w' (S n) slept
  | (Throw error, w') =>
      let attempt := attempt + 1 in
      if attempt >? retries then mkRun (Throw error) w' (S n) slept
      else
        let backoff := baseDelayMs * 2 ^ (attempt - 1) + jitter attempt in
        match budget with
        | O => mkRun (Throw error) w' (S n) slept
        | S budget' =>
            withRetry_loop budget' attempt w' (S n) (slept ++ [backoff])
        end
  end.

Definition withRetry (w : W) : run T E W :=
  withRetry_loop (Z.to_nat retries) 0 w O [].

(** The state after [k] invocations of the operation. *)
Fixpoint after (k : nat) (w : W) : W :=
  match k with
  | O => w
  | S k' => after k' (snd (fn w))
  end.

End WithRetry.

(** [options?.retries ?? 3] and [options?.baseDelayMs ?? 500]. *)
Definition default_retries : Z := 3.
Definition default_baseDelayMs : Z := 500.

(** An operation scripted by the list of its successive outcomes; the
    state is the part of the script not yet played, and an operation
    invoked past the end of its script keeps giving [dflt]. *)
Definition scripted {T E} (dflt : result T E)
    (w : list (result T E)) : result T E * list (result T E) :=
  match w with
  | [] => (dflt, [])
  | r :: w' => (r, w')
  end.

(** An operation that fails on every invocation, throwing the number
    of the invocations made before it. *)
Definition failing_counter (w : nat) : result Z nat * nat := (Throw w, S w).

End Retry.

(** ** lib/rate-limit.ts *)
Module RateLimit.
Local Open Scope Z_scope.

Record Bucket : Type := mkBucket {
  tokens : Z;
  resetAt : Z;
}.

(** [const store = new Map<string, Bucket>()]: the module's state. *)
Abbreviation Store := (gmap string Bucket).

Definition RateLimitExceeded : string := "Rate limit exceeded".

(** [enforceRateLimit(key, { limit, windowMs })] when [Date.now()] gives
    [now].  The call returns normally ([Ok tt]) or throws; the second
    component is the store after the call ([bucket.tokens -= 1] updates
    the bucket the map holds). *)
Definition enforceRateLimit (key : string) (limit windowMs : Z) (now : Z)
    (store : Store) : result unit string * Store :=
  match store !! key with
  | None =>
      (Ok tt, <[key := mkBucket (limit - 1) (now + windowMs)]> store)
  | Some bucket =>
      if resetAt bucket <=? now then
        (Ok tt, <[key := mkBucket (limit - 1) (now + windowMs)]> store)
      else if tokens bucket <=? 0 then
        (Throw RateLimitExceeded, store)
      else
        (Ok tt, <[key := mkBucket (tokens bucket - 1) (resetAt bucket)]> store)
  end.

(** No window is active for [key] at time [now]: the map has no bucket
    for it, or the bucket's window has elapsed. *)
Definition no_active_window (store : Store) (key : string) (now : Z) : Prop :=
  match store !! key with
  | None => True
  | Some bucket => resetAt bucket ≤ now
  end.

End RateLimit.

(** ** JavaScript values used by several modules *)
Module Js.

(** Truthiness of a [string | null | undefined]: [null], [undefined]
    and the empty string are falsy. *)
Definition truthy (s : option string) : bool :=
  match s with
  | None => false
  | Some s => negb (bool_decide (s = ""%string))
  end.

(** [xs?.length] as a condition, for an optional array. *)
Definition has_length {A} (xs : option (list A)) : bool :=
  match xs with
  | None | Some [] => false
  | Some (_ :: _) => true
  end.

(** [array.includes(x)] on strings. *)
Definition includes (xs : list string) (x : string) : bool :=
  existsb (λ y, bool_decide (y = x)) xs.

(** [s.split(sep)] for a one-character separator. *)
Fixpoint split_on (sep : ascii) (s : string) : list string :=
  match s with
  | EmptyString => [EmptyString]
  | String c s' =>
      if Ascii.eqb c sep then EmptyString :: split_on sep s'
      else match split_on sep s' with
           | [] => [String c EmptyString]
           | p :: ps => String c p :: ps
           end
  end.

(** What a [catch (error)] clause computes with
    [error instanceof Error ? error.message : fallback]: a thrown value
    is an [Error] with its message, or something else. *)
Inductive thrown : Type :=
| ErrorMsg (message : string)
| KoreHttpError (status : Z) (message : string)
| NotAnError.

Definition message_or (fallback : string) (e : thrown) : string :=
  match e with
  | ErrorMsg m => m
  | KoreHttpError _ m => m
  | NotAnError => fallback
  end.

(** [String.prototype.trim] on strings whose white space is ASCII
    (space, tab, line feed, vertical tab, form feed, carriage return). *)
Definition is_space (c : ascii) : bool :=
  let n := nat_of_ascii c in
  ((n =? 32) || ((9 <=? n) && (n <=? 13)))%nat.

Fixpoint trim_start (s : string) : string :=
  match s with
  | EmptyString => EmptyString
  | String c s' => if is_space c then trim_start s' else s
  end.

Fixpoint trim_end (s : string) : string :=
  match s with
  | EmptyString => EmptyString
  | String c s' =>
      match trim_end s' with
      | EmptyString => if is_space c then EmptyString else String c EmptyString
      | t => String c t
      end
  end.

Definition trim_ascii (s : string) : string := trim_end (trim_start s).

(** [String(n)] and [`${n}`] for an integer (of magnitude below 10^21,
    from where JavaScript prints an exponent). *)
Definition show_number (n : Z) : string := NilZero.string_of_int (Z.to_int n).

(** [s.length]: the UTF-16 code units of a string held as UTF-8.  A
    byte below 0x80 or a lead byte of a two- or three-byte sequence
    starts a character of one unit, a lead byte of a four-byte sequence
    a character of two (a surrogate pair), and a continuation byte
    (0x80 to 0xBF) starts none. *)
Definition utf16_units (c : ascii) : nat :=
  let n := nat_of_ascii c in
  if (n <? 128)%nat then 1%nat
  else if (n <? 192)%nat then 0%nat
  else if (n <? 240)%nat then 1%nat
  else 2%nat.

Fixpoint length (s : string) : nat :=
  match s with
  | EmptyString => 0%nat
  | String c s' => (utf16_units c + length s')%nat
  end.

(** A value of type [unknown] read from a parsed JSON body:
    [undefined] for a property that is absent, and the JSON values.  A
    number is an integer, an object is a plain one. *)
#[warnings="-register-all"]
Inductive value : Type :=
| Undefined
| Null
| Bool (b : bool)
| Num (n : Z)
| Str (s : string)
| Arr (items : list value)
| Obj.

(** [a ?? b] *)
Definition coalesce (a b : value) : value :=
  match a with
  | Undefined | Null => b
  | _ => a
  end.

(** Truthiness: [undefined], [null], [false], [0] and [""] are falsy;
    arrays and objects are truthy, the empty ones too. *)
Definition to_boolean (v : value) : bool :=
  match v with
  | Undefined | Null => false
  | Bool b => b
  | Num n => negb (n =? 0)%Z
  | Str s => negb (bool_decide (s = ""%string))
  | Arr _ | Obj => true
  end.

(** [String(v)]: an array is its elements joined by commas, [null] and
    [undefined] among them giving nothing. *)
Fixpoint to_string (v : value) : string :=
  match v with
  | Undefined => "undefined"
  | Null => "null"
  | Bool true => "true"
  | Bool false => "false"
  | Num n => show_number n
  | Str s => s
  | Arr items =>
      (fix join (items : list value) : string :=
         match items with
         | [] => ""
         | item :: rest =>
             let text :=
               match item with
               | Undefined | Null => ""
               | _ => to_string item
               end in
             match rest with
             | [] => text
             | _ :: _ => text ++ "," ++ join rest
             end
         end) items
  | Obj => "[object Object]"
  end%string.

(** [raw ? String(raw) : null] *)
Definition string_if_truthy (raw : value) : option string :=
  if to_boolean raw then Some (to_string raw) else None.

End Js.

(** ** lib/auth/scopes.ts and lib/auth/context.ts *)
Module Auth.

Record Scope : Type := mkScope {
  scopeId : string;
  accountId : string;
  accountLabel : string;
  fleetId : option string;
  fleetName : option string;
  canRead : bool;
  canWrite : bool;
  canInvite : bool;
}.

Definition hasReadAccess (scopes : list Scope) (accountId' : string)
    (fleetId' : option string) : bool :=
  existsb (λ scope,
    if negb (bool_decide (accountId scope = accountId')) then false
    else if Js.truthy fleetId' then
      bool_decide (fleetId scope = fleetId') && canRead scope
    else if bool_decide (fleetId scope = None) then canRead scope
    else canRead scope) scopes.

Definition hasWriteAccess (scopes : list Scope) (accountId' : string)
    (fleetId' : option string) : bool :=
  existsb (λ scope,
    if negb (bool_decide (accountId scope = accountId')) then false
    else if Js.truthy fleetId' then
      bool_decide (fleetId scope = fleetId') && canWrite scope
    else if bool_decide (fleetId scope = None) then canWrite scope
    else canWrite scope) scopes.

Inductive Role : Type := owner | agent.

Record AuthContext : Type := mkContext {
  userId : string;
  role : Role;
  scopes : list Scope;
}.

Definition isOwner (context : AuthContext) : bool :=
  match role context with owner => true | agent => false end.

End Auth.

(** ** lib/commands.ts *)
Module Commands.
Local Open Scope string_scope.

Definition READ_COMMANDS : list string :=
  [ "accinfo"; "authid"; "banned"; "caninfo"; "cansinfo"; "coords";
    "enginevolt"; "get3g"; "getapn"; "getcfg"; "getdinmode"; "getgfwver";
    "getio"; "getioparam"; "getlog"; "getnetw"; "getsd"; "gsminfo"; "imei";
    "info"; "iqfinfo"; "lastchange"; "modrev"; "plockinfo"; "snapshot";
    "ssl status"; "tacho"; "tachostatus"; "uptime"; "version"; "webcoords" ].

Definition WRITE_COMMANDS : list string :=
  [ "accreset"; "ahj-on"; "ahj-off"; "clear dtc"; "clear obd"; "connect";
    "delrecords"; "dfota"; "dmpfconnect"; "doutreset"; "econnect"; "forward";
    "neconnect"; "nreset"; "optiver"; "plock"; "reset"; "set3g"; "setcfg";
    "setconnection"; "setdinmode"; "setio"; "setioparam"; "setiotime";
    "setlcv"; "setlock"; "setnetw"; "setvalue"; "switchip"; "ussd" ].

Definition ALL_COMMANDS : list string :=
  READ_COMMANDS ++ WRITE_COMMANDS ++ ["custom"].

Definition isWriteCommand (command : string) : bool :=
  Js.includes WRITE_COMMANDS command.

Definition isReadCommand (command : string) : bool :=
  Js.includes READ_COMMANDS command.

Definition isSupportedCommand (command : string) : bool :=
  Js.includes ALL_COMMANDS command.

End Commands.

(** ** lib/crypto.ts *)
Module Crypto.
Local Open Scope string_scope.

Definition malformed : string := "Encrypted payload is malformed".

Section Decrypt.
(** [decipher iv data tag]: what [createDecipheriv("aes-256-gcm", key,
    iv)], [setAuthTag], [update] and [final] give on the three hex
    fields under the process key: the plain text, or the error that
    [final] throws when the tag does not verify. *)
Variable decipher : string → string → string → result string Js.thrown.

Definition decryptSecret (payload : string) : result string Js.thrown :=
  let parts := Js.split_on "." payload in
  let ivHex := parts !! 0%nat in
  let dataHex := parts !! 1%nat in
  let tagHex := parts !! 2%nat in
  if negb (Js.truthy ivHex) || negb (Js.truthy dataHex) || negb (Js.truthy tagHex)
  then Throw (Js.ErrorMsg malformed)
  else match ivHex, dataHex, tagHex with
       | Some iv, Some data, Some tag => decipher iv data tag
       | _, _, _ => Throw (Js.ErrorMsg malformed)
       end.
End Decrypt.

End Crypto.

(** ** The command dispatch route ([POST] of the commands endpoint) *)
Module Dispatch.
Local Open Scope string_scope.
Local Open Scope list_scope.

(** A row of the [account] table, as [findMany] returns it. *)
Module Account.
Record t : Type := mk {
  id : string;
  label : string;
  clientId : string;
  clientSecretEncrypted : string;
  oauthScope : option string;
  oauthAudience : option string;
}.
End Account.

(** A row of the [sim] table. *)
Module Sim.
Record t : Type := mk {
  id : string;
  accountId : string;
  fleetId : string;
  simSid : string;
  iccid : string;
  uniqueName : option string;
}.
End Sim.

(** [TargetSchema]: one account and a disjunctive set of identifiers. *)
Module Target.
Record t : Type := mk {
  accountId : string;
  simIds : option (list string);
  iccids : option (list string);
  uniqueNames : option (list string);
}.
End Target.

(** [BodySchema].  [perAccountPerSecond] is taken as an integer. *)
Module Body.
Record t : Type := mk {
  command : string;
  text : option string;
  accountScopedTargets : list Target.t;
  throttle : option (option Z);
}.
End Body.

(** An element of [results]. *)
Module Entry.
Record t : Type := mk {
  accountId : string;
  accountLabel : string;
  simSid : string;
  simId : string;
  iccid : string;
  status : string;
  message : string;
  command : option string;
  payload : option string;
  sentAt : option string;
}.
End Entry.

(** The arguments of one [sendSmsCommand] call. *)
Module Send.
Record t : Type := mk {
  label : string;
  clientId : string;
  clientSecret : string;
  scope : option string;
  audience : option string;
  command : string;
  simSid : string;
  text : option string;
}.
End Send.

(** A row that [prisma.commandLog.create] adds. *)
Module CommandLog.
Record t : Type := mk {
  accountId : string;
  simId : string;
  command : string;
  direction : string;
  payload : string;
  createdAt : string;
}.
End CommandLog.

(** The two tables the route reads. *)
Record Db : Type := mkDb {
  accounts : list Account.t;
  sims : list Sim.t;
}.

(** What the route has done so far: the provider calls it made, the
    rows it added to the command log and the delays it slept, each in
    order. *)
Record World : Type := mkWorld {
  sent : list Send.t;
  commandLog : list CommandLog.t;
  slept : list Z;
}.

Definition world0 : World := mkWorld [] [] [].

(** How the route answers: a 422 with its message, the results with
    [ok: true], or [handleApiError] on what the outer [catch] caught (an
    error response that carries no results). *)
Inductive Response : Type :=
| Rejected (status : Z) (error : string)
| Results (results : list Entry.t)
| ApiError (e : Js.thrown).

Definition string_min1 (s : string) : bool := negb (bool_decide (s = "")).

Definition TargetSchema_ok (target : Target.t) : bool :=
  string_min1 (Target.accountId target)
  && forallb string_min1 (default [] (Target.simIds target))
  && forallb string_min1 (default [] (Target.iccids target))
  && forallb string_min1 (default [] (Target.uniqueNames target)).

Definition BodySchema_ok (body : Body.t) : bool :=
  string_min1 (Body.command body)
  && match Body.text body with
     | None => true
     | Some text => (Js.length text <=? 160)%nat
     end
  && match Body.accountScopedTargets body with [] => false | _ :: _ => true end
  && forallb TargetSchema_ok (Body.accountScopedTargets body)
  && match Body.throttle body with
     | Some (Some rate) => ((1 <=? rate) && (rate <=? 30))%Z
     | _ => true
     end.

(** [prisma.account.findMany({ where: { id: { in: accountIds } } })]. *)
Definition account_findMany (db : Db) (accountIds : list string) : list Account.t :=
  filter (λ account, Js.includes accountIds (Account.id account) = true) (accounts db).

(** [new Map(accounts.map((account) => [account.id, account]))]: a later
    entry replaces an earlier one with the same key. *)
Definition accountMap_of (accounts : list Account.t) : gmap string Account.t :=
  foldl (λ m account, <[Account.id account := account]> m) ∅ accounts.

(** The [identifiers] array of a target: one clause for each identifier
    list that is present and not empty. *)
Definition identifiers (target : Target.t) : list (Sim.t → bool) :=
  (if Js.has_length (Target.simIds target)
   then [λ sim, Js.includes (default [] (Target.simIds target)) (Sim.id sim)]
   else [])
  ++ (if Js.has_length (Target.iccids target)
      then [λ sim, Js.includes (default [] (Target.iccids target)) (Sim.iccid sim)]
      else [])
  ++ (if Js.has_length (Target.uniqueNames target)
      then [λ sim, match Sim.uniqueName sim with
                   | Some name => Js.includes (default [] (Target.uniqueNames target)) name
                   | None => false
                   end]
      else []).

(** [prisma.sim.findMany({ where: { accountId, OR: identifiers } })]. *)
Definition sim_findMany (db : Db) (accountId : string)
    (OR : list (Sim.t → bool)) : list Sim.t :=
  filter (λ sim, bool_decide (Sim.accountId sim = accountId)
                 && existsb (λ clause, clause sim) OR = true) (sims db).

(** The callback of [mappedScopes?.some(...)] for one device. *)
Definition scope_permits (requiresWrite : bool) (sim : Sim.t)
    (scope : Auth.Scope) : bool :=
  let fleetMatch :=
    bool_decide (Auth.fleetId scope = None)
    || bool_decide (Auth.fleetId scope = Some (Sim.fleetId sim)) in
  if negb fleetMatch then false
  else if requiresWrite then Auth.canWrite scope else Auth.canRead scope.

(** [allowed]: [undefined] when [mappedScopes] is [null]. *)
Definition allowed (mappedScopes : option (list Auth.Scope))
    (requiresWrite : bool) (sim : Sim.t) : option bool :=
  existsb (scope_permits requiresWrite sim) <$> mappedScopes.

(** [Math.ceil(1000 / rate)] when a rate is given and not zero. *)
Definition perAccountDelay_of (throttle : option (option Z)) : Z :=
  match throttle with
  | Some (Some rate) => if (rate =? 0)%Z then 0%Z else ((1000 + rate - 1) / rate)%Z
  | _ => 0%Z
  end.

Section Route.
(** [trim]: [String.prototype.trim].
    [decipher]: the AES-GCM opening of [Crypto.decryptSecret].
    [provider calls request]: how [sendSmsCommand] ends on [request]
    when [calls] are the provider calls made before it.
    [logWrite w row]: how [prisma.commandLog.create] ends on [row] when
    the route has done [w].
    [clock w]: what [new Date().toISOString()] reads when the route has
    done [w]. *)
Variable trim : string → string.
Variable decipher : string → string → string → result string Js.thrown.
Variable provider : list Send.t → Send.t → result unit Js.thrown.
Variable logWrite : World → CommandLog.t → result unit Js.thrown.
Variable clock : World → string.

Variable context : Auth.AuthContext.
Variable command : string.
Variable text : option string.
Variable requiresWrite : bool.
Variable perAccountDelay : Z.

(** The body of [for (const sim of sims)]: what it pushes onto
    [results] and what it does to the world.  [body.text!] is read only
    for the command "custom", for which [POST] has checked that the
    text is there. *)
Definition dispatch_sim (account : Account.t) (secret : string)
    (mappedScopes : option (list Auth.Scope)) (sim : Sim.t)
    (results : list Entry.t) (w : World) : list Entry.t * World :=
  if negb (Auth.isOwner context)
     && negb (default false (allowed mappedScopes requiresWrite sim))
  then
    (results ++ [Entry.mk (Account.id account) (Account.label account)
                   (Sim.simSid sim) (Sim.id sim) (Sim.iccid sim)
                   "forbidden"
                   ("Write scope missing in Account " ++ Account.label account)%string
                   None None None], w)
  else
    let commandToSend :=
      if bool_decide (command = "custom") then trim (default "" text) else command in
    let payloadText :=
      if bool_decide (command = "custom") then trim (default "" text) else command in
    let dispatchStartedAt := clock w in
    let request :=
      Send.mk (Account.label account) (Account.clientId account) secret
        (Account.oauthScope account) (Account.oauthAudience account)
        commandToSend (Sim.simSid sim)
        (if bool_decide (payloadText = "") then None else Some payloadText) in
    let w1 := mkWorld (sent w ++ [request]) (commandLog w) (slept w) in
    let '(results', w2) :=
      match provider (sent w) request with
      | Ok _ =>
          let row :=
            CommandLog.mk (Account.id account) (Sim.id sim)
              commandToSend "outbound" payloadText (clock w1) in
          match logWrite w1 row with
          | Ok _ =>
              let w2 := mkWorld (sent w1) (commandLog w1 ++ [row]) (slept w1) in
              (results ++ [Entry.mk (Account.id account) (Account.label account)
                             (Sim.simSid sim) (Sim.id sim) (Sim.iccid sim)
                             "queued" ""
                             (Some commandToSend) (Some payloadText)
                             (Some dispatchStartedAt)], w2)
          | Throw error =>
              (results ++ [Entry.mk (Account.id account) (Account.label account)
                             (Sim.simSid sim) (Sim.id sim) (Sim.iccid sim)
                             "error" (Js.message_or "Failed to send" error)
                             (Some commandToSend) (Some payloadText)
                             (Some dispatchStartedAt)], w1)
          end
      | Throw error =>
          (results ++ [Entry.mk (Account.id account) (Account.label account)
                         (Sim.simSid sim) (Sim.id sim) (Sim.iccid sim)
                         "error" (Js.message_or "Failed to send" error)
                         (Some commandToSend) (Some payloadText)
                         (Some dispatchStartedAt)], w1)
      end in
    if (perAccountDelay =? 0)%Z then (results', w2)
    else (results', mkWorld (sent w2) (commandLog w2) (slept w2 ++ [perAccountDelay])).

Fixpoint dispatch_sims (account : Account.t) (secret : string)
    (mappedScopes : option (list Auth.Scope)) (sims : list Sim.t)
    (results : list Entry.t) (w : World) : list Entry.t * World :=
  match sims with
  | [] => (results, w)
  | sim :: sims' =>
      let '(results', w') := dispatch_sim account secret mappedScopes sim results w in
      dispatch_sims account secret mappedScopes sims' results' w'
  end.

Definition group_error (accountId accountLabel message : string) : Entry.t :=
  Entry.mk accountId accountLabel "" "" "" "error" message None None None.

(** The body of [for (const target of body.accountScopedTargets)]; it
    throws what [decryptSecret] throws. *)
Definition dispatch_target (db : Db) (accountMap : gmap string Account.t)
    (target : Target.t) (results : list Entry.t) (w : World)
    : result (list Entry.t * World) Js.thrown :=
  match accountMap !! Target.accountId target with
  | None =>
      Ok (results ++ [group_error (Target.accountId target) "Unknown"
                        "Account not found"], w)
  | Some account =>
      match Crypto.decryptSecret decipher (Account.clientSecretEncrypted account) with
      | Throw error => Throw error
      | Ok secret =>
          let mappedScopes :=
            if Auth.isOwner context then None
            else Some (filter (λ scope, Auth.accountId scope = Account.id account)
                         (Auth.scopes context)) in
          let identifiers := identifiers target in
          match identifiers with
          | [] =>
              Ok (results ++ [group_error (Account.id account) (Account.label account)
                                "No target identifiers supplied"], w)
          | _ :: _ =>
              let sims := sim_findMany db (Account.id account) identifiers in
              match sims with
              | [] =>
                  Ok (results ++ [group_error (Account.id account) (Account.label account)
                                    "No SIMs resolved for target"], w)
              | _ :: _ =>
                  Ok (dispatch_sims account secret mappedScopes sims results w)
              end
          end
      end
  end.

Fixpoint dispatch_targets (db : Db) (accountMap : gmap string Account.t)
    (targets : list Target.t) (results : list Entry.t) (w : World)
    : result (list Entry.t) Js.thrown * World :=
  match targets with
  | [] => (Ok results, w)
  | target :: targets' =>
      match dispatch_target db accountMap target results w with
      | Throw error => (Throw error, w)
      | Ok (results', w') => dispatch_targets db accountMap targets' results' w'
      end
  end.

End Route.

Section Handler.
Variable trim : string → string.
Variable decipher : string → string → string → result string Js.thrown.
Variable provider : list Send.t → Send.t → result unit Js.thrown.
Variable logWrite : World → CommandLog.t → result unit Js.thrown.
Variable clock : World → string.

(** [POST], from the parsed JSON body on, for the caller [context],
    when [Date.now()] gives [now] at the rate-limit gate.  It returns
    the response, the rate limiter's store and the world. *)
Definition POST (context : Auth.AuthContext) (body : Body.t) (db : Db)
    (now : Z) (store : RateLimit.Store) (w : World)
    : Response * RateLimit.Store * World :=
  if negb (BodySchema_ok body) then
    (Rejected 422 "Invalid command payload", store, w)
  else
    let command := trim (Body.command body) in
    if negb (Commands.isSupportedCommand command) then
      (Rejected 422 ("Unsupported command " ++ command)%string, store, w)
    else if bool_decide (command = "custom")
            && (negb (Js.truthy (Body.text body))
                || negb (Js.truthy (trim <$> Body.text body))) then
      (Rejected 422 "Custom command text is required", store, w)
    else
      let requiresWrite := Commands.isWriteCommand command in
      match RateLimit.enforceRateLimit
              ("command:" ++ Auth.userId context)%string 30 60000 now store with
      | (Throw message, store') => (ApiError (Js.ErrorMsg message), store', w)
      | (Ok _, store') =>
          let accountIds := map Target.accountId (Body.accountScopedTargets body) in
          let accounts := account_findMany db accountIds in
          let accountMap := accountMap_of accounts in
          match dispatch_targets trim decipher provider logWrite clock context command
                  (Body.text body) requiresWrite
                  (perAccountDelay_of (Body.throttle body))
                  db accountMap (Body.accountScopedTargets body) [] w with
          | (Ok results, w') => (Results results, store', w')
          | (Throw error, w') => (ApiError error, store', w')
          end
      end.

End Handler.

(** *** What the specification counts *)

(** The devices a target group resolves to: none when its account is
    not among the loaded ones, and none when it supplies no identifier
    (the disjunction is then empty). *)
Definition resolved (db : Db) (accountMap : gmap string Account.t)
    (target : Target.t) : list Sim.t :=
  match accountMap !! Target.accountId target with
  | None => []
  | Some account => sim_findMany db (Account.id account) (identifiers target)
  end.

(** What identifies a result entry: its account and its device ([""]
    for the entry of a group that resolved nothing). *)
Definition entry_key (e : Entry.t) : string * string :=
  (Entry.accountId e, Entry.simId e).

(** The entries the specification expects, in traversal order: one for
    each resolved device, one for a group that resolves none. *)
Definition expected_keys (db : Db) (accountMap : gmap string Account.t)
    (targets : list Target.t) : list (string * string) :=
  flat_map (λ target,
    match resolved db accountMap target with
    | [] => [(Target.accountId target, "")]
    | sims => map (λ sim, (Target.accountId target, Sim.id sim)) sims
    end) targets.

(** Resolved devices plus unresolved groups. *)
Definition expected_count (db : Db) (accountMap : gmap string Account.t)
    (targets : list Target.t) : nat :=
  list_sum (map (λ target, List.length (resolved db accountMap target)) targets)
  + List.length (filter (λ target, resolved db accountMap target = []) targets).

(** Every loaded account a target names has a secret that decrypts. *)
Definition secrets_decrypt (decipher : string → string → string → result string Js.thrown)
    (accountMap : gmap string Account.t) (targets : list Target.t) : Prop :=
  ∀ target account,
    target ∈ targets →
    accountMap !! Target.accountId target = Some account →
    is_Ok (Crypto.decryptSecret decipher (Account.clientSecretEncrypted account)) = true.

(** *** A small installation, for the concrete cases *)

(** A stand-in for AES-GCM: the tag ["00"] does not verify, any other
    opens to the data field. *)
Definition toy_decipher (iv data tag : string) : result string Js.thrown :=
  if bool_decide (tag = "00")
  then Throw (Js.ErrorMsg "Unsupported state or unable to authenticate data")
  else Ok data.

Definition provider_up (calls : list Send.t) (request : Send.t)
    : result unit Js.thrown := Ok tt.

(** The command log takes every row. *)
Definition log_up (w : World) (row : CommandLog.t) : result unit Js.thrown := Ok tt.

(** The command log takes no row: the database is away. *)
Definition log_down (w : World) (row : CommandLog.t) : result unit Js.thrown :=
  Throw (Js.ErrorMsg "Can't reach database server").

Definition fixed_clock (w : World) : string := "2024-05-01T10:00:00.000Z".

Definition acc1 : Account.t := Account.mk "A1" "Alpha" "client-1" "0a1b.5ec2e7.7f" None None.
Definition acc2 : Account.t := Account.mk "A2" "Beta" "client-2" "not-a-ciphertext" None None.
Definition sim1 : Sim.t := Sim.mk "s1" "A1" "f1" "HS1" "8900000000000000001" (Some "truck-1").
Definition sim2 : Sim.t := Sim.mk "s2" "A2" "f2" "HS2" "8900000000000000002" None.
Definition db12 : Db := mkDb [acc1; acc2] [sim1; sim2].
Definition the_owner : Auth.AuthContext := Auth.mkContext "u0" Auth.owner [].
Definition target1 : Target.t := Target.mk "A1" (Some ["s1"]) None None.
Definition target2 : Target.t := Target.mk "A2" None (Some ["8900000000000000002"]) None.
Definition body_of (command : string) (targets : list Target.t) : Body.t :=
  Body.mk command None targets None.

Definition wide_scope : Auth.Scope :=
  Auth.mkScope "1" "A1" "Alpha" None None true true true.
Definition read_only_fleet_scope : Auth.Scope :=
  Auth.mkScope "2" "A1" "Alpha" (Some "f1") (Some "Fleet 1") true false false.
Definition agent_with (scopes : list Auth.Scope) : Auth.AuthContext :=
  Auth.mkContext "u1" Auth.agent scopes.

End Dispatch.

(** ** lib/kore.ts *)
Module Kore.
Local Open Scope string_scope.
Local Open Scope list_scope.

Record KoreAccountSecret : Type := mkSecret {
  label : string;
  clientId : string;
  clientSecret : string;
  scope : option string;
  audience : option string;
}.

Record KoreSim : Type := mkSim {
  sid : string;
  iccid : string;
  uniqueName : option string;
  status : string;
  fleetSid : string;
  fleetName : option string;
  lastSeenAt : option string;
}.

(** *** The token cache *)

Record TokenCacheEntry : Type := mkEntry {
  token : string;
  expiresAt : Z;
}.

(** The body of a token response, as [response.json()] reads it. *)
Record TokenJson : Type := mkTokenJson {
  access_token : string;
  expires_in : option Z;
}.

(** What [fetchWithTimeout] resolves to at the token endpoint.
    [detail] is what [safeJson] gives and [json] what [response.json()]
    gives, which throws on a body that is not JSON. *)
Record TokenResponse : Type := mkResponse {
  ok : bool;
  http_status : Z;
  statusText : string;
  detail : string;
  json : result TokenJson Js.thrown;
}.

(** A promise that has settled.  Calls of [getAccessToken] are taken one
    after the other, each awaited to its end, so a promise found in
    [tokenInFlight] when a call starts has settled. *)
Inductive settled : Type :=
| Fulfilled (token : string)
| Rejected (reason : Js.thrown).

Definition await (p : settled) : result string Js.thrown :=
  match p with
  | Fulfilled token => Ok token
  | Rejected reason => Throw reason
  end.

(** The module's two maps, and the number of requests sent to the token
    endpoint so far. *)
Record TokenState : Type := mkTokenState {
  tokenCache : gmap string TokenCacheEntry;
  tokenInFlight : gmap string settled;
  token_requests : nat;
}.

Section GetAccessToken.
(** [endpoint n]: how the request number [n] (from 0) to the token
    endpoint ends: a response, or a rejection of [fetch] (network
    failure, or the abort after 20 s).
    [jitter]: the random part of [withRetry]'s delays.
    [describe]: the message of the [KoreHttpError] for a response. *)
Variable endpoint : nat → result TokenResponse Js.thrown.
Variable jitter : Z → Z.
Variable describe : KoreAccountSecret → TokenResponse → string.

(** One invocation of the operation given to [withRetry]. *)
Definition fetch_token (n : nat) : result TokenResponse Js.thrown * nat :=
  (endpoint n, S n).

(** [getAccessToken(account)]; [now] is [Date.now()] when the call
    starts and [later] when the response is handled. *)
Definition getAccessToken (account : KoreAccountSecret) (now later : Z)
    (st : TokenState) : result string Js.thrown * TokenState :=
  let cacheKey := clientId account in
  let cached := tokenCache st !! cacheKey in
  let valid :=
    match cached with
    | Some entry => (expiresAt entry >? now + 10000)%Z
    | None => false
    end in
  match cached, valid with
  | Some entry, true => (Ok (token entry), st)
  | _, _ =>
   match tokenInFlight st !! cacheKey with
   | Some inflight => (await inflight, st)
   | None =>
       let promise :=
         Retry.withRetry fetch_token jitter Retry.default_retries
           Retry.default_baseDelayMs (token_requests st) in
       let requests := Retry.final promise in
       match Retry.outcome promise with
       | Throw reason =>
           (* [promise.then(cb)] of a rejected promise: [cb] is not
              called, the promise stored in the map rejects *)
           (Throw reason,
            mkTokenState (tokenCache st)
              (<[cacheKey := Rejected reason]> (tokenInFlight st)) requests)
       | Ok response =>
           if negb (ok response) then
             let error := Js.KoreHttpError (http_status response)
                            (describe account response) in
             (Throw error,
              mkTokenState (tokenCache st)
                (delete cacheKey (<[cacheKey := Rejected error]> (tokenInFlight st)))
                requests)
           else
             match json response with
             | Throw reason =>
                 (Throw reason,
                  mkTokenState (tokenCache st)
                    (<[cacheKey := Rejected reason]> (tokenInFlight st)) requests)
             | Ok data =>
                 let expiresIn := default 3600%Z (expires_in data) in
                 let entry := mkEntry (access_token data) (later + expiresIn * 1000)%Z in
                 (Ok (token entry),
                  mkTokenState (<[cacheKey := entry]> (tokenCache st))
                    (delete cacheKey
                       (<[cacheKey := Fulfilled (token entry)]> (tokenInFlight st)))
                    requests)
             end
       end
   end
  end.
End GetAccessToken.

Definition no_tokens : TokenState := mkTokenState ∅ ∅ O.

(** *** Listing the devices of a fleet *)

(** [a ?? b] *)
Definition nullish {A} (a b : option A) : option A :=
  match a with Some _ => a | None => b end.
Infix "??" := nullish (at level 61, left associativity).

(** An element of a listing, [Record<string, unknown>]: the fields
    [normalizeSim] reads, each holding a value of any kind. *)
Module Raw.
Record t : Type := mk {
  sid : Js.value;
  id : Js.value;
  iccid : Js.value;
  sim_iccid : Js.value;
  unique_name : Js.value;
  uniqueName : Js.value;
  fleet_sid : Js.value;
  fleetSid : Js.value;
  fleet_id : Js.value;
  fleet_name : Js.value;
  fleetName : Js.value;
  status : Js.value;
  last_seen_at : Js.value;
  lastSeenAt : Js.value;
}.
End Raw.

Module Meta.
Record t : Type := mk {
  next_page_url : option string;
  nextPageUrl : option string;
}.
End Meta.

(** [SimListResponse] *)
Module SimList.
Record t : Type := mk {
  sims : option (list Raw.t);
  data : option (list Raw.t);
  meta : option Meta.t;
}.
End SimList.

(** [s ? s : null] for a [string | null]. *)
Definition keep_truthy (raw : option string) : option string :=
  if Js.truthy raw then raw else None.

Definition normalizeSim (input : Raw.t) : KoreSim :=
  let sid :=
    Js.to_string (Js.coalesce (Js.coalesce (Raw.sid input) (Raw.id input)) (Js.Str "")) in
  let iccid :=
    Js.to_string
      (Js.coalesce (Js.coalesce (Raw.iccid input) (Raw.sim_iccid input)) (Js.Str "")) in
  let uniqueNameRaw :=
    Js.coalesce (Js.coalesce (Raw.unique_name input) (Raw.uniqueName input)) Js.Null in
  let fleetSid :=
    Js.to_string
      (Js.coalesce
         (Js.coalesce (Js.coalesce (Raw.fleet_sid input) (Raw.fleetSid input))
            (Raw.fleet_id input))
         (Js.Str "")) in
  let fleetNameRaw :=
    Js.coalesce (Js.coalesce (Raw.fleet_name input) (Raw.fleetName input)) Js.Null in
  let status := Js.to_string (Js.coalesce (Raw.status input) (Js.Str "unknown")) in
  let lastSeenRaw :=
    Js.coalesce (Js.coalesce (Raw.last_seen_at input) (Raw.lastSeenAt input)) Js.Null in
  mkSim sid iccid (Js.string_if_truthy uniqueNameRaw) status fleetSid
    (Js.string_if_truthy fleetNameRaw) (Js.string_if_truthy lastSeenRaw).

(** [{ ...sim, fleetSid }] *)
Definition with_fleetSid (fleetSid' : string) (sim : KoreSim) : KoreSim :=
  mkSim (sid sim) (iccid sim) (uniqueName sim) (status sim) fleetSid'
    (fleetName sim) (lastSeenAt sim).

(** The devices a page contributes: its elements with a resolvable
    external id, normalised, under the fleet asked for. *)
Definition resolvable (fleetSid' : string) (items : list Raw.t) : list KoreSim :=
  map (with_fleetSid fleetSid')
    (filter (λ sim, sid sim ≠ "") (map normalizeSim items)).

(** [stripBase(url)] for the base URL [base]. *)
Definition stripBase (base url : string) : string :=
  if String.prefix base url
  then String.substring (String.length base)
         (String.length url - String.length base) url
  else url.

(** How the loop over one candidate's pages ends. *)
Inductive pages_end : Type :=
| Completed
| Threw (err : Js.thrown)
| OutOfFuel.

(** What the loop over the pages leaves. *)
Record pages_run : Type := mkPages {
  ended : pages_end;
  collected : list KoreSim;
  fetchedAny : bool;
  requested : list string;
}.

Section ListSims.
(** [base]: [baseUrl()].
    [encodeURIComponent]: the JavaScript function.
    [koreFetch before path]: how [koreFetch(account, path)] ends when
    [before] are the paths requested so far: the parsed body, or what it
    throws (a [KoreHttpError] for a response that is not 2xx, anything
    else for a failed token or transport). *)
Variable base : string.
Variable encodeURIComponent : string → string.
Variable koreFetch : list string → string → result SimList.t Js.thrown.
Variable fleetSid' : string.

(** [for (const item of items)]: the devices pushed and the flag. *)
Definition push_items (items : list Raw.t) (sims : list KoreSim) (any : bool)
    : list KoreSim * bool :=
  foldl (λ '(sims, any) item,
           let sim := normalizeSim item in
           if Js.truthy (Some (sid sim))
           then (sims ++ [with_fleetSid fleetSid' sim], true)
           else (sims, any))
        (sims, any) items.

Definition next_path (data : SimList.t) : option string :=
  let nextUrl :=
    (SimList.meta data ≫= Meta.next_page_url)
    ?? (SimList.meta data ≫= Meta.nextPageUrl) in
  if Js.truthy nextUrl then stripBase base <$> nextUrl else None.

(** [while (nextPath && !visited.has(nextPath))], inside the [try]; a
    page costs one unit of [fuel], and the loop may need any number of
    them: the provider decides how many pages there are. *)
Fixpoint pages (fuel : nat) (nextPath : option string) (visited : gset string)
    (sims : list KoreSim) (any : bool) (before : list string) : pages_run :=
  match nextPath with
  | Some path =>
      if Js.truthy nextPath && negb (bool_decide (path ∈ visited)) then
        match fuel with
        | O => mkPages OutOfFuel sims any before
        | S fuel' =>
            let visited := {[path]} ∪ visited in
            match koreFetch before path with
            | Throw err => mkPages (Threw err) sims any (before ++ [path])
            | Ok data =>
                let items := default [] (SimList.sims data ?? SimList.data data) in
                let '(sims, any) := push_items items sims any in
                pages fuel' (next_path data) visited sims any (before ++ [path])
            end
        end
      else mkPages Completed sims any before
  | None => mkPages Completed sims any before
  end.

(** [err instanceof KoreHttpError && (err.status === 404 || err.status === 400)] *)
Definition try_next (err : Js.thrown) : bool :=
  match err with
  | Js.KoreHttpError status _ => (status =? 404)%Z || (status =? 400)%Z
  | _ => false
  end.

(** [for (const firstPath of candidates)], then [return sims].  [None]
    when a candidate's pages did not end within [fuel]. *)
Fixpoint candidates_loop (fuel : nat) (candidates : list string)
    (sims : list KoreSim) (before : list string)
    : option (result (list KoreSim) Js.thrown) * list string :=
  match candidates with
  | [] => (Some (Ok sims), before)
  | firstPath :: rest =>
      let run := pages fuel (Some firstPath) ∅ sims false before in
      match ended run with
      | OutOfFuel => (None, requested run)
      | Threw err =>
          if try_next err
          then candidates_loop fuel rest (collected run) (requested run)
          else (Some (Throw err), requested run)
      | Completed =>
          if fetchedAny run then (Some (Ok (collected run)), requested run)
          else candidates_loop fuel rest (collected run) (requested run)
      end
  end.

Definition candidates : list string :=
  [ "/Fleets/" ++ encodeURIComponent fleetSid' ++ "/Sims?PageSize=500";
    "/Sims?FleetSid=" ++ encodeURIComponent fleetSid' ++ "&PageSize=500";
    "/Sims?Fleet=" ++ encodeURIComponent fleetSid' ++ "&PageSize=500";
    "/fleets/" ++ encodeURIComponent fleetSid' ++ "/sims?PageSize=500";
    "/sims?FleetSid=" ++ encodeURIComponent fleetSid' ++ "&PageSize=500";
    "/sims?fleetSid=" ++ encodeURIComponent fleetSid' ++ "&PageSize=500" ]%string.

Definition listSimsFromKore (fuel : nat) (before : list string)
    : option (result (list KoreSim) Js.thrown) * list string :=
  candidates_loop fuel candidates [] before.

End ListSims.

(** *** Concrete providers *)

Definition raw_device (sid' iccid' : string) : Raw.t :=
  Raw.mk (Js.Str sid') Js.Undefined (Js.Str iccid') Js.Undefined Js.Undefined
    Js.Undefined Js.Undefined Js.Undefined Js.Undefined Js.Undefined Js.Undefined
    (Js.Str "active") Js.Undefined Js.Undefined.

Definition one_page (items : list Raw.t) (next : option string) : SimList.t :=
  SimList.mk (Some items) None (Some (Meta.mk next None)).

Definition three_devices : list Raw.t :=
  [raw_device "HS1" "8901"; raw_device "HS2" "8902"; raw_device "HS3" "8903"].

(** Answers 404 to the first four requests and one page of three
    devices to every later one. *)
Definition fifth_answers (before : list string) (path : string)
    : result SimList.t Js.thrown :=
  if (List.length before <? 4)%nat
  then Throw (Js.KoreHttpError 404 "KORE API request failed (404)")
  else Ok (one_page three_devices None).

(** Answers every request with a page that holds no device. *)
Definition empty_pages (before : list string) (path : string)
    : result SimList.t Js.thrown :=
  Ok (SimList.mk None (Some []) None).

(** The first candidate has device HS1 on its first page and a 404 on
    its second; the second candidate has HS1 on its only page. *)
Definition second_page_missing (before : list string) (path : string)
    : result SimList.t Js.thrown :=
  if bool_decide (path = "/Fleets/HF1/Sims?PageSize=500") then
    Ok (one_page [raw_device "HS1" "8901"]
          (Some "https://api.example/v1/Fleets/HF1/Sims?PageSize=500&Page=2"))
  else if bool_decide (path = "/Fleets/HF1/Sims?PageSize=500&Page=2") then
    Throw (Js.KoreHttpError 404 "KORE API request failed (404)")
  else Ok (one_page [raw_device "HS1" "8901"] None).

Definition plain (s : string) : string := s.

(** Answers 500 to every request. *)
Definition server_error (before : list string) (path : string)
    : result SimList.t Js.thrown :=
  Throw (Js.KoreHttpError 500 "KORE API request failed (500)").

(** *** Concrete token endpoints *)

Definition tenant : KoreAccountSecret := mkSecret "Alpha" "client-1" "s3cret" None None.

Definition token_200 : TokenResponse :=
  mkResponse true 200 "OK" "{}" (Ok (mkTokenJson "tok-1" (Some 3600%Z))).

Definition token_401 : TokenResponse :=
  mkResponse false 401 "Unauthorized" "{}" (Throw Js.NotAnError).

(** The network is down for the first four requests, then the endpoint
    answers 200. *)
Definition down_then_up (n : nat) : result TokenResponse Js.thrown :=
  if (n <? 4)%nat then Throw (Js.ErrorMsg "fetch failed") else Ok token_200.

(** Answers 401 to the first request and 200 to the later ones. *)
Definition refused_then_up (n : nat) : result TokenResponse Js.thrown :=
  if (n <? 1)%nat then Ok token_401 else Ok token_200.

Definition no_jitter (attempt : Z) : Z := 0%Z.

(** The message of the [KoreHttpError] of a token response that is not
    2xx; [detail] holds the text [JSON.stringify(detail)] gives. *)
Definition token_error (account : KoreAccountSecret) (response : TokenResponse) : string :=
  ("Failed to obtain KORE token for " ++ label account ++ ": "
   ++ Js.show_number (http_status response) ++ " " ++ statusText response ++ " "
   ++ detail response)%string.

End Kore.

(** ** lib/db-utils.ts *)
Module DbUtils.

Section SequentialProcess.
Context {T W : Type}.
(** [handler item index]: one call of the handler, from state [w]. *)
Variable handler : T → nat → W → result unit Js.thrown * W.
Variable jitter : Z → Z.
Variables retries baseDelayMs : Z.

(** [for (let index = ...; index < items.length; index += 1)], from
    [index] on, [items] being the elements still to come. *)
Fixpoint sequentialProcess_from (items : list T) (index : nat) (w : W)
    : result unit Js.thrown * W :=
  match items with
  | [] => (Ok tt, w)
  | item :: items' =>
      let attempt :=
        Retry.withRetry (handler item index) jitter retries baseDelayMs w in
      match Retry.outcome attempt with
      | Ok _ => sequentialProcess_from items' (S index) (Retry.final attempt)
      | Throw error => (Throw error, Retry.final attempt)
      end
  end.

Definition sequentialProcess (items : list T) (w : W) : result unit Js.thrown * W :=
  sequentialProcess_from items O w.
End SequentialProcess.

(** [options?.retries ?? 4] and [options?.baseDelayMs ?? 250]. *)
Definition default_retries : Z := 4.
Definition default_baseDelayMs : Z := 250.

End DbUtils.

(** ** The device sync route ([POST] of the sims sync endpoint) *)
Module DeviceSync.
Local Open Scope string_scope.
Local Open Scope list_scope.

Module Fleet.
Record t : Type := mk {
  id : string;
  externalRef : string;
}.
End Fleet.

(** A row of [account], with its fleets ([include: { fleets: true }]). *)
Module Account.
Record t : Type := mk {
  id : string;
  label : string;
  clientId : string;
  clientSecretEncrypted : string;
  oauthScope : option string;
  oauthAudience : option string;
  fleets : list Fleet.t;
}.
End Account.

(** An element of [summary]. *)
Module Summary.
Record t : Type := mk {
  accountId : string;
  fleetId : option string;
  synced : option nat;
  error : option string;
}.
End Summary.

(** The arguments of one [prisma.sim.upsert]. *)
Module Upsert.
Record t : Type := mk {
  simSid : string;
  iccid : string;
  uniqueName : option string;
  status : string;
  lastSeenAt : option string;
  accountId : string;
  fleetId : string;
}.
End Upsert.

(** The context [logError] is given for a skipped fleet. *)
Module Warning.
Record t : Type := mk {
  message : string;
  accountId : string;
  accountLabel : string;
  fleetId : string;
  fleetExternalRef : string;
}.
End Warning.

(** What the route has done so far: the listings it asked the provider
    for, the upserts it asked the store for, the warnings it logged,
    and [summary]. *)
Record World : Type := mkWorld {
  listings : list (Kore.KoreAccountSecret * string);
  upserts : list Upsert.t;
  logged : list Warning.t;
  summary : list Summary.t;
}.

Definition world0 : World := mkWorld [] [] [] [].

Definition push_summary (entry : Summary.t) (w : World) : World :=
  mkWorld (listings w) (upserts w) (logged w) (summary w ++ [entry]).

Section Route.
(** [decipher]: the AES-GCM opening of [Crypto.decryptSecret].
    [listSims before account fleetSid]: how the call
    [listSimsFromKore(account, fleetSid)] ends when [before] are the
    listings asked for so far.
    [upsert before call]: how [prisma.sim.upsert] ends on [call] when
    [before] are the upserts asked for so far.
    [jitter]: the random part of [withRetry]'s delays. *)
Variable decipher : string → string → string → result string Js.thrown.
Variable listSims :
  list (Kore.KoreAccountSecret * string) → Kore.KoreAccountSecret → string →
  result (list Kore.KoreSim) Js.thrown.
Variable upsert : list Upsert.t → Upsert.t → result unit Js.thrown.
Variable jitter : Z → Z.

Variable context : Auth.AuthContext.
Variable fleetFilter : option (list string).

(** The handler of the innermost [sequentialProcess]: one upsert,
    which ends as the store decides. *)
Definition sync_sim (account : Account.t) (fleet : Fleet.t)
    (sim : Kore.KoreSim) (index : nat) (w : World) : result unit Js.thrown * World :=
  let call :=
    Upsert.mk (Kore.sid sim) (Kore.iccid sim) (Kore.uniqueName sim)
      (Kore.status sim) (Kore.keep_truthy (Kore.lastSeenAt sim))
      (Account.id account) (Fleet.id fleet) in
  (upsert (upserts w) call,
   mkWorld (listings w) (upserts w ++ [call]) (logged w) (summary w)).

Definition is_404 (err : Js.thrown) : bool :=
  match err with
  | Js.KoreHttpError status _ => (status =? 404)%Z
  | _ => false
  end.

(** The handler of the loop over [targetFleets]. *)
Definition sync_fleet (account : Account.t) (secret : string)
    (fleet : Fleet.t) (index : nat) (w : World) : result unit Js.thrown * World :=
  let credentials :=
    Kore.mkSecret (Account.label account) (Account.clientId account) secret
      (Account.oauthScope account) (Account.oauthAudience account) in
  let w1 := mkWorld (listings w ++ [(credentials, Fleet.externalRef fleet)])
              (upserts w) (logged w) (summary w) in
  match listSims (listings w) credentials (Fleet.externalRef fleet) with
  | Throw err =>
      if is_404 err then
        (Ok tt,
         mkWorld (listings w1) (upserts w1)
           (logged w1 ++ [Warning.mk "Fleet not found when listing sims; skipping"
                            (Account.id account) (Account.label account)
                            (Fleet.id fleet) (Fleet.externalRef fleet)])
           (summary w1))
      else (Throw err, w1)
  | Ok sims =>
      match DbUtils.sequentialProcess (sync_sim account fleet) jitter 5 200 sims w1 with
      | (Throw err, w2) => (Throw err, w2)
      | (Ok _, w2) =>
          (Ok tt,
           push_summary (Summary.mk (Account.id account) (Some (Fleet.id fleet))
                           (Some (List.length sims)) None) w2)
      end
  end.

Definition targetFleets (account : Account.t) : list Fleet.t :=
  let accountScope :=
    if Auth.isOwner context then None
    else Some (filter (λ scope, bool_decide (Auth.accountId scope = Account.id account)
                                && Auth.canRead scope = true)
                 (Auth.scopes context)) in
  filter (λ fleet,
    (if Js.has_length fleetFilter
        && negb (Js.includes (default [] fleetFilter) (Fleet.id fleet))
     then false
     else if Auth.isOwner context then true
     else default false
            (existsb (λ scope, bool_decide (Auth.fleetId scope = None)
                               || bool_decide (Auth.fleetId scope = Some (Fleet.id fleet)))
               <$> accountScope)) = true)
    (Account.fleets account).

(** The handler of the loop over [accounts]: its [try] and [catch]. *)
Definition sync_account (account : Account.t) (index : nat) (w : World)
    : result unit Js.thrown * World :=
  match Crypto.decryptSecret decipher (Account.clientSecretEncrypted account) with
  | Throw err =>
      (Ok tt, push_summary (Summary.mk (Account.id account) None None
                              (Some (Js.message_or "sync failed" err))) w)
  | Ok secret =>
      match DbUtils.sequentialProcess (sync_fleet account secret) jitter
              DbUtils.default_retries DbUtils.default_baseDelayMs
              (targetFleets account) w with
      | (Ok _, w') => (Ok tt, w')
      | (Throw err, w') =>
          (Ok tt, push_summary (Summary.mk (Account.id account) None None
                                  (Some (Js.message_or "sync failed" err))) w')
      end
  end.

(** From [const summary = []] to the response: the loop over the
    accounts that [findMany] returned, then [{ ok: true, summary }], or
    [handleApiError] on what the loop threw. *)
Definition sync_accounts (accounts : list Account.t)
    : result (list Summary.t) Js.thrown * World :=
  match DbUtils.sequentialProcess sync_account jitter
          DbUtils.default_retries DbUtils.default_baseDelayMs accounts world0 with
  | (Ok _, w) => (Ok (summary w), w)
  | (Throw err, w) => (Throw err, w)
  end.

End Route.

(** *** A concrete run *)

(** The store takes every upsert. *)
Definition upsert_up (before : list Upsert.t) (call : Upsert.t)
    : result unit Js.thrown := Ok tt.

(** The store takes no upsert. *)
Definition upsert_down (before : list Upsert.t) (call : Upsert.t)
    : result unit Js.thrown := Throw (Js.ErrorMsg "Can't reach database server").

Definition fleetA1 : Fleet.t := Fleet.mk "f1" "HF1".
Definition fleetA2 : Fleet.t := Fleet.mk "f2" "HF2".
Definition fleetB1 : Fleet.t := Fleet.mk "f3" "HF3".
Definition fleetC1 : Fleet.t := Fleet.mk "f4" "HF4".
Definition accountA : Account.t :=
  Account.mk "A" "Alpha" "client-a" "0a.5ec2e7.7f" None None [fleetA1; fleetA2].
Definition accountB : Account.t :=
  Account.mk "B" "Beta" "client-b" "0b.5ec2e8.7f" None None [fleetB1].
Definition accountC : Account.t :=
  Account.mk "C" "Gamma" "client-c" "0c.5ec2e9.7f" None None [fleetC1].

End DeviceSync.

(** * Part I, continued: more of the program *)

(** ** utils/retry.ts: the delays *)
Module Backoff.
Local Open Scope Z_scope.

(** [baseDelayMs * 2 ** (attempt - 1) + Math.floor(Math.random() * 100)]
    for [attempt] = 1, ..., [k]: the delays [withRetry] sleeps after its
    first [k] failures, [jitter attempt] being the random part drawn
    after failure number [attempt]. *)
Definition delays (baseDelayMs : Z) (jitter : Z → Z) (k : nat) : list Z :=
  map (λ a : nat, baseDelayMs * 2 ^ (Z.of_nat a - 1) + jitter (Z.of_nat a)) (seq 1 k).

(** The delays are computed in JavaScript numbers, which hold the
    integers up to 2^53 exactly: with a base delay that is not
    negative, a jitter of 0 to 99 and the largest delay below 2^53,
    every product and sum of the computation is the integer it is
    here. *)
Definition exact (baseDelayMs : Z) (jitter : Z → Z) (retries : Z) : Prop :=
  0 ≤ baseDelayMs
  ∧ (∀ attempt, 0 ≤ jitter attempt ≤ 99)
  ∧ baseDelayMs * 2 ^ (retries - 1) + 99 < 2 ^ 53.

End Backoff.

(** ** lib/rate-limit.ts: runs of calls *)
Module RateLimitRuns.
Import RateLimit.

(** One call of [enforceRateLimit] for [key] at each of the [times], in
    order: how each call ended, and the store after the last. *)
Fixpoint enforce_each (key : string) (limit windowMs : Z) (times : list Z)
    (store : Store) : list (result unit string) * Store :=
  match times with
  | [] => ([], store)
  | now :: times' =>
      let '(r, store') := enforceRateLimit key limit windowMs now store in
      let '(rs, store'') := enforce_each key limit windowMs times' store' in
      (r :: rs, store'')
  end.

End RateLimitRuns.

(** ** lib/crypto.ts: encryption *)
Module CryptoSeal.
Local Open Scope string_scope.

Definition hex_digits : list ascii :=
  ["0"; "1"; "2"; "3"; "4"; "5"; "6"; "7"; "8"; "9"; "a"; "b"; "c"; "d"; "e"; "f"]%char.

(** [buffer.toString("hex")]: two lower-case digits for each byte. *)
Definition hex_of_byte (b : Byte.byte) : string :=
  let n := N.to_nat (Byte.to_N b) in
  String (nth (n / 16) hex_digits "0"%char)
    (String (nth (n mod 16) hex_digits "0"%char) EmptyString).

Fixpoint hex (bytes : list Byte.byte) : string :=
  match bytes with
  | [] => ""
  | b :: bytes' => hex_of_byte b ++ hex bytes'
  end.

Section Encrypt.
(** [seal iv value]: what [createCipheriv("aes-256-gcm", key, iv)]
    gives for [value] under the process key: the bytes of [update]
    followed by [final], and the authentication tag. *)
Variable seal : list Byte.byte → string → list Byte.byte * list Byte.byte.

(** [encryptSecret(value)] when [randomBytes(12)] gives [iv]. *)
Definition encryptSecret (iv : list Byte.byte) (value : string) : string :=
  let '(encrypted, authTag) := seal iv value in
  hex iv ++ "." ++ hex encrypted ++ "." ++ hex authTag.
End Encrypt.

(** The string has no occurrence of the character. *)
Fixpoint free_of (c : ascii) (s : string) : bool :=
  match s with
  | EmptyString => true
  | String c' s' => negb (Ascii.eqb c' c) && free_of c s'
  end.

End CryptoSeal.

(** ** lib/crypto.ts: a stand-in cipher for the concrete cases *)
Module CryptoToy.
Local Open Scope string_scope.

(** Seals a value as its own bytes under the one-byte tag [a7]. *)
Definition toy_seal (iv : list Byte.byte) (value : string)
    : list Byte.byte * list Byte.byte :=
  (map byte_of_ascii (list_ascii_of_string value), [Byte.xa7]).

(** Opens the sealed "s3cret" and nothing else. *)
Definition toy_open (iv data tag : string) : result string Js.thrown :=
  if bool_decide (data = "733363726574") && bool_decide (tag = "a7")
  then Ok "s3cret"
  else Throw (Js.ErrorMsg "Unsupported state or unable to authenticate data").

Definition nonce12 : list Byte.byte :=
  [Byte.x00; Byte.x01; Byte.x02; Byte.x03; Byte.x04; Byte.x05;
   Byte.x06; Byte.x07; Byte.x08; Byte.x09; Byte.x0a; Byte.x0b].

End CryptoToy.

(** ** lib/db-utils.ts: [chunkArray] *)
Module Chunk.
Local Open Scope Z_scope.

(** [items.slice(start, end)]: a negative bound counts from the end,
    and both are clamped to the array. *)
Definition js_slice {T} (items : list T) (start end_ : Z) : list T :=
  let len := Z.of_nat (List.length items) in
  let k := if start <? 0 then Z.max (len + start) 0 else Z.min start len in
  let final := if end_ <? 0 then Z.max (len + end_) 0 else Z.min end_ len in
  take (Z.to_nat (final - k)) (drop (Z.to_nat k) items).

(** [for (let i = 0; i < items.length; i += size)], from [i] on.  An
    iteration costs one unit of [fuel]; [None] when the loop has not
    ended within it. *)
Fixpoint chunk_loop {T} (fuel : nat) (items : list T) (size : Z) (i : Z)
    (chunks : list (list T)) : option (list (list T)) :=
  if i <? Z.of_nat (List.length items) then
    match fuel with
    | O => None
    | S fuel' =>
        chunk_loop fuel' items size (i + size)
          (chunks ++ [js_slice items i (i + size)])
    end
  else Some chunks.

Definition chunkArray {T} (fuel : nat) (items : list T) (size : Z)
    : option (list (list T)) :=
  chunk_loop fuel items size 0 [].

End Chunk.

(** ** lib/db-utils.ts: [sequentialProcess], with its handler observed *)
Module Sequential.

(** A handler that also writes down each of its calls: the state is
    the list of the calls made so far, with the handler's own state. *)
Definition logged {T St} (handler : T → nat → St → result unit Js.thrown * St)
    (item : T) (index : nat) (w : list (T * nat) * St)
    : result unit Js.thrown * (list (T * nat) * St) :=
  ((handler item index w.2).1, (w.1 ++ [(item, index)], (handler item index w.2).2)).

End Sequential.

(** ** lib/kore.ts: requests, fleets *)
Module KoreClient.
Import Kore.
Local Open Scope string_scope.
Local Open Scope list_scope.

(** The cache has a token for the key that is still good for more than
    10 s at [now]: the condition of [getAccessToken]'s first [if]. *)
Definition cached_token (st : TokenState) (key : string) (now : Z) : option string :=
  match tokenCache st !! key with
  | Some entry => if (expiresAt entry >? now + 10000)%Z then Some (token entry) else None
  | None => None
  end.

(** The URL [koreFetch] requests for [path]. *)
Definition kore_url (base path : string) : string :=
  if String.prefix "http" path then path
  else (base ++ (if String.prefix "/" path then path else "/" ++ path))%string.

(** A request to a data endpoint: the URL, the method, the bearer token
    and the body. *)
Record Request : Type := mkRequest {
  url : string;
  method : string;
  bearer : string;
  body : option string;
}.

(** What [fetchWithTimeout] resolves to at a data endpoint; [detail]
    is what [safeJson] gives, [json] what [response.json()] gives. *)
Record DataResponse (T : Type) : Type := mkData {
  data_ok : bool;
  data_status : Z;
  data_detail : string;
  data_json : result T Js.thrown;
}.
Arguments mkData {T}.
Arguments data_ok {T}.
Arguments data_status {T}.
Arguments data_detail {T}.
Arguments data_json {T}.

(** The token cache and the requests sent to data endpoints so far. *)
Record ClientState : Type := mkClient {
  tokens : TokenState;
  requests : list Request;
}.

Section KoreFetch.
Context {T : Type}.
(** [base]: [baseUrl()].
    [token_endpoint], [jitter], [describe]: as for [getAccessToken].
    [data_endpoint before request]: how the fetch of [request] ends when
    [before] are the data requests sent so far. *)
Variable base : string.
Variable token_endpoint : nat → result TokenResponse Js.thrown.
Variable jitter : Z → Z.
Variable describe : KoreAccountSecret → TokenResponse → string.
Variable data_endpoint : list Request → Request → result (DataResponse T) Js.thrown.
(** [describe_failure]: the message of the [KoreHttpError] for a
    response, made of its status and of [JSON.stringify(detail)]. *)
Variable describe_failure : DataResponse T → string.

(** One invocation of the operation [koreFetch] gives to [withRetry]. *)
Definition fetch_data (request : Request) (before : list Request)
    : result (DataResponse T) Js.thrown * list Request :=
  (data_endpoint before request, before ++ [request]).

Definition request_failed (response : DataResponse T) : Js.thrown :=
  Js.KoreHttpError (data_status response) (describe_failure response).

(** [koreFetch(account, path, init)]; [now] and [later] are the clock
    readings of [getAccessToken]. *)
Definition koreFetch (account : KoreAccountSecret) (path method' : string)
    (body' : option string) (now later : Z) (st : ClientState)
    : result T Js.thrown * ClientState :=
  match getAccessToken token_endpoint jitter describe account now later (tokens st) with
  | (Throw err, tokens') => (Throw err, mkClient tokens' (requests st))
  | (Ok token, tokens') =>
      let request := mkRequest (kore_url base path) method' token body' in
      let attempt :=
        Retry.withRetry (fetch_data request) jitter Retry.default_retries
          Retry.default_baseDelayMs (requests st) in
      let st' := mkClient tokens' (Retry.final attempt) in
      match Retry.outcome attempt with
      | Throw err => (Throw err, st')
      | Ok response =>
          if negb (data_ok response) then (Throw (request_failed response), st')
          else (data_json response, st')
      end
  end.
End KoreFetch.

(** *** Fleets *)

Record KoreFleet : Type := mkFleet {
  fleet_sid : string;
  fleet_uniqueName : option string;
  fleet_friendlyName : string;
}.

(** An element of a fleet listing: the fields [normalizeFleet] reads. *)
Module RawFleet.
Record t : Type := mk {
  sid : Js.value;
  id : Js.value;
  unique_name : Js.value;
  uniqueName : Js.value;
  friendly_name : Js.value;
  friendlyName : Js.value;
}.
End RawFleet.

(** [FleetListResponse] *)
Module FleetList.
Record t : Type := mk {
  fleets : option (list RawFleet.t);
  data : option (list RawFleet.t);
  meta : option Meta.t;
}.
End FleetList.

Definition normalizeFleet (input : RawFleet.t) : KoreFleet :=
  let sid :=
    Js.to_string
      (Js.coalesce (Js.coalesce (RawFleet.sid input) (RawFleet.id input)) (Js.Str "")) in
  let uniqueNameRaw :=
    Js.coalesce (Js.coalesce (RawFleet.unique_name input) (RawFleet.uniqueName input))
      Js.Null in
  let friendlyRaw :=
    Js.coalesce
      (Js.coalesce
         (Js.coalesce (RawFleet.friendly_name input) (RawFleet.friendlyName input))
         uniqueNameRaw)
      (Js.Str sid) in
  mkFleet sid (Js.string_if_truthy uniqueNameRaw) (Js.to_string friendlyRaw).

Definition first_fleets_path : string := "/Fleets?PageSize=500".

Section ListFleets.
Variable base : string.
Variable koreFetch : list string → string → result FleetList.t Js.thrown.

(** [for (const item of items)]: the fleets pushed. *)
Definition push_fleets (items : list RawFleet.t) (fleets : list KoreFleet)
    : list KoreFleet :=
  foldl (λ fleets item,
           let fleet := normalizeFleet item in
           if Js.truthy (Some (fleet_sid fleet)) then fleets ++ [fleet] else fleets)
        fleets items.

Definition next_fleets_path (data : FleetList.t) : option string :=
  let nextUrl :=
    (FleetList.meta data ≫= Meta.next_page_url)
    ?? (FleetList.meta data ≫= Meta.nextPageUrl) in
  if Js.truthy nextUrl then stripBase base <$> nextUrl else None.

(** [while (nextPath)]; a page costs one unit of [fuel].  [None] when
    the loop has not ended within the fuel. *)
Fixpoint fleet_pages (fuel : nat) (nextPath : option string)
    (fleets : list KoreFleet) (before : list string)
    : option (result (list KoreFleet) Js.thrown) * list string :=
  if Js.truthy nextPath then
    match fuel, nextPath with
    | S fuel', Some path =>
        match koreFetch before path with
        | Throw err => (Some (Throw err), before ++ [path])
        | Ok data =>
            let items := default [] (FleetList.fleets data ?? FleetList.data data) in
            fleet_pages fuel' (next_fleets_path data) (push_fleets items fleets)
              (before ++ [path])
        end
    | _, _ => (None, before)
    end
  else (Some (Ok fleets), before).

Definition listFleetsFromKore (fuel : nat) (before : list string)
    : option (result (list KoreFleet) Js.thrown) * list string :=
  fleet_pages fuel (Some first_fleets_path) [] before.
End ListFleets.

(** *** Concrete endpoints *)

(** Every data request is answered 503. *)
Definition unavailable {T} (before : list Request) (request : Request)
    : result (DataResponse T) Js.thrown :=
  Ok (mkData false 503 "{}" (Throw Js.NotAnError)).

(** Every token request is answered with a token good for an hour. *)
Definition token_up (n : nat) : result TokenResponse Js.thrown := Ok token_200.

(** Every request for fleets is answered with the same page, whose
    next link is the first path again. *)
Definition looping_fleets (before : list string) (path : string)
    : result FleetList.t Js.thrown :=
  Ok (FleetList.mk
        (Some [RawFleet.mk (Js.Str "HF1") Js.Undefined Js.Undefined Js.Undefined
                 (Js.Str "North") Js.Undefined]) None
        (Some (Meta.mk (Some "https://api.example/v1/Fleets?PageSize=500") None))).

End KoreClient.

(** ** lib/kore.ts: what a listed device looks like *)
Module ListingShape.
Import Kore.
Local Open Scope string_scope.

(** A device as [listSimsFromKore] pushes it for the fleet [fleetSid']:
    it has an external id, it carries the fleet asked for, and it is
    what [normalizeSim] makes of an element of a page that the provider
    answered with, under that fleet. *)
Definition listed_under (koreFetch : list string → string → result SimList.t Js.thrown)
    (fleetSid' : string) (sim : KoreSim) : Prop :=
  sid sim ≠ ""
  ∧ fleetSid sim = fleetSid'
  ∧ ∃ before path data item,
      koreFetch before path = Ok data
      ∧ item ∈ default [] (SimList.sims data ?? SimList.data data)
      ∧ sim = with_fleetSid fleetSid' (normalizeSim item).

(** A fleet as [listFleetsFromKore] pushes it. *)
Definition fleet_listed (fleet : KoreClient.KoreFleet) : Prop :=
  KoreClient.fleet_sid fleet ≠ "".

End ListingShape.

(** ** The command dispatch route: what its effects answer to *)
Module DispatchAudit.
Import Dispatch.
Local Open Scope string_scope.
Local Open Scope list_scope.

(** A grant that covers a device: it is on the device's account, it is
    account-wide or on the device's fleet, and it carries the
    permission asked for. *)
Definition covers (requiresWrite : bool) (sim : Sim.t) (scope : Auth.Scope) : Prop :=
  Auth.accountId scope = Sim.accountId sim
  ∧ (Auth.fleetId scope = None ∨ Auth.fleetId scope = Some (Sim.fleetId sim))
  ∧ (if requiresWrite then Auth.canWrite scope else Auth.canRead scope) = true.

Definition authorised (context : Auth.AuthContext) (requiresWrite : bool)
    (sim : Sim.t) : Prop :=
  Auth.isOwner context = true
  ∨ ∃ scope, scope ∈ Auth.scopes context ∧ covers requiresWrite sim scope.

(** A provider call made for the device [sim] of [account]: both are
    rows of the database, the device belongs to the account, and the
    call carries the device's provider id and the account's
    credentials, the secret being the stored one, decrypted. *)
Definition made_for (decipher : string → string → string → result string Js.thrown)
    (db : Db) (request : Send.t) (account : Account.t) (sim : Sim.t) : Prop :=
  account ∈ accounts db
  ∧ sim ∈ sims db
  ∧ Sim.accountId sim = Account.id account
  ∧ Send.simSid request = Sim.simSid sim
  ∧ Send.label request = Account.label account
  ∧ Send.clientId request = Account.clientId account
  ∧ Crypto.decryptSecret decipher (Account.clientSecretEncrypted account)
    = Ok (Send.clientSecret request).

(** [commandToSend] (and [payloadText], which is the same). *)
Definition commandToSend (trim : string → string) (command : string)
    (text : option string) : string :=
  if bool_decide (command = "custom") then trim (default "" text) else command.

(** Entries that record a provider call carry [sentAt]. *)
Definition attempted (e : Entry.t) : bool :=
  match Entry.sentAt e with Some _ => true | None => false end.

Definition queued (e : Entry.t) : bool := bool_decide (Entry.status e = "queued").

(** What an entry and a row of the command log say about a command. *)
Definition logged_as (e : Entry.t) : string * string * string * string :=
  (Entry.accountId e, Entry.simId e, default "" (Entry.command e),
   default "" (Entry.payload e)).

Definition row_of (row : CommandLog.t) : string * string * string * string :=
  (CommandLog.accountId row, CommandLog.simId row, CommandLog.command row,
   CommandLog.payload row).

Definition request_ok (trim : string → string)
    (decipher : string → string → string → result string Js.thrown)
    (db : Db) (context : Auth.AuthContext) (command : string) (text : option string)
    (requiresWrite : bool) (request : Send.t) : Prop :=
  Send.command request = commandToSend trim command text
  ∧ Send.command request ≠ ""
  ∧ Send.text request = Some (Send.command request)
  ∧ ∃ account sim, made_for decipher db request account sim
                   ∧ authorised context requiresWrite sim.

Definition entry_ok (db : Db) (context : Auth.AuthContext) (requiresWrite : bool)
    (e : Entry.t) : Prop :=
  (Entry.status e = "forbidden" →
   attempted e = false
   ∧ ∃ sim, sim ∈ sims db ∧ Sim.id sim = Entry.simId e
            ∧ Sim.accountId sim = Entry.accountId e
            ∧ ¬ authorised context requiresWrite sim)
  ∧ (attempted e = true → Entry.status e = "queued" ∨ Entry.status e = "error").

(** The entries [es] account for what happened between [w] and [w']:
    one provider call for each entry that carries [sentAt], one row of
    the command log for each queued entry, one sleep for each provider
    call when a delay is set. *)
Definition accounted (P : Send.t → Prop) (Q : Entry.t → Prop) (delay : Z)
    (es : list Entry.t) (w w' : World) : Prop :=
  ∃ added rows,
    sent w' = sent w ++ added
    ∧ commandLog w' = commandLog w ++ rows
    ∧ slept w' = slept w ++ (if (delay =? 0)%Z then []
                             else replicate (List.length added) delay)
    ∧ map Send.simSid added = map Entry.simSid (List.filter attempted es)
    ∧ map row_of rows = map logged_as (List.filter queued es)
    ∧ Forall P added
    ∧ Forall Q es.

(** A caller whose one grant is read-only, on fleet f1 of account A1,
    and a body that sends a text of the caller's own. *)
Definition reader : Auth.AuthContext := agent_with [read_only_fleet_scope].
Definition custom_body (text : string) (targets : list Target.t) : Body.t :=
  Body.mk "custom" (Some text) targets None.

End DispatchAudit.

(** ** The device sync route: from the request to the loop *)
Module DeviceSyncRequest.
Import DeviceSync.
Local Open Scope string_scope.
Local Open Scope list_scope.

(** [BodySchema]. *)
Module Body.
Record t : Type := mk {
  accountIds : option (list string);
  fleetIds : option (list string);
}.
End Body.

(** How the route answers: a 422 or a 403 with its message, the
    summary with [ok: true], or [handleApiError]. *)
Inductive Response : Type :=
| Rejected (status : Z) (error : string)
| Synced (summary : list Summary.t)
| ApiError (e : Js.thrown).

Definition BodySchema_ok (body : Body.t) : bool :=
  forallb Dispatch.string_min1 (default [] (Body.accountIds body))
  && forallb Dispatch.string_min1 (default [] (Body.fleetIds body)).

(** [new Set(xs)], as the list of its elements in insertion order. *)
Definition set_of (xs : list string) : list string :=
  foldl (λ seen x, if Js.includes seen x then seen else seen ++ [x]) [] xs.

(** [accountIds], or the message of the 403.  [all] are the ids that
    [prisma.account.findMany({ select: { id: true } })] returns. *)
Definition accountIds_of (context : Auth.AuthContext)
    (accountFilter : option (list string)) (all : list string)
    : result (list string) string :=
  if Auth.isOwner context then
    if Js.has_length accountFilter then Ok (default [] accountFilter) else Ok all
  else
    let readableScopes := filter (λ scope, Auth.canRead scope = true) (Auth.scopes context) in
    let allowedAccountIds := set_of (map Auth.accountId readableScopes) in
    match allowedAccountIds with
    | [] => Throw "No access granted"
    | _ :: _ =>
        let accountIds :=
          if Js.has_length accountFilter
          then filter (λ id, Js.includes allowedAccountIds id = true)
                 (default [] accountFilter)
          else allowedAccountIds in
        match accountIds with
        | [] => Throw "No permitted accounts in request"
        | _ :: _ => Ok accountIds
        end
    end.

Section Handler.
Variable decipher : string → string → string → result string Js.thrown.
Variable listSims :
  list (Kore.KoreAccountSecret * string) → Kore.KoreAccountSecret → string →
  result (list Kore.KoreSim) Js.thrown.
Variable upsert : list Upsert.t → Upsert.t → result unit Js.thrown.
Variable jitter : Z → Z.

(** [POST], from the parsed JSON body on, on the [account] table [db]
    (each row with its fleets). *)
Definition POST (context : Auth.AuthContext) (body : Body.t) (db : list Account.t)
    : Response * World :=
  if negb (BodySchema_ok body) then (Rejected 422 "Invalid request body", world0)
  else
    match accountIds_of context (Body.accountIds body) (map Account.id db) with
    | Throw error => (Rejected 403 error, world0)
    | Ok accountIds =>
        let accounts :=
          filter (λ account, Js.includes accountIds (Account.id account) = true) db in
        match sync_accounts decipher listSims upsert jitter context (Body.fleetIds body)
                accounts with
        | (Ok summary, w) => (Synced summary, w)
        | (Throw error, w) => (ApiError error, w)
        end
    end.

End Handler.

(** The arguments of the upsert of one listed device. *)
Definition upsert_of (account : Account.t) (fleet : Fleet.t) (sim : Kore.KoreSim)
    : Upsert.t :=
  Upsert.mk (Kore.sid sim) (Kore.iccid sim) (Kore.uniqueName sim) (Kore.status sim)
    (Kore.keep_truthy (Kore.lastSeenAt sim)) (Account.id account) (Fleet.id fleet).

(** The credentials a listing of [account] carries. *)
Definition credentials_of (account : Account.t) (secret : string)
    : Kore.KoreAccountSecret :=
  Kore.mkSecret (Account.label account) (Account.clientId account) secret
    (Account.oauthScope account) (Account.oauthAudience account).

(** The request names the fleet, as far as it names anything. *)
Definition requested (body : Body.t) (account : Account.t) (fleet : Fleet.t) : Prop :=
  (Js.has_length (Body.accountIds body) = true →
   Account.id account ∈ default [] (Body.accountIds body))
  ∧ (Js.has_length (Body.fleetIds body) = true →
     Fleet.id fleet ∈ default [] (Body.fleetIds body)).

(** The caller may read the fleet: an owner, or the holder of a grant
    on the account that carries read and is account-wide or on the
    fleet. *)
Definition readable (context : Auth.AuthContext) (account : Account.t)
    (fleet : Fleet.t) : Prop :=
  Auth.isOwner context = true
  ∨ ∃ scope, scope ∈ Auth.scopes context
             ∧ Auth.accountId scope = Account.id account
             ∧ Auth.canRead scope = true
             ∧ (Auth.fleetId scope = None ∨ Auth.fleetId scope = Some (Fleet.id fleet)).

(** A listing asked of the provider for a fleet that satisfies [ok]. *)
Definition listing_for (decipher : string → string → string → result string Js.thrown)
    (ok : Account.t → Fleet.t → Prop)
    (listing : Kore.KoreAccountSecret * string) : Prop :=
  ∃ account fleet secret,
    ok account fleet
    ∧ Crypto.decryptSecret decipher (Account.clientSecretEncrypted account) = Ok secret
    ∧ listing = (credentials_of account secret, Fleet.externalRef fleet).

(** An upsert into a fleet that satisfies [ok]. *)
Definition upsert_into (ok : Account.t → Fleet.t → Prop) (upsert : Upsert.t) : Prop :=
  ∃ account fleet,
    ok account fleet
    ∧ Upsert.accountId upsert = Account.id account
    ∧ Upsert.fleetId upsert = Fleet.id fleet.

(** Every listing and every upsert so far was for a fleet that
    satisfies [ok]. *)
Definition touches_only (decipher : string → string → string → result string Js.thrown)
    (ok : Account.t → Fleet.t → Prop) (w : World) : Prop :=
  Forall (listing_for decipher ok) (listings w) ∧ Forall (upsert_into ok) (upserts w).

(** A caller who may read fleet f2 of account A and nothing else. *)
Definition fleet_reader : Auth.AuthContext :=
  Auth.mkContext "u2" Auth.agent
    [Auth.mkScope "3" "A" "Alpha" (Some "f2") (Some "Fleet 2") true false false].

(** A provider whose every listing fails with a 500. *)
Definition listing_down (before : list (Kore.KoreAccountSecret * string))
    (account : Kore.KoreAccountSecret) (fleetSid : string)
    : result (list Kore.KoreSim) Js.thrown :=
  Throw (Js.KoreHttpError 500 "KORE API request failed (500)").

(** A provider with one device in every fleet, on the first path asked. *)
Definition one_device (before : list string) (path : string)
    : result Kore.SimList.t Js.thrown :=
  Ok (Kore.one_page [Kore.raw_device "HS7" "8907"] None).

(** A provider that answers 404 to every request: the fleet is gone. *)
Definition fleet_gone (before : list string) (path : string)
    : result Kore.SimList.t Js.thrown :=
  Throw (Js.KoreHttpError 404 "KORE API request failed (404): {}").

(** The listing the route asks for, made by [listSimsFromKore] over the
    provider [koreFetch], for a provider whose listings end within
    [fuel] pages. *)
Definition listing_through (base : string) (encodeURIComponent : string → string)
    (koreFetch : list string → string → result Kore.SimList.t Js.thrown) (fuel : nat)
    (before : list (Kore.KoreAccountSecret * string))
    (account : Kore.KoreAccountSecret) (fleetSid : string)
    : result (list Kore.KoreSim) Js.thrown :=
  default (Throw Js.NotAnError)
    (Kore.listSimsFromKore base encodeURIComponent koreFetch fleetSid fuel []).1.

End DeviceSyncRequest.

(** ** lib/kore.ts: the log of a device's commands; the logs route *)
Module SmsLogs.
Import Kore KoreClient.
Local Open Scope string_scope.
Local Open Scope list_scope.

(** The second argument of [listSmsLogs]. *)
Module Params.
Record t : Type := mk {
  simSid : string;
  createdAfter : option string;
  pageSize : option Z;
  nextPageUrl : option string;
}.
End Params.

(** An element of a command listing: the fields [listSmsLogs] reads. *)
Module RawCommand.
Record t : Type := mk {
  sid : Js.value;
  id : Js.value;
  status : Js.value;
  payload : Js.value;
  command : Js.value;
  Command : Js.value;
  sim_sid : Js.value;
  simSid : Js.value;
  date_created : Js.value;
  created_at : Js.value;
}.
End RawCommand.

(** [CommandListResponse] *)
Module CommandList.
Record t : Type := mk {
  sms_commands : option (list RawCommand.t);
  data : option (list RawCommand.t);
  meta : option Meta.t;
}.
End CommandList.

Record KoreCommandResult : Type := mkCommand {
  command_sid : string;
  command_status : string;
  command_payload : string;
  command_command : string;
  command_simSid : string;
  command_createdAt : string;
}.

Section ListSmsLogs.
(** [base], [token_endpoint], [jitter], [describe], [data_endpoint],
    [describe_failure]: as for [koreFetch].
    [show_number]: a number in a template string.
    [clock]: [new Date().toISOString()]. *)
Variable base : string.
Variable token_endpoint : nat → result TokenResponse Js.thrown.
Variable jitter : Z → Z.
Variable describe : KoreAccountSecret → TokenResponse → string.
Variable data_endpoint :
  list Request → Request → result (DataResponse CommandList.t) Js.thrown.
Variable describe_failure : DataResponse CommandList.t → string.
Variable encodeURIComponent : string → string.
Variable show_number : Z → string.
Variable clock : string.

Definition logs_path (params : Params.t) : string :=
  if Js.truthy (Params.nextPageUrl params) then default "" (Params.nextPageUrl params)
  else
    "/SmsCommands?Sim=" ++ encodeURIComponent (Params.simSid params)
    ++ "&PageSize=" ++ show_number (default 50%Z (Params.pageSize params))
    ++ (if Js.truthy (Params.createdAfter params)
        then "&CreatedAfter="
             ++ encodeURIComponent (default "" (Params.createdAfter params))
        else "").

Definition normalizeCommand (item : RawCommand.t) : KoreCommandResult :=
  mkCommand
    (Js.to_string
       (Js.coalesce (Js.coalesce (RawCommand.sid item) (RawCommand.id item)) (Js.Str "")))
    (Js.to_string (Js.coalesce (RawCommand.status item) (Js.Str "unknown")))
    (Js.to_string (Js.coalesce (RawCommand.payload item) (Js.Str "")))
    (Js.to_string
       (Js.coalesce (Js.coalesce (RawCommand.command item) (RawCommand.Command item))
          (Js.Str "")))
    (Js.to_string
       (Js.coalesce (Js.coalesce (RawCommand.sim_sid item) (RawCommand.simSid item))
          (Js.Str "")))
    (Js.to_string
       (Js.coalesce
          (Js.coalesce (RawCommand.date_created item) (RawCommand.created_at item))
          (Js.Str clock))).

(** [listSmsLogs(account, params)]: the commands and [nextPageUrl]. *)
Definition listSmsLogs (account : KoreAccountSecret) (params : Params.t)
    (now later : Z) (st : ClientState)
    : result (list KoreCommandResult * option string) Js.thrown * ClientState :=
  match koreFetch base token_endpoint jitter describe data_endpoint describe_failure
          account (logs_path params) "GET" None now later st with
  | (Throw err, st') => (Throw err, st')
  | (Ok data, st') =>
      let items := default [] (CommandList.sms_commands data ?? CommandList.data data) in
      let nextUrl :=
        (CommandList.meta data ≫= Meta.next_page_url)
        ?? (CommandList.meta data ≫= Meta.nextPageUrl) in
      (Ok (map normalizeCommand items,
           if Js.truthy nextUrl then stripBase base <$> nextUrl else None), st')
  end.

(** *** The logs route ([GET] of a device's logs) *)

Inductive Response : Type :=
| Rejected (status : Z) (error : string)
| Logs (commands : list KoreCommandResult) (nextCursor : option string)
| ApiError (e : Js.thrown).

(** The callback of [context.scopes.some(...)]. *)
Definition allowed (context : Auth.AuthContext) (accountId : string)
    (sim : Dispatch.Sim.t) : bool :=
  existsb (λ scope,
    if negb (bool_decide (Auth.accountId scope = accountId)) then false
    else (bool_decide (Auth.fleetId scope = None)
          || bool_decide (Auth.fleetId scope = Some (Dispatch.Sim.fleetId sim)))
         && Auth.canRead scope) (Auth.scopes context).

Variable decipher : string → string → string → result string Js.thrown.

(** [GET], for the caller [context]; [found] is what
    [prisma.sim.findUnique] returned for the device of the URL, with
    its account; [accountId], [cursor] and [createdAfter] are the
    query parameters. *)
Definition GET (context : Auth.AuthContext)
    (found : option (Dispatch.Sim.t * Dispatch.Account.t))
    (accountId cursor createdAfter : option string)
    (now later : Z) (st : ClientState) : Response * ClientState :=
  if negb (Js.truthy accountId) then (Rejected 400 "accountId is required", st)
  else
    match found with
    | None => (Rejected 404 "SIM not found", st)
    | Some (sim, account) =>
        if negb (bool_decide (Some (Dispatch.Sim.accountId sim) = accountId)) then
          (Rejected 404 "SIM not found", st)
        else if negb (Auth.isOwner context)
                && negb (allowed context (default "" accountId) sim) then
          (Rejected 403 "Read scope missing", st)
        else
          match Crypto.decryptSecret decipher
                  (Dispatch.Account.clientSecretEncrypted account) with
          | Throw err => (ApiError err, st)
          | Ok accountSecret =>
              match listSmsLogs
                      (mkSecret (Dispatch.Account.label account)
                         (Dispatch.Account.clientId account) accountSecret
                         (Dispatch.Account.oauthScope account)
                         (Dispatch.Account.oauthAudience account))
                      (Params.mk (Dispatch.Sim.simSid sim) createdAfter (Some 50%Z) cursor)
                      now later st with
              | (Ok (commands, nextPageUrl), st') => (Logs commands nextPageUrl, st')
              | (Throw err, st') => (ApiError err, st')
              end
          end
    end.

End ListSmsLogs.

(** Every data request is answered with an empty listing. *)
Definition no_commands (before : list Request) (request : Request)
    : result (DataResponse CommandList.t) Js.thrown :=
  Ok (mkData true 200 "{}" (Ok (CommandList.mk None None None))).

End SmsLogs.

(** ** The devices route ([GET] of the sims endpoint): its filter *)
Module SimsQuery.
Local Open Scope string_scope.
Local Open Scope list_scope.

(** [whereClause]: each restriction is there or not. *)
Record Where : Type := mkWhere {
  accountId_in : option (list string);
  fleetId_in : option (list string);
}.

(** The rows [prisma.sim.findMany({ where })] selects. *)
Definition matches (where' : Where) (sim : Dispatch.Sim.t) : bool :=
  match accountId_in where' with
  | None => true
  | Some ids => Js.includes ids (Dispatch.Sim.accountId sim)
  end
  && match fleetId_in where' with
     | None => true
     | Some ids => Js.includes ids (Dispatch.Sim.fleetId sim)
     end.

Definition readable (context : Auth.AuthContext) : list Auth.Scope :=
  filter (λ scope, Auth.canRead scope = true) (Auth.scopes context).

(** [fleetIds] and [accountIds]: the two sets of the non-owner branch,
    in insertion order. *)
Definition fleetIds (context : Auth.AuthContext) : list string :=
  DeviceSyncRequest.set_of
    (map (λ scope, default "" (Auth.fleetId scope))
       (filter (λ scope, Js.truthy (Auth.fleetId scope) = true) (readable context))).

Definition accountIds (context : Auth.AuthContext) : list string :=
  DeviceSyncRequest.set_of (map Auth.accountId (readable context)).

Definition has_length (xs : list string) : bool :=
  match xs with [] => false | _ :: _ => true end.

(** The filter the route queries with, or [None] when it answers with
    no devices without querying. *)
Definition whereClause (context : Auth.AuthContext)
    (accountFilters fleetFilters : list string) : option Where :=
  if Auth.isOwner context then
    Some (mkWhere (if has_length accountFilters then Some accountFilters else None)
            (if has_length fleetFilters then Some fleetFilters else None))
  else
    match readable context with
    | [] => None
    | _ :: _ =>
        let allowedFleetIds :=
          if has_length fleetFilters
          then filter (λ fleetId, Js.includes (fleetIds context) fleetId = true) fleetFilters
          else fleetIds context in
        let allowedAccountIds :=
          if has_length accountFilters
          then filter (λ accountId, Js.includes (accountIds context) accountId = true)
                 accountFilters
          else accountIds context in
        Some (mkWhere (Some allowedAccountIds)
                (if has_length allowedFleetIds then Some allowedFleetIds else None))
    end.

(** The device is among those the route returns. *)
Definition selected (context : Auth.AuthContext)
    (accountFilters fleetFilters : list string) (sim : Dispatch.Sim.t) : bool :=
  match whereClause context accountFilters fleetFilters with
  | None => false
  | Some where' => matches where' sim
  end.

(** The caller holds a read grant on the account. *)
Definition reads_account (context : Auth.AuthContext) (accountId : string) : Prop :=
  ∃ scope, scope ∈ Auth.scopes context
           ∧ Auth.canRead scope = true ∧ Auth.accountId scope = accountId.

(** The caller holds a read grant on the fleet itself. *)
Definition reads_fleet (context : Auth.AuthContext) (fleetId : string) : Prop :=
  fleetId ≠ ""
  ∧ ∃ scope, scope ∈ Auth.scopes context
             ∧ Auth.canRead scope = true ∧ Auth.fleetId scope = Some fleetId.

(** A device of account A1 in a fleet the reader holds no grant for. *)
Definition sim_other_fleet : Dispatch.Sim.t :=
  Dispatch.Sim.mk "s9" "A1" "f9" "HS9" "8900000000000000009" None.

End SimsQuery.

(** ** lib/auth/scopes.ts: the invite helper and the assertions *)
Module AuthAssert.
Import Auth.
Local Open Scope string_scope.

Definition hasInviteAccess (scopes : list Scope) (accountId' : string)
    (fleetId' : option string) : bool :=
  existsb (λ scope,
    if negb (bool_decide (accountId scope = accountId')) then false
    else if Js.truthy fleetId' then
      bool_decide (fleetId scope = fleetId') && canInvite scope
    else if bool_decide (fleetId scope = None) then canInvite scope
    else canInvite scope) scopes.

(** The end of the three messages: the account, and the fleet when
    one is given. *)
Definition missing_for (accountId' : string) (fleetId' : option string) : string :=
  " scope missing for account " ++ accountId'
  ++ (if Js.truthy fleetId' then " / fleet " ++ default "" fleetId' else "").

Definition assertReadable (scopes : list Scope) (accountId' : string)
    (fleetId' : option string) : result unit Js.thrown :=
  if negb (hasReadAccess scopes accountId' fleetId')
  then Throw (Js.ErrorMsg ("Read" ++ missing_for accountId' fleetId'))
  else Ok tt.

Definition assertWritable (scopes : list Scope) (accountId' : string)
    (fleetId' : option string) : result unit Js.thrown :=
  if negb (hasWriteAccess scopes accountId' fleetId')
  then Throw (Js.ErrorMsg ("Write" ++ missing_for accountId' fleetId'))
  else Ok tt.

Definition assertInvitable (scopes : list Scope) (accountId' : string)
    (fleetId' : option string) : result unit Js.thrown :=
  if negb (hasInviteAccess scopes accountId' fleetId')
  then Throw (Js.ErrorMsg ("Invite" ++ missing_for accountId' fleetId'))
  else Ok tt.

(** Some scope on the account carries the permission [flag], and is
    on the fleet when one is asked about. *)
Definition granted_by (flag : Scope → bool) (scopes : list Scope)
    (accountId' : string) (fleetId' : option string) : Prop :=
  ∃ scope, scope ∈ scopes
           ∧ accountId scope = accountId'
           ∧ flag scope = true
           ∧ (Js.truthy fleetId' = true → fleetId scope = fleetId').

End AuthAssert.

(** * Part II: its properties *)

(** ** Retry and backoff *)
Module RetryFacts.
Import Retry.
Local Open Scope Z_scope.

Section WithRetryFacts.
Context {T E W : Type}.
Variable fn : W → result T E * W.
Variable jitter : Z → Z.

(** With the budget the entry point gives it, the recursion is the
    source's loop: one invocation, then either the value, or the error
    when [attempt > retries], or a sleep and the next iteration. *)
Lemma withRetry_loop_unfold retries base attempt w n slept :
  0 ≤ attempt →
  withRetry_loop fn jitter retries base (Z.to_nat (retries - attempt)) attempt w n slept =
  match fn w with
  | (Ok v, w') => mkRun (Ok v) w' (S n) slept
  | (Throw error, w') =>
      if attempt + 1 >? retries then mkRun (Throw error) w' (S n) slept
      else withRetry_loop fn jitter retries base
             (Z.to_nat (retries - (attempt + 1))) (attempt + 1) w' (S n)
             (slept ++ [base * 2 ^ (attempt + 1 - 1) + jitter (attempt + 1)])
  end.
Proof.
  intros Hatt.
  destruct (Z.to_nat (retries - attempt)) as [|b] eqn:Hb; simpl;
    destruct (fn w) as [[v|e] w']; try reflexivity;
    destruct (attempt + 1 >? retries) eqn:Hgt; try reflexivity.
  - rewrite Z.gtb_ltb in Hgt. apply Z.ltb_ge in Hgt. lia.
  - replace (Z.to_nat (retries - (attempt + 1))) with b by lia. reflexivity.
Qed.

(** An operation that succeeds at once is invoked once. *)
Lemma withRetry_first_success retries base w v w' :
  fn w = (Ok v, w') →
  withRetry fn jitter retries base w = mkRun (Ok v) w' 1 [].
Proof.
  intros Hfn. unfold withRetry.
  destruct (Z.to_nat retries); simpl; rewrite Hfn; reflexivity.
Qed.

(** An operation that fails from every state: the loop makes
    [budget + 1] invocations when the budget is what is left of
    [retries], and ends with the error of the last of them. *)
Lemma withRetry_loop_always_fails retries base :
  (∀ w, ∃ e, (fn w).1 = Throw e) →
  ∀ budget attempt w n slept,
    attempt + Z.of_nat budget = retries →
    let r := withRetry_loop fn jitter retries base budget attempt w n slept in
    calls r = (n + S budget)%nat
    ∧ final r = after fn (S budget) w
    ∧ outcome r = (fn (after fn budget w)).1.
Proof.
  intros Hfail budget.
  induction budget as [|b IH]; intros attempt w n slept Hsum; simpl.
  - destruct (Hfail w) as [e He]. destruct (fn w) as [[v|e'] w'] eqn:Hf;
      simpl in *; [discriminate|].
    destruct (attempt + 1 >? retries); simpl; repeat split; lia.
  - destruct (Hfail w) as [e He]. destruct (fn w) as [[v|e'] w'] eqn:Hf;
      simpl in *; [discriminate|].
    destruct (attempt + 1 >? retries) eqn:Hgt.
    + rewrite Z.gtb_ltb in Hgt. apply Z.ltb_lt in Hgt. lia.
    + specialize (IH (attempt + 1) w' (S n)
        (slept ++ [base * 2 ^ (attempt + 1 - 1) + jitter (attempt + 1)])).
      simpl in IH. destruct IH as (Hc & Hf' & Ho); [lia|].
      rewrite Hc, Hf', Ho. repeat split; lia.
Qed.

(** C6. With [retries = 3], an operation that fails on its first two
    invocations and succeeds on the third makes [withRetry] return the
    third invocation's value after exactly 3 invocations (and two
    sleeps, of [base + jitter] and [2 * base + jitter]); and for every
    [retries >= 0], an operation that fails on every invocation is
    invoked exactly [retries + 1] times, and [withRetry] re-throws what
    the last of these invocations threw. *)
Theorem withRetry_fails_twice_then_succeeds_and_exhaustion :
  (∀ base w0 w1 w2 w3 e1 e2 v,
      fn w0 = (Throw e1, w1) →
      fn w1 = (Throw e2, w2) →
      fn w2 = (Ok v, w3) →
      withRetry fn jitter 3 base w0
      = mkRun (Ok v) w3 3 [base * 1 + jitter 1; base * 2 + jitter 2])
  ∧ (∀ retries base w0,
      0 ≤ retries →
      (∀ w, ∃ e, (fn w).1 = Throw e) →
      let r := withRetry fn jitter retries base w0 in
      Z.of_nat (calls r) = retries + 1
      ∧ outcome r = (fn (after fn (Z.to_nat retries) w0)).1
      ∧ (∃ e, outcome r = Throw e)
      ∧ final r = after fn (Z.to_nat retries + 1) w0).
Proof.
  split.
  - intros base w0 w1 w2 w3 e1 e2 v H0 H1 H2. unfold withRetry.
    change (Z.to_nat 3) with 3%nat. simpl. rewrite H0. simpl.
    rewrite H1. simpl. rewrite H2. reflexivity.
  - intros retries base w0 Hge Hfail r.
    destruct (withRetry_loop_always_fails retries base Hfail
                (Z.to_nat retries) 0 w0 O []) as (Hc & Hf & Ho); [lia|].
    subst r. unfold withRetry. rewrite Hc, Hf, Ho.
    repeat split; [lia| |f_equal; lia].
    destruct (Hfail (after fn (Z.to_nat retries) w0)) as [e He]. eauto.
Qed.

End WithRetryFacts.

(** The property at concrete operations: a script that fails twice and
    then gives 42, and [failing_counter], whose fourth invocation
    throws 3. *)
Lemma withRetry_witness :
  withRetry (scripted (Throw "down"%string)) (λ _, 7) 3 500
    [Throw "e1"%string; Throw "e2"%string; Ok 42]
  = mkRun (Ok 42) [] 3 [507; 1007]
  ∧ (let r := withRetry failing_counter (λ _, 7) 3 500 O in
     Z.of_nat (calls r) = 3 + 1 ∧ outcome r = Throw 3%nat).
Proof.
  split.
  - apply (proj1 (withRetry_fails_twice_then_succeeds_and_exhaustion
             (scripted (Throw "down"%string)) (λ _, 7))
             500 _ [Throw "e2"%string; Ok 42] [Ok 42] [] "e1"%string "e2"%string 42);
      reflexivity.
  - destruct (proj2 (withRetry_fails_twice_then_succeeds_and_exhaustion
             failing_counter (λ _, 7)) 3 500 O)
      as (Hc & Ho & _); [lia | | split; [exact Hc | exact Ho]].
    intros w. exists w. reflexivity.
Defined.

End RetryFacts.

(** ** The rate limiter *)
Module RateLimitFacts.
Import RateLimit.
Local Open Scope Z_scope.

Lemma enforceRateLimit_new_window key limit windowMs now (store : Store) :
  no_active_window store key now →
  enforceRateLimit key limit windowMs now store
  = (Ok tt, <[key := mkBucket (limit - 1) (now + windowMs)]> store).
Proof.
  unfold no_active_window, enforceRateLimit.
  destruct (store !! key) as [b|]; [|reflexivity].
  intros H. apply Z.leb_le in H. rewrite H. reflexivity.
Qed.

Lemma enforceRateLimit_active key limit windowMs now (store : Store) b :
  store !! key = Some b →
  now < resetAt b →
  enforceRateLimit key limit windowMs now store
  = if tokens b <=? 0 then (Throw RateLimitExceeded, store)
    else (Ok tt, <[key := mkBucket (tokens b - 1) (resetAt b)]> store).
Proof.
  intros Hb Hlt. unfold enforceRateLimit. rewrite Hb.
  apply Z.leb_gt in Hlt. rewrite Hlt. reflexivity.
Qed.

(** C9. The call that starts a window never throws, whatever [limit]
    is (zero and negative limits included): it stores a bucket of
    [limit - 1] tokens and returns. *)
Theorem enforceRateLimit_first_call_never_throws
    key limit windowMs now (store : Store) :
  no_active_window store key now →
  (enforceRateLimit key limit windowMs now store).1 = Ok tt
  ∧ (enforceRateLimit key limit windowMs now store).2 !! key
    = Some (mkBucket (limit - 1) (now + windowMs)).
Proof.
  intros H. rewrite (enforceRateLimit_new_window _ _ _ _ _ H). simpl.
  split; [reflexivity | apply lookup_insert_eq].
Qed.

(** With [limit = 0], on an empty store and on a store whose window
    for the key has elapsed. *)
Lemma enforceRateLimit_first_call_witness :
  ((enforceRateLimit "k" 0 1000 5 ∅).1 = Ok tt
   ∧ (enforceRateLimit "k" 0 1000 5 ∅).2 !! "k"%string = Some (mkBucket (0 - 1) (5 + 1000)))
  ∧ ((enforceRateLimit "k" (-3) 1000 2000 {["k"%string := mkBucket 0 1500]}).1 = Ok tt
   ∧ (enforceRateLimit "k" (-3) 1000 2000 {["k"%string := mkBucket 0 1500]}).2 !! "k"%string
     = Some (mkBucket (-3 - 1) (2000 + 1000))).
Proof.
  split.
  - apply (enforceRateLimit_first_call_never_throws "k" 0 1000 5 ∅).
    exact I.
  - apply (enforceRateLimit_first_call_never_throws "k" (-3) 1000 2000
             {["k"%string := mkBucket 0 1500]}).
    unfold no_active_window. rewrite lookup_singleton_eq. simpl. lia.
Defined.

(** C7, as the specification words it, fails: in a window that a call
    with [limit = 0] started, the remaining tokens are [-1], not zero,
    and the next call of the window throws all the same. *)
Lemma enforceRateLimit_throws_when_tokens_negative :
  ¬ (∀ key limit windowMs now (store : Store) b,
       store !! key = Some b →
       now < resetAt b →
       ((enforceRateLimit key limit windowMs now store).1 = Throw RateLimitExceeded
        ↔ tokens b = 0)).
Proof.
  intros H.
  destruct (H "k"%string 0 1000 1 (enforceRateLimit "k" 0 1000 0 ∅).2
              (mkBucket (-1) 1000)) as [Hthrow _].
  - reflexivity.
  - simpl. lia.
  - specialize (Hthrow eq_refl). discriminate Hthrow.
Qed.

(** C7, amended.  For every key and every store with no active window
    for it at [t1]: with [limit = 2] and [windowMs = 1000], three calls
    at times before [t1 + 1000] succeed, succeed and throw (the throw
    leaves the store as it was), and a fourth call at or after
    [t1 + 1000] succeeds and starts the window [t4 .. t4 + 1000] with
    one token left.  In general a call with no active window starts one
    with [limit - 1] tokens and succeeds; a call in an active window
    throws if and only if the remaining tokens are at or below zero,
    which is exactly zero when they are not negative, and otherwise
    takes one token and keeps the window's end.  Calls with
    [limit >= 1] never make a token count negative. *)
Theorem enforceRateLimit_window_behaviour :
  (∀ key (s0 : Store) t1 t2 t3 t4,
      no_active_window s0 key t1 →
      t2 < t1 + 1000 → t3 < t1 + 1000 → t1 + 1000 ≤ t4 →
      let c1 := enforceRateLimit key 2 1000 t1 s0 in
      let c2 := enforceRateLimit key 2 1000 t2 c1.2 in
      let c3 := enforceRateLimit key 2 1000 t3 c2.2 in
      let c4 := enforceRateLimit key 2 1000 t4 c3.2 in
      c1.1 = Ok tt ∧ c2.1 = Ok tt
      ∧ c3.1 = Throw RateLimitExceeded ∧ c3.2 = c2.2
      ∧ c4.1 = Ok tt ∧ c4.2 !! key = Some (mkBucket 1 (t4 + 1000)))
  ∧ (∀ key limit windowMs now (store : Store),
      no_active_window store key now →
      enforceRateLimit key limit windowMs now store
      = (Ok tt, <[key := mkBucket (limit - 1) (now + windowMs)]> store))
  ∧ (∀ key limit windowMs now (store : Store) b,
      store !! key = Some b →
      now < resetAt b →
      let c := enforceRateLimit key limit windowMs now store in
      (c.1 = Throw RateLimitExceeded ↔ tokens b ≤ 0)
      ∧ (0 ≤ tokens b → (c.1 = Throw RateLimitExceeded ↔ tokens b = 0))
      ∧ (c.1 = Throw RateLimitExceeded → c.2 = store)
      ∧ (c.1 ≠ Throw RateLimitExceeded →
         c.1 = Ok tt
         ∧ c.2 = <[key := mkBucket (tokens b - 1) (resetAt b)]> store))
  ∧ (∀ key limit windowMs now (store : Store),
      1 ≤ limit →
      (∀ k b, store !! k = Some b → 0 ≤ tokens b) →
      ∀ k b, (enforceRateLimit key limit windowMs now store).2 !! k = Some b →
             0 ≤ tokens b).
Proof.
  split; [|split; [|split]].
  - intros key s0 t1 t2 t3 t4 H0 H2 H3 H4 c1 c2 c3 c4.
    assert (E1 : c1 = (Ok tt, <[key := mkBucket 1 (t1 + 1000)]> s0))
      by (apply enforceRateLimit_new_window; exact H0).
    assert (E2 : c2 = (Ok tt, <[key := mkBucket 0 (t1 + 1000)]>
                                (<[key := mkBucket 1 (t1 + 1000)]> s0))).
    { subst c2. rewrite E1. simpl.
      rewrite (enforceRateLimit_active _ _ _ _ _ (mkBucket 1 (t1 + 1000)));
        [reflexivity | apply lookup_insert_eq | simpl; lia]. }
    assert (E3 : c3 = (Throw RateLimitExceeded, c2.2)).
    { subst c3. rewrite E2. simpl.
      rewrite (enforceRateLimit_active _ _ _ _ _ (mkBucket 0 (t1 + 1000)));
        [reflexivity | apply lookup_insert_eq | simpl; lia]. }
    assert (E4 : c4 = (Ok tt, <[key := mkBucket 1 (t4 + 1000)]> c2.2)).
    { subst c4. rewrite E3. simpl. apply enforceRateLimit_new_window.
      unfold no_active_window. rewrite E2. simpl.
      rewrite lookup_insert_eq. simpl. lia. }
    rewrite E1, E2, E3, E4. simpl. rewrite E2. simpl.
    repeat split. apply lookup_insert_eq.
  - intros. apply enforceRateLimit_new_window. assumption.
  - intros key limit windowMs now store b Hb Hlt c. subst c.
    rewrite (enforceRateLimit_active _ _ _ _ _ _ Hb Hlt).
    destruct (tokens b <=? 0) eqn:Ht; simpl.
    + apply Z.leb_le in Ht. repeat split; intros; try lia; try done.
    + apply Z.leb_gt in Ht. repeat split; intros; try lia; try done.
  - intros key limit windowMs now store Hlimit Hinv k b.
    unfold enforceRateLimit.
    destruct (store !! key) as [b0|] eqn:Hkey;
      [destruct (resetAt b0 <=? now); [|destruct (tokens b0 <=? 0) eqn:Ht]|];
      simpl; try apply Hinv;
      rewrite lookup_insert; case_decide; try apply Hinv;
      intros [= <-]; simpl; lia.
Qed.

(** The three calls and the fourth at concrete times, from an empty
    store; and one call in an active window holding one token. *)
Lemma enforceRateLimit_window_witness :
  (let c1 := enforceRateLimit "k" 2 1000 0 ∅ in
   let c2 := enforceRateLimit "k" 2 1000 10 c1.2 in
   let c3 := enforceRateLimit "k" 2 1000 999 c2.2 in
   let c4 := enforceRateLimit "k" 2 1000 1000 c3.2 in
   c1.1 = Ok tt ∧ c2.1 = Ok tt
   ∧ c3.1 = Throw RateLimitExceeded ∧ c3.2 = c2.2
   ∧ c4.1 = Ok tt ∧ c4.2 !! "k"%string = Some (mkBucket 1 (1000 + 1000)))
  ∧ enforceRateLimit "k" 5 1000 0 ∅
    = (Ok tt, <["k"%string := mkBucket (5 - 1) (0 + 1000)]> ∅)
  ∧ (let c := enforceRateLimit "k" 2 1000 10 {["k"%string := mkBucket 1 1000]} in
     c.1 = Throw RateLimitExceeded ↔ tokens (mkBucket 1 1000) ≤ 0).
Proof.
  split; [|split].
  - apply (proj1 enforceRateLimit_window_behaviour "k"%string ∅ 0 10 999 1000);
      [exact I | lia | lia | lia].
  - apply (proj1 (proj2 enforceRateLimit_window_behaviour) "k"%string 5 1000 0 ∅).
    exact I.
  - apply (proj1 (proj2 (proj2 enforceRateLimit_window_behaviour))
             "k"%string 2 1000 10 {["k"%string := mkBucket 1 1000]} (mkBucket 1 1000)).
    + apply lookup_singleton_eq.
    + simpl. lia.
Defined.

End RateLimitFacts.

(** ** The command catalogue *)
Module CommandsFacts.
Import Commands.
Local Open Scope string_scope.

(** No command is in both catalogues: a read command is never
    write-classified. *)
Lemma read_command_not_write command :
  isReadCommand command = true → isWriteCommand command = false.
Proof.
  unfold isReadCommand, isWriteCommand, Js.includes.
  rewrite existsb_exists. intros (y & Hin & Heq).
  apply bool_decide_eq_true in Heq. subst command.
  unfold READ_COMMANDS in Hin. simpl in Hin.
  repeat (destruct Hin as [<-|Hin]; [vm_compute; reflexivity|]).
  destruct Hin.
Qed.

(** A catalogue command is neither ["custom"] nor empty. *)
Lemma catalogue_command_plain command :
  isReadCommand command = true ∨ isWriteCommand command = true →
  command ≠ "custom" ∧ command ≠ "".
Proof.
  unfold isReadCommand, isWriteCommand, Js.includes.
  rewrite !existsb_exists.
  intros [(y & Hin & Heq)|(y & Hin & Heq)];
    apply bool_decide_eq_true in Heq; subst command; simpl in Hin;
    repeat (destruct Hin as [<-|Hin]; [split; discriminate|]);
    destruct Hin.
Qed.

End CommandsFacts.

(** ** Command dispatch *)
Module DispatchFacts.
Import Dispatch.
Local Open Scope string_scope.
Local Open Scope list_scope.

(** *** Facts about the two loops *)

Lemma accountMap_of_keyed accounts k account :
  accountMap_of accounts !! k = Some account → Account.id account = k.
Proof.
  unfold accountMap_of.
  assert (H : ∀ (m : gmap string Account.t),
             (∀ k a, m !! k = Some a → Account.id a = k) →
             ∀ k a, foldl (λ m account, <[Account.id account := account]> m) m accounts !! k
                    = Some a → Account.id a = k).
  { induction accounts as [|a0 accounts IH]; intros m Hm k' a'; simpl; [apply Hm|].
    apply IH. intros k'' a''. rewrite lookup_insert.
    case_decide; [intros [= <-]; congruence | apply Hm]. }
  apply H. intros k' a'. rewrite lookup_empty. discriminate.
Qed.

Lemma expected_count_keys db accountMap targets :
  List.length (expected_keys db accountMap targets) = expected_count db accountMap targets.
Proof.
  unfold expected_keys, expected_count.
  remember (λ target : Target.t, match resolved db accountMap target with
                                 | [] => [(Target.accountId target, "")]
                                 | sims => map (λ sim, (Target.accountId target, Sim.id sim)) sims
                                 end) as f eqn:Hf.
  induction targets as [|t targets IH]; [reflexivity|].
  change (flat_map f (t :: targets)) with (f t ++ flat_map f targets).
  rewrite length_app, IH, filter_cons. cbn [map list_sum]. rewrite Hf.
  destruct (resolved db accountMap t) as [|sim sims] eqn:Hr.
  - rewrite decide_True by reflexivity. simpl. lia.
  - rewrite decide_False by discriminate. simpl. rewrite length_map. lia.
Qed.

Section LoopFacts.
Variable trim : string → string.
Variable decipher : string → string → string → result string Js.thrown.
Variable provider : list Send.t → Send.t → result unit Js.thrown.
Variable logWrite : World → CommandLog.t → result unit Js.thrown.
Variable clock : World → string.
Variable context : Auth.AuthContext.
Variable command : string.
Variable text : option string.
Variable requiresWrite : bool.
Variable perAccountDelay : Z.

Local Abbreviation dispatch_sim' :=
  (dispatch_sim trim provider logWrite clock context command text requiresWrite perAccountDelay).
Local Abbreviation dispatch_sims' :=
  (dispatch_sims trim provider logWrite clock context command text requiresWrite perAccountDelay).
Local Abbreviation dispatch_target' :=
  (dispatch_target trim decipher provider logWrite clock context command text requiresWrite
     perAccountDelay).
Local Abbreviation dispatch_targets' :=
  (dispatch_targets trim decipher provider logWrite clock context command text requiresWrite
     perAccountDelay).

(** One device, one entry: forbidden, queued or error. *)
Lemma dispatch_sim_pushes_one account secret mappedScopes sim results w :
  ∃ e, (dispatch_sim' account secret mappedScopes sim results w).1 = results ++ [e]
       ∧ entry_key e = (Account.id account, Sim.id sim)
       ∧ (Entry.status e = "forbidden" ∨ Entry.status e = "queued"
          ∨ Entry.status e = "error").
Proof.
  unfold dispatch_sim.
  destruct (negb (Auth.isOwner context) && _).
  - eexists. split; [reflexivity|]. split; [reflexivity|]. left. reflexivity.
  - destruct (provider _ _); [destruct (logWrite _ _)|];
      destruct (perAccountDelay =? 0)%Z;
      (eexists; split; [reflexivity|]; split; [reflexivity|]);
      (right; first [left; reflexivity | right; reflexivity]).
Qed.

Lemma dispatch_sims_keys account secret mappedScopes sims :
  ∀ results w,
  ∃ es, (dispatch_sims' account secret mappedScopes sims results w).1 = results ++ es
        ∧ map entry_key es = map (λ sim, (Account.id account, Sim.id sim)) sims.
Proof.
  induction sims as [|sim sims IH]; intros results w; simpl.
  - exists []. split; [symmetry; apply app_nil_r | reflexivity].
  - destruct (dispatch_sim_pushes_one account secret mappedScopes sim results w)
      as (e & He & Hk & _).
    destruct (dispatch_sim' account secret mappedScopes sim results w) as [rs1 w1].
    simpl in He. subst rs1.
    destruct (IH (results ++ [e]) w1) as (es & Hes & Hks).
    exists (e :: es). split.
    + rewrite Hes, <- app_assoc. reflexivity.
    + simpl. rewrite Hk, Hks. reflexivity.
Qed.

(** One group: either the secret does not decrypt and the body throws,
    or the group contributes exactly the entries expected of it. *)
Lemma dispatch_target_keys db accountMap target results w :
  (∀ k a, accountMap !! k = Some a → Account.id a = k) →
  match dispatch_target' db accountMap target results w with
  | Ok (rs, _) =>
      ∃ es, rs = results ++ es
            ∧ map entry_key es = expected_keys db accountMap [target]
  | Throw error =>
      ∃ account, accountMap !! Target.accountId target = Some account
                 ∧ Crypto.decryptSecret decipher (Account.clientSecretEncrypted account)
                   = Throw error
  end.
Proof.
  intros Hkeyed. unfold dispatch_target, expected_keys, resolved. simpl.
  destruct (accountMap !! Target.accountId target) as [account|] eqn:Hacc.
  2: { eexists. split; [reflexivity|]. reflexivity. }
  pose proof (Hkeyed _ _ Hacc) as Hid.
  destruct (Crypto.decryptSecret decipher _) as [secret|error] eqn:Hdec.
  2: { exists account. split; [reflexivity | exact Hdec]. }
  destruct (identifiers target) as [|clause clauses] eqn:Hids.
  { eexists. split; [reflexivity|]. simpl.
    unfold sim_findMany. simpl.
    replace (filter _ (sims db)) with (@nil Sim.t).
    - simpl. rewrite Hid. reflexivity.
    - symmetry. induction (sims db) as [|x l IHl]; [reflexivity|].
      rewrite filter_cons, decide_False; [exact IHl|].
      rewrite andb_false_r. discriminate. }
  destruct (sim_findMany db (Account.id account) (clause :: clauses))
    as [|sim0 sims0] eqn:Hsims.
  { eexists. split; [reflexivity|]. simpl. rewrite Hid. reflexivity. }
  destruct (dispatch_sims_keys account secret
              (if Auth.isOwner context then None
               else Some (filter (λ scope, Auth.accountId scope = Account.id account)
                            (Auth.scopes context)))
              (sim0 :: sims0) results w) as (es & Hes & Hks).
  destruct (dispatch_sims' _ _ _ (sim0 :: sims0) results w) as [rs w'].
  simpl in Hes. exists es. split; [exact Hes|].
  rewrite Hks, app_nil_r, Hid. reflexivity.
Qed.

(** When every secret decrypts, the loop over the groups ends normally
    and the results are, in traversal order, exactly the expected
    entries after the ones it started with. *)
Lemma dispatch_targets_keys db accountMap targets :
  (∀ k a, accountMap !! k = Some a → Account.id a = k) →
  secrets_decrypt decipher accountMap targets →
  ∀ results w,
  ∃ rs w', dispatch_targets' db accountMap targets results w = (Ok rs, w')
           ∧ map entry_key rs
             = map entry_key results ++ expected_keys db accountMap targets.
Proof.
  intros Hkeyed.
  induction targets as [|target targets IH]; intros Hdec results w; simpl.
  - exists results, w. split; [reflexivity|]. rewrite app_nil_r. reflexivity.
  - pose proof (dispatch_target_keys db accountMap target results w Hkeyed) as Ht.
    destruct (dispatch_target' db accountMap target results w) as [[rs1 w1]|error].
    + destruct Ht as (es & -> & Hes).
      destruct (IH (λ t a Ht' Ha, Hdec t a (list_elem_of_further _ _ _ Ht') Ha)
                  (results ++ es) w1) as (rs & w' & Hrun & Hkeys).
      exists rs, w'. split; [exact Hrun|].
      rewrite Hkeys, map_app, Hes, <- app_assoc. unfold expected_keys. simpl.
      rewrite app_nil_r. reflexivity.
    + destruct Ht as (account & Hacc & Hthrow).
      specialize (Hdec target account (list_elem_of_here _ _) Hacc).
      rewrite Hthrow in Hdec. discriminate.
Qed.

End LoopFacts.

(** *** The handler as a whole *)

Section HandlerFacts.
Variable trim : string → string.
Variable decipher : string → string → string → result string Js.thrown.
Variable provider : list Send.t → Send.t → result unit Js.thrown.
Variable logWrite : World → CommandLog.t → result unit Js.thrown.
Variable clock : World → string.

(** A batch that passes validation and the rate-limit gate, and whose
    accounts all have a secret that decrypts, is answered with results
    that are, in traversal order, one entry for each resolved device
    and one for each group that resolves none. *)
Lemma POST_results_complete context body db now (store : RateLimit.Store) w :
  let command := trim (Body.command body) in
  let targets := Body.accountScopedTargets body in
  let accountMap := accountMap_of (account_findMany db (map Target.accountId targets)) in
  BodySchema_ok body = true →
  Commands.isSupportedCommand command = true →
  (command = "custom" →
   Js.truthy (Body.text body) = true ∧ Js.truthy (trim <$> Body.text body) = true) →
  (RateLimit.enforceRateLimit ("command:" ++ Auth.userId context)%string
     30 60000 now store).1 = Ok tt →
  secrets_decrypt decipher accountMap targets →
  ∃ results store' w',
    POST trim decipher provider logWrite clock context body db now store w
    = (Results results, store', w')
    ∧ map entry_key results = expected_keys db accountMap targets
    ∧ List.length results = expected_count db accountMap targets.
Proof.
  intros command targets accountMap Hschema Hsupp Hcustom Hrate Hdec.
  assert (Hloop : ∃ rs w',
            dispatch_targets trim decipher provider logWrite clock context command
              (Body.text body) (Commands.isWriteCommand command)
              (perAccountDelay_of (Body.throttle body)) db accountMap targets [] w
            = (Ok rs, w')
            ∧ map entry_key rs = expected_keys db accountMap targets).
  { destruct (dispatch_targets_keys trim decipher provider logWrite clock context command
                (Body.text body) (Commands.isWriteCommand command)
                (perAccountDelay_of (Body.throttle body)) db accountMap targets
                (accountMap_of_keyed _) Hdec [] w) as (rs & w' & Hrun & Hkeys).
    exists rs, w'. split; [exact Hrun | exact Hkeys]. }
  destruct Hloop as (rs & w' & Hrun & Hkeys).
  assert (Hgate : bool_decide (command = "custom")
                  && (negb (Js.truthy (Body.text body))
                      || negb (Js.truthy (trim <$> Body.text body))) = false).
  { destruct (bool_decide (command = "custom")) eqn:Hc; [|reflexivity].
    apply bool_decide_eq_true in Hc. destruct (Hcustom Hc) as [-> ->]. reflexivity. }
  unfold POST. rewrite Hschema. simpl. fold command. rewrite Hsupp. simpl.
  rewrite Hgate.
  destruct (RateLimit.enforceRateLimit _ 30 60000 now store) as [[[]|m] store'];
    [|discriminate Hrate].
  fold targets accountMap. rewrite Hrun.
  exists rs, store', w'. split; [reflexivity|]. split; [exact Hkeys|].
  rewrite <- expected_count_keys, <- Hkeys, length_map. reflexivity.
Qed.

End HandlerFacts.

(** *** Scope evaluation *)

(** The dispatcher's check lets an account-wide grant that carries the
    permission cover every fleet of the account. *)
Lemma dispatcher_allows_account_wide (requiresWrite : bool) sim
    (scope : Auth.Scope) (mappedScopes : list Auth.Scope) :
  scope ∈ mappedScopes →
  Auth.fleetId scope = None →
  (if requiresWrite then Auth.canWrite scope else Auth.canRead scope) = true →
  allowed (Some mappedScopes) requiresWrite sim = Some true.
Proof.
  intros Hin Hwide Hperm. unfold allowed. simpl. f_equal.
  apply existsb_exists. exists scope. split.
  - apply list_elem_of_In. exact Hin.
  - unfold scope_permits. rewrite Hwide. simpl. exact Hperm.
Qed.

(** The helpers, asked about a fleet, look only at grants on that very
    fleet: a caller whose grants on the account are all account-wide
    is refused for every fleet, whatever the grants carry. *)
Lemma helpers_deny_account_wide_only (scopes : list Auth.Scope) accountId fleet :
  fleet ≠ "" →
  (∀ scope, scope ∈ scopes → Auth.accountId scope = accountId →
            Auth.fleetId scope = None) →
  Auth.hasReadAccess scopes accountId (Some fleet) = false
  ∧ Auth.hasWriteAccess scopes accountId (Some fleet) = false.
Proof.
  intros Hne Hwide.
  assert (Htruthy : Js.truthy (Some fleet) = true).
  { unfold Js.truthy. rewrite bool_decide_eq_false_2 by exact Hne. reflexivity. }
  unfold Auth.hasReadAccess, Auth.hasWriteAccess. rewrite Htruthy.
  split; apply not_true_is_false; rewrite existsb_exists;
    intros (scope & Hin & Hperm); apply list_elem_of_In in Hin;
    destruct (bool_decide (Auth.accountId scope = accountId)) eqn:Hacc;
    simpl in Hperm; try discriminate;
    apply bool_decide_eq_true in Hacc;
    rewrite (Hwide scope Hin Hacc) in Hperm; simpl in Hperm;
    discriminate.
Qed.

(** C1. A caller whose only grant on account A1 is account-wide and
    carries read, write and invite: the dispatcher's per-device check
    allows a device of fleet f1 for a read and for a write command, but
    [hasReadAccess] and [hasWriteAccess], called with fleet f1, both
    answer false (called without a fleet they answer true). *)
Theorem account_wide_grant_helpers_refuse_fleet :
  allowed (Some [wide_scope]) false sim1 = Some true
  ∧ allowed (Some [wide_scope]) true sim1 = Some true
  ∧ Auth.hasReadAccess [wide_scope] "A1" (Some "f1") = false
  ∧ Auth.hasWriteAccess [wide_scope] "A1" (Some "f1") = false
  ∧ Auth.hasReadAccess [wide_scope] "A1" None = true
  ∧ Auth.hasWriteAccess [wide_scope] "A1" None = true.
Proof. repeat split; vm_compute; reflexivity. Qed.

(** *** C3: a read-only grant on the device's fleet *)

(** C3 as the specification words it fails: for the caller whose one
    grant on A1 is read-only on fleet f1, the read command "info" and
    device [sim1] of that fleet, the submission to the provider
    succeeds and the entry is not "queued" but "error" when the write
    of the command-log row, which is awaited in the same [try], fails;
    the command has been sent all the same. *)
Lemma read_command_not_queued_when_log_write_fails :
  Commands.isReadCommand "info" = true
  ∧ provider_up []
      (Send.mk "Alpha" "client-1" "5ec2e7" None None "info" "HS1" (Some "info"))
    = Ok tt
  ∧ sent (dispatch_sim Js.trim_ascii provider_up log_down fixed_clock
            (agent_with [read_only_fleet_scope]) "info" None
            (Commands.isWriteCommand "info") 0 acc1 "5ec2e7"
            (Some [read_only_fleet_scope]) sim1 [] world0).2
    = [Send.mk "Alpha" "client-1" "5ec2e7" None None "info" "HS1" (Some "info")]
  ∧ map Entry.status
      (dispatch_sim Js.trim_ascii provider_up log_down fixed_clock
         (agent_with [read_only_fleet_scope]) "info" None
         (Commands.isWriteCommand "info") 0 acc1 "5ec2e7"
         (Some [read_only_fleet_scope]) sim1 [] world0).1
    = ["error"].
Proof. repeat split; vm_compute; reflexivity. Qed.

Section ReadOnlyGrant.
Variable trim : string → string.
Variable provider : list Send.t → Send.t → result unit Js.thrown.
Variable logWrite : World → CommandLog.t → result unit Js.thrown.
Variable clock : World → string.

(** C3, amended.  For a caller who is not an owner and whose scopes on
    the device's account are one grant, on the device's fleet, with
    [canWrite = false] and [canRead = true]: a write-classified
    catalogue command pushes one entry of status "forbidden" for the
    device and leaves the world as it was (no provider call, no log row,
    no sleep); a read-classified catalogue command whose provider call
    succeeds, and whose command-log row is then written, pushes one
    entry of status "queued" that echoes the command as command and
    payload, the provider having been called once, for this device.
    When the provider call succeeds and the write of the row fails, the
    entry is of status "error" with the failure's message, the command
    having been sent and no row written. *)
Theorem dispatch_with_read_only_fleet_grant
    context command text perAccountDelay account secret sim scope results w :
  Auth.isOwner context = false →
  filter (λ s, Auth.accountId s = Account.id account) (Auth.scopes context) = [scope] →
  Auth.fleetId scope = Some (Sim.fleetId sim) →
  Auth.canWrite scope = false →
  Auth.canRead scope = true →
  let mappedScopes :=
    Some (filter (λ s, Auth.accountId s = Account.id account) (Auth.scopes context)) in
  let run :=
    dispatch_sim trim provider logWrite clock context command text
      (Commands.isWriteCommand command) perAccountDelay
      account secret mappedScopes sim results w in
  let request :=
    Send.mk (Account.label account) (Account.clientId account) secret
      (Account.oauthScope account) (Account.oauthAudience account)
      command (Sim.simSid sim) (Some command) in
  let w1 := mkWorld (sent w ++ [request]) (commandLog w) (slept w) in
  let row :=
    CommandLog.mk (Account.id account) (Sim.id sim) command "outbound" command
      (clock w1) in
  (Commands.isWriteCommand command = true →
   ∃ e, run = (results ++ [e], w)
        ∧ Entry.status e = "forbidden"
        ∧ Entry.simId e = Sim.id sim ∧ Entry.simSid e = Sim.simSid sim)
  ∧ (Commands.isReadCommand command = true →
     provider (sent w) request = Ok tt →
     logWrite w1 row = Ok tt →
     ∃ e, run.1 = results ++ [e]
          ∧ Entry.status e = "queued"
          ∧ Entry.simId e = Sim.id sim ∧ Entry.simSid e = Sim.simSid sim
          ∧ Entry.command e = Some command ∧ Entry.payload e = Some command
          ∧ sent run.2 = sent w ++ [request]
          ∧ commandLog run.2 = commandLog w ++ [row])
  ∧ (Commands.isReadCommand command = true →
     provider (sent w) request = Ok tt →
     ∀ error,
       logWrite w1 row = Throw error →
       ∃ e, run.1 = results ++ [e]
            ∧ Entry.status e = "error"
            ∧ Entry.message e = Js.message_or "Failed to send" error
            ∧ Entry.simId e = Sim.id sim
            ∧ sent run.2 = sent w ++ [request]
            ∧ commandLog run.2 = commandLog w).
Proof.
  intros Hagent Hmapped Hfleet Hw Hr mappedScopes run request w1 row.
  subst mappedScopes run. rewrite Hmapped. unfold dispatch_sim, allowed.
  rewrite Hagent. simpl. unfold scope_permits. rewrite Hfleet.
  rewrite (bool_decide_eq_false_2 (Some (Sim.fleetId sim) = None)) by discriminate.
  rewrite bool_decide_eq_true_2 by reflexivity. simpl.
  assert (Hplain : Commands.isReadCommand command = true →
            Commands.isWriteCommand command = false
            ∧ bool_decide (command = "custom") = false
            ∧ bool_decide (command = "") = false).
  { intros Hread.
    destruct (CommandsFacts.catalogue_command_plain command (or_introl Hread))
      as [Hcustom Hempty].
    refine (conj (CommandsFacts.read_command_not_write _ Hread)
              (conj (bool_decide_eq_false_2 _ Hcustom) (bool_decide_eq_false_2 _ Hempty))). }
  split; [|split].
  - intros Hwrite. rewrite Hwrite, Hw. simpl.
    eexists. split; [reflexivity|]. repeat split.
  - intros Hread Hup Hlog. destruct (Hplain Hread) as (-> & -> & ->). rewrite Hr. simpl.
    fold request. rewrite Hup. fold w1. fold row. rewrite Hlog.
    destruct (perAccountDelay =? 0)%Z; simpl;
      (eexists; split; [reflexivity|]; repeat split).
  - intros Hread Hup error Hlog. destruct (Hplain Hread) as (-> & -> & ->). rewrite Hr.
    simpl. fold request. rewrite Hup. fold w1. fold row. rewrite Hlog.
    destruct (perAccountDelay =? 0)%Z; simpl;
      (eexists; split; [reflexivity|]; repeat split).
Qed.

End ReadOnlyGrant.

(** The agent whose one grant on A1 is read-only on fleet f1, device
    [sim1] of that fleet, the write command "reset" and the read
    command "info", with the command log taking its row. *)
Lemma dispatch_with_read_only_fleet_grant_witness :
  (∃ e, dispatch_sim Js.trim_ascii provider_up log_up fixed_clock
          (agent_with [read_only_fleet_scope]) "reset" None
          (Commands.isWriteCommand "reset") 0 acc1 "5ec2e7"
          (Some [read_only_fleet_scope]) sim1 [] world0 = ([] ++ [e], world0)
        ∧ Entry.status e = "forbidden")
  ∧ (∃ e, (dispatch_sim Js.trim_ascii provider_up log_up fixed_clock
             (agent_with [read_only_fleet_scope]) "info" None
             (Commands.isWriteCommand "info") 0 acc1 "5ec2e7"
             (Some [read_only_fleet_scope]) sim1 [] world0).1 = [] ++ [e]
          ∧ Entry.status e = "queued").
Proof.
  split.
  - destruct (proj1 (dispatch_with_read_only_fleet_grant Js.trim_ascii provider_up
               log_up fixed_clock (agent_with [read_only_fleet_scope]) "reset" None 0
               acc1 "5ec2e7" sim1 read_only_fleet_scope [] world0
               eq_refl eq_refl eq_refl eq_refl eq_refl) eq_refl)
      as (e & Hrun & Hstatus & _).
    exists e. split; [exact Hrun | exact Hstatus].
  - destruct (proj1 (proj2 (dispatch_with_read_only_fleet_grant Js.trim_ascii
               provider_up log_up fixed_clock (agent_with [read_only_fleet_scope])
               "info" None 0 acc1 "5ec2e7" sim1 read_only_fleet_scope [] world0
               eq_refl eq_refl eq_refl eq_refl eq_refl)) eq_refl eq_refl eq_refl)
      as (e & Hrun & Hstatus & _).
    exists e. split; [exact Hrun | exact Hstatus].
Defined.

(** *** C2: a secret that does not decrypt *)

(** C2. Account A2's stored secret is not a ciphertext.  An owner's
    batch "info" for [A1: device s1] and [A2: device 8900...2] passes
    validation and the rate-limit gate and resolves two devices, so two
    entries are expected; the handler answers with an error and no
    results at all, after it has sent the command to A1's device.  With
    the groups in the other order nothing is sent and A1's group is
    never looked at. *)
Theorem POST_undecryptable_secret_aborts_batch :
  let run targets :=
    POST Js.trim_ascii toy_decipher provider_up log_up fixed_clock the_owner
      (body_of "info" targets) db12 0 ∅ world0 in
  let accountMap := accountMap_of (account_findMany db12 ["A1"; "A2"]) in
  BodySchema_ok (body_of "info" [target1; target2]) = true
  ∧ (RateLimit.enforceRateLimit "command:u0" 30 60000 0 ∅).1 = Ok tt
  ∧ expected_count db12 accountMap [target1; target2] = 2%nat
  ∧ (run [target1; target2]).1.1 = ApiError (Js.ErrorMsg Crypto.malformed)
  ∧ map Send.simSid (sent (run [target1; target2]).2) = ["HS1"]
  ∧ (run [target2; target1]).1.1 = ApiError (Js.ErrorMsg Crypto.malformed)
  ∧ sent (run [target2; target1]).2 = []
  ∧ (∃ e, (run [target1]).1.1 = Results [e] ∧ Entry.status e = "queued").
Proof.
  repeat split; try (vm_compute; reflexivity).
  eexists. split; vm_compute; reflexivity.
Qed.

End DispatchFacts.

(** ** The provider client *)
Module KoreFacts.
Import Kore.
Local Open Scope string_scope.
Local Open Scope list_scope.

(** *** Facts about the listing *)

Section ListSimsFacts.
Variable base : string.
Variable koreFetch : list string → string → result SimList.t Js.thrown.
Variable fleetSid' : string.

Local Abbreviation pages' := (pages base koreFetch fleetSid').
Local Abbreviation candidates_loop' := (candidates_loop base koreFetch fleetSid').
Local Abbreviation resolvable' := (resolvable fleetSid').

Lemma push_items_resolvable items :
  ∀ sims any,
    push_items fleetSid' items sims any
    = (sims ++ resolvable' items,
       any || negb (bool_decide (resolvable' items = []))).
Proof.
  unfold push_items, resolvable.
  induction items as [|item items IH]; intros sims any.
  - simpl. rewrite app_nil_r, orb_false_r. reflexivity.
  - cbn [foldl map]. rewrite filter_cons.
    assert (Htruthy : Js.truthy (Some (sid (normalizeSim item)))
                      = negb (bool_decide (sid (normalizeSim item) = "")))
      by reflexivity.
    destruct (decide (sid (normalizeSim item) ≠ "")) as [Hsid|Hsid].
    + rewrite (bool_decide_eq_false_2 _ Hsid) in Htruthy. rewrite Htruthy.
      cbn [negb]. rewrite IH. cbn [map]. rewrite <- app_assoc. simpl.
      rewrite orb_true_r. reflexivity.
    + apply dec_stable in Hsid.
      rewrite (bool_decide_eq_true_2 _ Hsid) in Htruthy. rewrite Htruthy.
      cbn [negb]. apply IH.
Qed.

(** The loop over the pages only adds devices, requests no path twice
    and none that [visited] holds, and an error it ends with is what
    its last request threw. *)
Lemma pages_invariant fuel :
  ∀ nextPath (visited : gset string) sims any before,
    let run := pages' fuel nextPath visited sims any before in
    ∃ more reqs,
      collected run = sims ++ more
      ∧ requested run = before ++ reqs
      ∧ NoDup reqs
      ∧ (∀ path, path ∈ reqs → path ∉ visited)
      ∧ (∀ err, ended run = Threw err →
           ∃ pre path, requested run = pre ++ [path] ∧ koreFetch pre path = Throw err)
      ∧ (fetchedAny run = false → any = false ∧ more = []).
Proof.
  assert (Hstop : ∀ e (visited : gset string) sims any before,
            (∀ err, e = Threw err → False) →
            let run := mkPages e sims any before in
            ∃ more reqs,
              collected run = sims ++ more
              ∧ requested run = before ++ reqs
              ∧ NoDup reqs
              ∧ (∀ path, path ∈ reqs → path ∉ visited)
              ∧ (∀ err, ended run = Threw err →
                   ∃ pre path, requested run = pre ++ [path]
                               ∧ koreFetch pre path = Throw err)
              ∧ (fetchedAny run = false → any = false ∧ more = [])).
  { intros e visited sims any before He. exists [], []. simpl.
    rewrite !app_nil_r.
    refine (conj eq_refl (conj eq_refl (conj (NoDup_nil_2) (conj _ (conj _ _))))).
    - intros p Hp. inversion Hp.
    - intros err Herr. destruct (He err Herr).
    - intros ->. split; reflexivity. }
  induction fuel as [|fuel IH]; intros nextPath visited sims any before; simpl.
  - destruct nextPath as [path|];
      [destruct (Js.truthy (Some path) && _)|];
      apply Hstop; discriminate.
  - destruct nextPath as [path|]; [destruct (Js.truthy (Some path) && _) eqn:Hgo|];
      try (apply Hstop; discriminate).
    apply andb_true_iff in Hgo as [_ Hfresh].
    apply negb_true_iff, bool_decide_eq_false in Hfresh.
    destruct (koreFetch before path) as [data|err] eqn:Hfetch; simpl.
    + rewrite push_items_resolvable.
      destruct (IH (next_path base data) ({[path]} ∪ visited)
                  (sims ++ resolvable' (default [] (SimList.sims data ?? SimList.data data)))
                  (any || negb (bool_decide
                     (resolvable' (default [] (SimList.sims data ?? SimList.data data)) = [])))
                  (before ++ [path]))
        as (more & reqs & Hcol & Hreq & Hnodup & Hvis & Herr & Hany).
      exists (resolvable' (default [] (SimList.sims data ?? SimList.data data)) ++ more),
             (path :: reqs).
      rewrite Hcol, Hreq, <- !app_assoc. simpl.
      refine (conj eq_refl (conj eq_refl (conj _ (conj _ (conj _ _))))).
      * constructor; [|exact Hnodup]. intros Hin. apply (Hvis _ Hin).
        apply elem_of_union. left. apply elem_of_singleton. reflexivity.
      * intros p Hp. apply elem_of_cons in Hp as [->|Hp]; [exact Hfresh|].
        intros Hv. apply (Hvis _ Hp). apply elem_of_union. right. exact Hv.
      * intros err Hend. destruct (Herr err Hend) as (pre & p & Hpre & Hthrow).
        exists pre, p. split; [|exact Hthrow].
        rewrite <- Hpre, Hreq, <- app_assoc. reflexivity.
      * intros Hf. destruct (Hany Hf) as [Hor Hmore]. subst more.
        apply orb_false_iff in Hor as [-> Hnone].
        apply negb_false_iff, bool_decide_eq_true in Hnone. rewrite Hnone.
        split; reflexivity.
    + exists [], [path]. rewrite app_nil_r.
      refine (conj eq_refl (conj eq_refl (conj _ (conj _ (conj _ _))))).
      * apply NoDup_singleton.
      * intros p Hp. apply list_elem_of_singleton in Hp as ->. exact Hfresh.
      * intros err' [= <-]. exists before, path. split; [reflexivity | exact Hfetch].
      * intros ->. split; reflexivity.
Qed.

(** A candidate whose first request is answered 404 or 400 is passed
    over with nothing collected. *)
Lemma candidates_loop_skip fuel path rest sims before err :
  path ≠ "" →
  koreFetch before path = Throw err →
  try_next err = true →
  candidates_loop' (S fuel) (path :: rest) sims before
  = candidates_loop' (S fuel) rest sims (before ++ [path]).
Proof.
  intros Hpath Hfetch Hnext. cbn [candidates_loop pages].
  unfold Js.truthy. rewrite (bool_decide_eq_false_2 _ Hpath).
  rewrite bool_decide_eq_false_2 by set_solver. cbn [negb andb].
  rewrite Hfetch. cbn [ended collected requested]. rewrite Hnext. reflexivity.
Qed.

(** What the listing returns starts with what it had collected. *)
Lemma candidates_loop_keeps fuel candidates :
  ∀ sims before found after,
    candidates_loop' fuel candidates sims before = (Some (Ok found), after) →
    ∃ more, found = sims ++ more.
Proof.
  induction candidates as [|path rest IH]; intros sims before found after; simpl.
  - intros [= <- <-]. exists []. symmetry. apply app_nil_r.
  - destruct (pages_invariant fuel (Some path) ∅ sims false before)
      as (more & reqs & Hcol & _).
    destruct (pages' fuel (Some path) ∅ sims false before) as [e c f r].
    simpl in *. subst c.
    destruct e as [|err|]; [destruct f|destruct (try_next err)|]; try discriminate.
    + intros [= <- <-]. exists more. reflexivity.
    + intros H. destruct (IH _ _ _ _ H) as (more' & ->).
      exists (more ++ more'). symmetry. apply app_assoc.
    + intros H. destruct (IH _ _ _ _ H) as (more' & ->).
      exists (more ++ more'). symmetry. apply app_assoc.
Qed.

(** An error leaves the listing only if it is not a 404 or a 400, and
    it is what the last request made threw. *)
Lemma candidates_loop_throws fuel candidates :
  ∀ sims before err after,
    candidates_loop' fuel candidates sims before = (Some (Throw err), after) →
    try_next err = false
    ∧ ∃ pre path, after = pre ++ [path] ∧ koreFetch pre path = Throw err.
Proof.
  induction candidates as [|path rest IH]; intros sims before err after; simpl.
  - discriminate.
  - destruct (pages_invariant fuel (Some path) ∅ sims false before)
      as (_ & _ & _ & _ & _ & _ & Herr & _).
    destruct (pages' fuel (Some path) ∅ sims false before) as [e c f r].
    simpl in *.
    destruct e as [|err'|]; [destruct f|destruct (try_next err') eqn:Hnext|];
      try discriminate; try (apply IH).
    intros [= <- <-]. split; [exact Hnext|]. apply Herr. reflexivity.
Qed.

End ListSimsFacts.

(** *** C5 *)

(** C5, as the specification words it, fails twice.  A candidate that
    answers 200 with no device is left for the next one although no
    request was answered 404 or 400; and a candidate that yielded a
    device and then met a 404 on a later page does not stop the
    listing, which goes on to the candidates after it. *)
Lemma listSims_advances_without_404_and_past_a_yielding_candidate :
  ¬ (∀ koreFetch fuel first second rest before outcome after,
       candidates_loop "" koreFetch "HF1" fuel (first :: second :: rest) [] before
       = (outcome, after) →
       second ∈ after →
       ∃ pre path err, koreFetch pre path = Throw err ∧ try_next err = true)
  ∧ ¬ (∀ koreFetch fuel first rest before outcome after,
       candidates_loop "https://api.example/v1" koreFetch "HF1" fuel (first :: rest) [] before
       = (outcome, after) →
       collected (pages "https://api.example/v1" koreFetch "HF1" fuel (Some first) ∅ [] false before)
       ≠ [] →
       after = requested (pages "https://api.example/v1" koreFetch "HF1" fuel (Some first) ∅ []
                            false before)).
Proof.
  split; intros H.
  - destruct (H empty_pages 1%nat "/a" "/b" [] [] (Some (Ok [])) ["/a"; "/b"])
      as (pre & path & err & Hthrow & _).
    + reflexivity.
    + apply list_elem_of_In. simpl. auto.
    + discriminate Hthrow.
  - specialize (H second_page_missing 2%nat "/Fleets/HF1/Sims?PageSize=500"
                  ["/Sims?FleetSid=HF1&PageSize=500"] []).
    specialize (H _ _ eq_refl). vm_compute in H.
    assert (Hne : [mkSim "HS1" "8901" None "active" "HF1" None None] ≠ [])
      by discriminate.
    specialize (H Hne). discriminate H.
Qed.

Section Fallback.
Variable base : string.
Variable koreFetch : list string → string → result SimList.t Js.thrown.
Variable fleetSid' : string.

Local Abbreviation pages' := (pages base koreFetch fleetSid').
Local Abbreviation candidates_loop' := (candidates_loop base koreFetch fleetSid').

(** C5, amended.  For every list of candidates whose first four
    answer 404 to their first request and whose fifth answers one page
    of three devices with resolvable ids and no next page, the listing
    returns exactly these three devices (normalised, under the fleet
    asked for) and requests nothing after the fifth candidate.  In
    general, on the candidate at hand: an error that is not a 404 or a
    400 leaves the listing at once, with no further request; a 404 or a
    400, and also pages that end without a device, send the listing to
    the next candidate with what it has collected; pages that end
    without error and yielded a device end the listing.  No candidate's
    pages request a path twice. *)
Theorem listSims_fallback :
  (∀ fuel c1 c2 c3 c4 c5 rest before m1 m2 m3 m4 page i1 i2 i3,
      c1 ≠ "" → c2 ≠ "" → c3 ≠ "" → c4 ≠ "" → c5 ≠ "" →
      koreFetch before c1 = Throw (Js.KoreHttpError 404 m1) →
      koreFetch (before ++ [c1]) c2 = Throw (Js.KoreHttpError 404 m2) →
      koreFetch (before ++ [c1; c2]) c3 = Throw (Js.KoreHttpError 404 m3) →
      koreFetch (before ++ [c1; c2; c3]) c4 = Throw (Js.KoreHttpError 404 m4) →
      koreFetch (before ++ [c1; c2; c3; c4]) c5 = Ok page →
      default [] (SimList.sims page ?? SimList.data page) = [i1; i2; i3] →
      sid (normalizeSim i1) ≠ "" → sid (normalizeSim i2) ≠ "" →
      sid (normalizeSim i3) ≠ "" →
      next_path base page = None →
      candidates_loop' (S fuel) ([c1; c2; c3; c4; c5] ++ rest) [] before
      = (Some (Ok (map (λ i, with_fleetSid fleetSid' (normalizeSim i)) [i1; i2; i3])),
         before ++ [c1; c2; c3; c4; c5]))
  ∧ (∀ fuel first rest sims before,
      let run := pages' fuel (Some first) ∅ sims false before in
      (∀ err, ended run = Threw err → try_next err = false →
         candidates_loop' fuel (first :: rest) sims before
         = (Some (Throw err), requested run)
         ∧ ∃ pre path, requested run = pre ++ [path] ∧ koreFetch pre path = Throw err)
      ∧ (∀ err, ended run = Threw err → try_next err = true →
         candidates_loop' fuel (first :: rest) sims before
         = candidates_loop' fuel rest (collected run) (requested run))
      ∧ (ended run = Completed → fetchedAny run = false →
         collected run = sims
         ∧ candidates_loop' fuel (first :: rest) sims before
           = candidates_loop' fuel rest sims (requested run))
      ∧ (ended run = Completed → fetchedAny run = true →
         candidates_loop' fuel (first :: rest) sims before
         = (Some (Ok (collected run)), requested run))
      ∧ ∃ reqs, requested run = before ++ reqs ∧ NoDup reqs).
Proof.
  split.
  - intros fuel c1 c2 c3 c4 c5 rest before m1 m2 m3 m4 page i1 i2 i3
      H1 H2 H3 H4 H5 F1 F2 F3 F4 F5 Hitems S1 S2 S3 Hnext.
    cbn [app].
    rewrite (candidates_loop_skip _ _ _ _ _ _ _ _ _ H1 F1 eq_refl).
    rewrite (candidates_loop_skip _ _ _ _ _ _ _ _ _ H2 F2 eq_refl).
    rewrite <- app_assoc. cbn [app].
    rewrite (candidates_loop_skip _ _ _ _ _ _ _ _ _ H3 F3 eq_refl).
    rewrite <- app_assoc. cbn [app].
    rewrite (candidates_loop_skip _ _ _ _ _ _ _ _ _ H4 F4 eq_refl).
    rewrite <- app_assoc. cbn [app].
    assert (Htruthy : Js.truthy (Some c5) = true).
    { unfold Js.truthy. rewrite (bool_decide_eq_false_2 _ H5). reflexivity. }
    cbn [candidates_loop pages]. rewrite !Htruthy.
    rewrite bool_decide_eq_false_2 by set_solver. cbn [negb andb].
    rewrite F5, Hitems, push_items_resolvable, Hnext.
    unfold resolvable. cbn [map]. rewrite !filter_cons, filter_nil.
    rewrite !decide_True by assumption. cbn [map app].
    destruct fuel; cbn [pages ended fetchedAny collected requested orb negb];
      rewrite bool_decide_eq_false_2 by discriminate; cbn [negb];
      rewrite <- app_assoc; reflexivity.
  - intros fuel first rest sims before run.
    destruct (pages_invariant base koreFetch fleetSid' fuel (Some first) ∅ sims false before)
      as (more & reqs & Hcol & Hreq & Hnodup & _ & Herr & Hany).
    fold run in Hcol, Hreq, Herr, Hany.
    cbn [candidates_loop]. fold run.
    refine (conj _ (conj _ (conj _ (conj _ _)))).
    + intros err Hend Hnext. rewrite Hend, Hnext. split; [reflexivity|].
      apply Herr. exact Hend.
    + intros err Hend Hnext. rewrite Hend, Hnext. reflexivity.
    + intros Hend Hf. rewrite Hend, Hf. destruct (Hany Hf) as [_ ->].
      rewrite app_nil_r in Hcol. rewrite Hcol. split; reflexivity.
    + intros Hend Hf. rewrite Hend, Hf. reflexivity.
    + exists reqs. split; [exact Hreq | exact Hnodup].
Qed.

(** When a candidate's pages end on a 404 or a 400 after they yielded
    devices, the devices stay in the list, the listing goes on to the
    next candidate with them, and whatever it returns in the end starts
    with them. *)
Lemma candidates_loop_retains fuel first rest sims before err :
  let run := pages' fuel (Some first) ∅ sims false before in
  ended run = Threw err →
  try_next err = true →
  (∃ more, collected run = sims ++ more)
  ∧ candidates_loop' fuel (first :: rest) sims before
    = candidates_loop' fuel rest (collected run) (requested run)
  ∧ ∀ found after,
      candidates_loop' fuel (first :: rest) sims before = (Some (Ok found), after) →
      ∃ more, found = collected run ++ more.
Proof.
  intros run Hend Hnext.
  destruct (pages_invariant base koreFetch fleetSid' fuel (Some first) ∅ sims false before)
    as (more & reqs & Hcol & _).
  fold run in Hcol.
  assert (Hstep : candidates_loop' fuel (first :: rest) sims before
                  = candidates_loop' fuel rest (collected run) (requested run)).
  { cbn [candidates_loop]. fold run. rewrite Hend, Hnext. reflexivity. }
  split; [exists more; exact Hcol|]. split; [exact Hstep|].
  intros found after Hfound. rewrite Hstep in Hfound.
  exact (candidates_loop_keeps base koreFetch fleetSid' fuel rest _ _ _ _ Hfound).
Qed.

End Fallback.

(** [listSimsFromKore] for fleet HF1 against [fifth_answers]: the three
    devices, after one request to each of the first five candidates;
    and against [server_error]: the 500, after one request. *)
Lemma listSims_fallback_witness :
  listSimsFromKore "" plain fifth_answers "HF1" 1 []
  = (Some (Ok [mkSim "HS1" "8901" None "active" "HF1" None None;
               mkSim "HS2" "8902" None "active" "HF1" None None;
               mkSim "HS3" "8903" None "active" "HF1" None None]),
     ["/Fleets/HF1/Sims?PageSize=500"; "/Sims?FleetSid=HF1&PageSize=500";
      "/Sims?Fleet=HF1&PageSize=500"; "/fleets/HF1/sims?PageSize=500";
      "/sims?FleetSid=HF1&PageSize=500"])
  ∧ listSimsFromKore "" plain server_error "HF1" 1 []
    = (Some (Throw (Js.KoreHttpError 500 "KORE API request failed (500)")),
       ["/Fleets/HF1/Sims?PageSize=500"]).
Proof.
  split.
  - apply (proj1 (listSims_fallback "" fifth_answers "HF1") 0%nat
             "/Fleets/HF1/Sims?PageSize=500" "/Sims?FleetSid=HF1&PageSize=500"
             "/Sims?Fleet=HF1&PageSize=500" "/fleets/HF1/sims?PageSize=500"
             "/sims?FleetSid=HF1&PageSize=500" ["/sims?fleetSid=HF1&PageSize=500"] []
             "KORE API request failed (404)" "KORE API request failed (404)"
             "KORE API request failed (404)" "KORE API request failed (404)"
             (one_page three_devices None)
             (raw_device "HS1" "8901") (raw_device "HS2" "8902") (raw_device "HS3" "8903"));
      first [discriminate | reflexivity].
  - apply (proj1 (proj2 (listSims_fallback "" server_error "HF1") 1%nat
             "/Fleets/HF1/Sims?PageSize=500"
             ["/Sims?FleetSid=HF1&PageSize=500"; "/Sims?Fleet=HF1&PageSize=500";
              "/fleets/HF1/sims?PageSize=500"; "/sims?FleetSid=HF1&PageSize=500";
              "/sims?fleetSid=HF1&PageSize=500"] [] [])
             (Js.KoreHttpError 500 "KORE API request failed (500)") eq_refl eq_refl).
Defined.

(** C10.  The list of devices is one list for all candidates: when a
    candidate's pages end on a 404 or a 400 after they yielded devices,
    these stay, the listing goes on to the next candidate with them, and
    what it returns in the end starts with them; and there is a
    provider for which the list returned holds the same device twice
    (whatever the fuel, from two pages on). *)
Theorem listSims_accumulates_across_candidates :
  (∀ base koreFetch fleetSid' fuel first rest sims before err,
      let run := pages base koreFetch fleetSid' fuel (Some first) ∅ sims false before in
      ended run = Threw err →
      try_next err = true →
      (∃ more, collected run = sims ++ more)
      ∧ candidates_loop base koreFetch fleetSid' fuel (first :: rest) sims before
        = candidates_loop base koreFetch fleetSid' fuel rest (collected run) (requested run)
      ∧ ∀ found after,
          candidates_loop base koreFetch fleetSid' fuel (first :: rest) sims before
          = (Some (Ok found), after) →
          ∃ more, found = collected run ++ more)
  ∧ (∃ koreFetch found after,
      (∀ fuel,
         listSimsFromKore "https://api.example/v1" plain koreFetch "HF1" (2 + fuel) []
         = (Some (Ok found), after))
      ∧ map sid found = ["HS1"; "HS1"]
      ∧ after = ["/Fleets/HF1/Sims?PageSize=500";
                 "/Fleets/HF1/Sims?PageSize=500&Page=2";
                 "/Sims?FleetSid=HF1&PageSize=500"]).
Proof.
  split.
  - intros base koreFetch fleetSid' fuel first rest sims before err run Hend Hnext.
    exact (candidates_loop_retains base koreFetch fleetSid' fuel first rest sims
             before err Hend Hnext).
  - exists second_page_missing,
      [mkSim "HS1" "8901" None "active" "HF1" None None;
       mkSim "HS1" "8901" None "active" "HF1" None None],
      ["/Fleets/HF1/Sims?PageSize=500"; "/Fleets/HF1/Sims?PageSize=500&Page=2";
       "/Sims?FleetSid=HF1&PageSize=500"].
    split; [intros fuel; reflexivity|]. split; reflexivity.
Qed.

(** The first candidate of [second_page_missing]: HS1 from its first
    page is kept when its second page answers 404. *)
Lemma listSims_accumulates_witness :
  let run := pages "https://api.example/v1" second_page_missing "HF1" 2
               (Some "/Fleets/HF1/Sims?PageSize=500") ∅ [] false [] in
  (∃ more, collected run = [] ++ more)
  ∧ candidates_loop "https://api.example/v1" second_page_missing "HF1" 2
      ["/Fleets/HF1/Sims?PageSize=500"; "/Sims?FleetSid=HF1&PageSize=500"] [] []
    = candidates_loop "https://api.example/v1" second_page_missing "HF1" 2
        ["/Sims?FleetSid=HF1&PageSize=500"] (collected run) (requested run).
Proof.
  destruct (proj1 listSims_accumulates_across_candidates
              "https://api.example/v1" second_page_missing "HF1" 2%nat
              "/Fleets/HF1/Sims?PageSize=500" ["/Sims?FleetSid=HF1&PageSize=500"] [] []
              (Js.KoreHttpError 404 "KORE API request failed (404)")
              eq_refl eq_refl) as (Hkept & Hstep & _).
  split; [exact Hkept | exact Hstep].
Defined.

(** *** C4: the in-flight marker *)

Section TokenFacts.
Variable endpoint : nat → result TokenResponse Js.thrown.
Variable jitter : Z → Z.
Variable describe : KoreAccountSecret → TokenResponse → string.

Local Abbreviation getAccessToken' := (getAccessToken endpoint jitter describe).
Local Abbreviation token_fetch st :=
  (Retry.withRetry (fetch_token endpoint) jitter Retry.default_retries
     Retry.default_baseDelayMs (token_requests st)).

(** A response that is not 2xx: the marker is deleted before the error
    leaves. *)
Lemma getAccessToken_not_ok_clears_marker account now later st response :
  tokenCache st !! clientId account = None →
  tokenInFlight st !! clientId account = None →
  Retry.outcome (token_fetch st) = Ok response →
  ok response = false →
  let call := getAccessToken' account now later st in
  call.1 = Throw (Js.KoreHttpError (http_status response) (describe account response))
  ∧ tokenInFlight call.2 !! clientId account = None.
Proof.
  intros Hcache Hflight Hfetch Hok. unfold getAccessToken.
  rewrite Hcache, Hflight, Hfetch, Hok. simpl.
  split; [reflexivity | apply lookup_delete_eq].
Qed.

(** A rejection of the request itself, once the retries are used up:
    the callback that deletes the marker never runs, the rejected
    promise stays in [tokenInFlight], and every later call, as long as
    the cache holds no token for the tenant, gets that promise: the
    same error, and no request. *)
Lemma getAccessToken_rejection_keeps_marker account now later st reason :
  tokenCache st !! clientId account = None →
  tokenInFlight st !! clientId account = None →
  Retry.outcome (token_fetch st) = Throw reason →
  let call := getAccessToken' account now later st in
  call.1 = Throw reason
  ∧ tokenInFlight call.2 !! clientId account = Some (Rejected reason)
  ∧ ∀ now' later', getAccessToken' account now' later' call.2 = (Throw reason, call.2).
Proof.
  intros Hcache Hflight Hfetch. unfold getAccessToken at 1 2.
  rewrite Hcache, Hflight, Hfetch. simpl.
  split; [reflexivity|]. split; [apply lookup_insert_eq|].
  intros now' later'. unfold getAccessToken. simpl.
  rewrite Hcache, lookup_insert_eq. reflexivity.
Qed.

End TokenFacts.

(** C4.  With the network down for four requests (the first and its
    three retries), the first [getAccessToken] fails with the transport
    error and leaves the rejected promise in [tokenInFlight]; a second
    call, made when the endpoint would answer 200, fails with the same
    error without any request.  After a 401, the marker is gone and the
    second call makes a fresh request and gets the token. *)
Theorem getAccessToken_transport_failure_keeps_marker :
  let down := getAccessToken down_then_up no_jitter token_error tenant in
  let refused := getAccessToken refused_then_up no_jitter token_error tenant in
  let first := down 0%Z 100%Z no_tokens in
  let second := down 60000%Z 60100%Z first.2 in
  let first' := refused 0%Z 100%Z no_tokens in
  let second' := refused 60000%Z 60100%Z first'.2 in
  first.1 = Throw (Js.ErrorMsg "fetch failed")
  ∧ token_requests first.2 = 4%nat
  ∧ tokenInFlight first.2 !! "client-1" = Some (Rejected (Js.ErrorMsg "fetch failed"))
  ∧ down_then_up 4 = Ok token_200
  ∧ second.1 = Throw (Js.ErrorMsg "fetch failed")
  ∧ token_requests second.2 = 4%nat
  ∧ first'.1 = Throw (Js.KoreHttpError 401
                        "Failed to obtain KORE token for Alpha: 401 Unauthorized {}")
  ∧ tokenInFlight first'.2 !! "client-1" = None
  ∧ second'.1 = Ok "tok-1"
  ∧ token_requests second'.2 = 2%nat.
Proof. repeat split; vm_compute; reflexivity. Qed.

End KoreFacts.

(** ** Device sync *)
Module DeviceSyncFacts.
Import DeviceSync.
Local Open Scope string_scope.
Local Open Scope list_scope.

(** *** Facts *)

Section RouteFacts.
Variable decipher : string → string → string → result string Js.thrown.
Variable listSims :
  list (Kore.KoreAccountSecret * string) → Kore.KoreAccountSecret → string →
  result (list Kore.KoreSim) Js.thrown.
Variable upsert : list Upsert.t → Upsert.t → result unit Js.thrown.
Variable jitter : Z → Z.
Variable context : Auth.AuthContext.
Variable fleetFilter : option (list string).

Local Abbreviation sync_fleet' := (sync_fleet listSims upsert jitter).
Local Abbreviation sync_account' :=
  (sync_account decipher listSims upsert jitter context fleetFilter).
Local Abbreviation sync_accounts' :=
  (sync_accounts decipher listSims upsert jitter context fleetFilter).

(** A handler that returns normally is called once, and the loop goes
    on with the next item. *)
Lemma sequentialProcess_from_next {T W}
    (handler : T → nat → W → result unit Js.thrown * W) retries base
    item items index w w' :
  handler item index w = (Ok tt, w') →
  DbUtils.sequentialProcess_from handler jitter retries base (item :: items) index w
  = DbUtils.sequentialProcess_from handler jitter retries base items (S index) w'.
Proof.
  intros Hcall. cbn [DbUtils.sequentialProcess_from].
  rewrite (RetryFacts.withRetry_first_success _ _ _ _ _ _ _ Hcall). reflexivity.
Qed.

(** The handler of the loop over the accounts never throws. *)
Lemma sync_account_returns account index w :
  ∃ w', sync_account' account index w = (Ok tt, w').
Proof.
  unfold sync_account.
  destruct (Crypto.decryptSecret decipher _) as [secret|err]; [|eauto].
  destruct (DbUtils.sequentialProcess _ _ _ _ _ _) as [[[]|err] w']; eauto.
Qed.

Lemma sync_accounts_loop_returns accounts :
  ∀ index w,
  ∃ w', DbUtils.sequentialProcess_from sync_account' jitter
          DbUtils.default_retries DbUtils.default_baseDelayMs accounts index w
        = (Ok tt, w').
Proof.
  induction accounts as [|account accounts IH]; intros index w.
  - exists w. reflexivity.
  - destruct (sync_account_returns account index w) as [w1 H1].
    rewrite (sequentialProcess_from_next _ _ _ _ _ _ _ _ H1). apply IH.
Qed.

End RouteFacts.

End DeviceSyncFacts.

(** * Part II, continued: more properties *)

(** ** Retry: invocations and delays in general *)
Module BackoffFacts.
Import Retry.
Local Open Scope Z_scope.

Section General.
Context {T E W : Type}.
Variable fn : W → result T E * W.
Variable jitter : Z → Z.
Variables retries base : Z.

Lemma after_S k w : after fn (S k) w = (fn (after fn k w)).2.
Proof.
  revert w. induction k as [|k IH]; intros w; [reflexivity|].
  change (after fn (S (S k)) w) with (after fn (S k) (fn w).2).
  rewrite IH. reflexivity.
Qed.

(** The loop entered at [attempt] with the budget that [withRetry]
    maintains: it makes [k] invocations, between 1 and [budget + 1]; the
    first [k - 1] fail, the last one decides; it gives up only with the
    budget used up; and it sleeps the delays of the attempts
    [attempt + 1 .. attempt + k - 1]. *)
Lemma withRetry_loop_general budget :
  ∀ attempt w n slept,
    0 ≤ attempt →
    budget = Z.to_nat (retries - attempt) →
    let r := withRetry_loop fn jitter retries base budget attempt w n slept in
    ∃ k : nat,
      (1 ≤ k ≤ budget + 1)%nat
      ∧ calls r = (n + k)%nat
      ∧ final r = after fn k w
      ∧ outcome r = (fn (after fn (k - 1) w)).1
      ∧ (∀ j, (j < k - 1)%nat → is_Ok (fn (after fn j w)).1 = false)
      ∧ (is_Ok (outcome r) = false → k = (budget + 1)%nat)
      ∧ sleeps r
        = slept ++ map (λ a : nat, base * 2 ^ (Z.of_nat a - 1) + jitter (Z.of_nat a))
                     (seq (S (Z.to_nat attempt)) (k - 1)).
Proof.
  induction budget as [|b IH]; intros attempt w n slept Hatt Hb; simpl.
  - destruct (fn w) as [[v|e] w'] eqn:Hf.
    + exists 1%nat. simpl. rewrite Hf, app_nil_r. simpl.
      repeat split; intros; try lia; try discriminate; try reflexivity.
    + assert (Hgt : (attempt + 1 >? retries) = true)
        by (rewrite Z.gtb_ltb; apply Z.ltb_lt; lia).
      rewrite Hgt. exists 1%nat. simpl. rewrite Hf, app_nil_r. simpl.
      repeat split; intros; try lia; try discriminate; try reflexivity.
  - destruct (fn w) as [[v|e] w'] eqn:Hf.
    + exists 1%nat. simpl. rewrite Hf, app_nil_r. simpl.
      repeat split; intros; try lia; try discriminate; try reflexivity.
    + assert (Hgt : (attempt + 1 >? retries) = false)
        by (rewrite Z.gtb_ltb; apply Z.ltb_ge; lia).
      rewrite Hgt.
      destruct (IH (attempt + 1) w' (S n)
                  (slept ++ [base * 2 ^ (attempt + 1 - 1) + jitter (attempt + 1)]))
        as (k & Hk & Hcalls & Hfinal & Hout & Hfail & Hgive & Hsleep); [lia|lia|].
      exists (S k).
      assert (Hw' : w' = (fn w).2) by (rewrite Hf; reflexivity).
      split; [lia|]. split; [rewrite Hcalls; lia|].
      split; [rewrite Hfinal, Hw'; reflexivity|].
      split.
      { rewrite Hout. destruct k as [|k]; [lia|].
        simpl. rewrite Nat.sub_0_r, Hw'. reflexivity. }
      split.
      { intros j Hj. destruct j as [|j]; [simpl; rewrite Hf; reflexivity|].
        simpl. rewrite <- Hw'. apply Hfail. lia. }
      split; [intros Hno; rewrite (Hgive Hno); lia|].
      rewrite Hsleep, <- app_assoc. f_equal.
      destruct k as [|k]; [lia|].
      replace (S (S k) - 1)%nat with (S k) by lia.
      replace (S k - 1)%nat with k by lia.
      cbn [seq map app]. f_equal.
      * f_equal; [f_equal; f_equal; lia | f_equal; lia].
      * f_equal. f_equal. lia.
Qed.

(** The invocations [withRetry] makes, for the proofs about its
    callers. *)
Lemma withRetry_calls w :
  let r := withRetry fn jitter retries base w in
  (1 ≤ calls r ≤ Z.to_nat retries + 1)%nat
  ∧ final r = after fn (calls r) w
  ∧ outcome r = (fn (after fn (calls r - 1) w)).1
  ∧ (is_Ok (outcome r) = false → calls r = (Z.to_nat retries + 1)%nat).
Proof.
  intros r.
  destruct (withRetry_loop_general (Z.to_nat retries) 0 w O [])
    as (k & Hk & Hcalls & Hfinal & Hout & _ & Hgive & _); [lia|f_equal; lia|].
  fold r in Hcalls, Hfinal, Hout, Hgive.
  assert (Hkk : calls r = k) by exact Hcalls. rewrite Hkk.
  repeat split; try lia; assumption.
Qed.

(** X1.  [withRetry], for every operation and every [retries] (negative ones
    included): it invokes the operation between 1 and [retries + 1]
    times; every invocation but the last failed and the last one is
    what it returns or re-throws; it re-throws only after all
    [retries + 1] invocations.  Where the delays are integers that a
    JavaScript number holds exactly (all below 2^53), it sleeps
    [base * 2 ^ (attempt - 1)] plus the jitter between consecutive
    invocations, for [attempt] = 1, 2, ... *)
Theorem withRetry_invocations_and_delays w :
  let r := withRetry fn jitter retries base w in
  let k := calls r in
  (1 ≤ k ≤ Z.to_nat retries + 1)%nat
  ∧ final r = after fn k w
  ∧ outcome r = (fn (after fn (k - 1) w)).1
  ∧ (∀ j, (j < k - 1)%nat → is_Ok (fn (after fn j w)).1 = false)
  ∧ (is_Ok (outcome r) = false → k = (Z.to_nat retries + 1)%nat)
  ∧ (Backoff.exact base jitter retries →
     sleeps r = Backoff.delays base jitter (k - 1)
     ∧ Forall (λ delay, 0 ≤ delay < 2 ^ 53) (sleeps r)).
Proof.
  intros r k.
  destruct (withRetry_loop_general (Z.to_nat retries) 0 w O [])
    as (k' & Hk & Hcalls & Hfinal & Hout & Hfail & Hgive & Hsleep); [lia|f_equal; lia|].
  fold r in Hcalls, Hfinal, Hout, Hfail, Hgive, Hsleep.
  assert (Hkk : k = k') by exact Hcalls. clearbody k. subst k'.
  refine (conj _ (conj Hfinal (conj Hout (conj Hfail (conj Hgive _))))); [lia|].
  intros (Hbase & Hjitter & Hlargest).
  assert (Hdelays : sleeps r = Backoff.delays base jitter (k - 1)) by exact Hsleep.
  split; [exact Hdelays|].
  rewrite Hdelays. unfold Backoff.delays. apply Forall_forall. intros delay Hin.
  apply list_elem_of_fmap in Hin as (a & -> & Ha).
  apply list_elem_of_In, in_seq in Ha.
  specialize (Hjitter (Z.of_nat a)).
  assert (Hpow : 2 ^ (Z.of_nat a - 1) ≤ 2 ^ (retries - 1))
    by (apply Z.pow_le_mono_r; lia).
  assert (0 < 2 ^ (Z.of_nat a - 1)) by (apply Z.pow_pos_nonneg; lia).
  nia.
Qed.

End General.

(** Three retries from 500 ms: the delays are 500, 1000 and 2000 ms. *)
Lemma withRetry_delays_witness :
  sleeps (withRetry failing_counter (λ _, 0) 3 500 O) = [500; 1000; 2000].
Proof.
  apply (proj2 (proj2 (proj2 (proj2 (proj2
           (withRetry_invocations_and_delays failing_counter (λ _, 0) 3 500 O)))))).
  split; [lia|]. split; [intros attempt; lia | reflexivity].
Defined.
End BackoffFacts.

(** ** The rate limiter: what a window lets through *)
Module RateLimitRunsFacts.
Import RateLimit RateLimitRuns.
Local Open Scope Z_scope.

(** In a window that is active at every one of the [times] and holds
    [m >= 0] tokens, the first [m] calls pass and the others throw; no
    other key's bucket changes. *)
Lemma enforce_each_active key limit windowMs times :
  ∀ (store : Store) m reset,
    store !! key = Some (mkBucket m reset) →
    0 ≤ m →
    Forall (λ t, t < reset) times →
    let run := enforce_each key limit windowMs times store in
    run.1 = replicate (Nat.min (List.length times) (Z.to_nat m)) (Ok tt)
            ++ replicate (List.length times - Z.to_nat m) (Throw RateLimitExceeded)
    ∧ ∀ other, other ≠ key → run.2 !! other = store !! other.
Proof.
  induction times as [|t times IH]; intros store m reset Hb Hm Hall; simpl.
  - split; [reflexivity | intros; reflexivity].
  - apply Forall_cons in Hall as [Ht Hall].
    rewrite (RateLimitFacts.enforceRateLimit_active _ _ _ _ _ _ Hb Ht). simpl.
    destruct (m <=? 0) eqn:Hle.
    + apply Z.leb_le in Hle. assert (m = 0) by lia. subst m.
      destruct (IH store 0 reset Hb Hm Hall) as [Hout Hother].
      destruct (enforce_each key limit windowMs times store) as [rs store'].
      simpl in *. rewrite Hout. split; [|exact Hother].
      rewrite Nat.min_0_r, Nat.sub_0_r. reflexivity.
    + apply Z.leb_gt in Hle.
      destruct (IH (<[key := mkBucket (m - 1) reset]> store) (m - 1) reset)
        as [Hout Hother]; [apply lookup_insert_eq | lia | exact Hall |].
      destruct (enforce_each key limit windowMs times _) as [rs store'].
      simpl in *. rewrite Hout. split.
      * replace (Z.to_nat m) with (S (Z.to_nat (m - 1))) by lia. reflexivity.
      * intros other Hne. rewrite (Hother other Hne).
        apply lookup_insert_ne. congruence.
Qed.

(** X2.  A window takes [limit] calls and no more: from a store with no
    active window for the key at [t0], and with [limit >= 1], of the
    calls made at [t0] and then at [times], all before [t0 + windowMs],
    the first [limit] pass and all the later ones throw; and the calls
    change no bucket but the key's. *)
Theorem enforceRateLimit_window_capacity key limit windowMs t0 times (store : Store) :
  no_active_window store key t0 →
  1 ≤ limit →
  Forall (λ t, t < t0 + windowMs) times →
  let run := enforce_each key limit windowMs (t0 :: times) store in
  run.1 = replicate (Nat.min (S (List.length times)) (Z.to_nat limit)) (Ok tt)
          ++ replicate (S (List.length times) - Z.to_nat limit) (Throw RateLimitExceeded)
  ∧ ∀ other, other ≠ key → run.2 !! other = store !! other.
Proof.
  intros Hnew Hlimit Hall. simpl.
  rewrite (RateLimitFacts.enforceRateLimit_new_window _ _ _ _ _ Hnew).
  destruct (enforce_each_active key limit windowMs times
              (<[key := mkBucket (limit - 1) (t0 + windowMs)]> store)
              (limit - 1) (t0 + windowMs)) as [Hout Hother];
    [apply lookup_insert_eq | lia | exact Hall |].
  destruct (enforce_each key limit windowMs times _) as [rs store'].
  simpl in *. rewrite Hout. split.
  - replace (Z.to_nat limit) with (S (Z.to_nat (limit - 1))) by lia. reflexivity.
  - intros other Hne. rewrite (Hother other Hne).
    apply lookup_insert_ne. congruence.
Qed.

(** Five calls within one window of limit 3, while another key holds a
    bucket. *)
Lemma enforceRateLimit_window_capacity_witness :
  let store : Store := {["other" := mkBucket 7 50]} in
  let run := enforce_each "k" 3 1000 [0; 10; 20; 500; 999] store in
  run.1 = [Ok tt; Ok tt; Ok tt; Throw RateLimitExceeded; Throw RateLimitExceeded]
  ∧ run.2 !! "other" = Some (mkBucket 7 50).
Proof.
  destruct (enforceRateLimit_window_capacity "k" 3 1000 0 [10; 20; 500; 999]
              {["other" := mkBucket 7 50]}) as [Hout Hother].
  - reflexivity.
  - lia.
  - repeat constructor.
  - split; [exact Hout|]. rewrite (Hother "other"); [reflexivity | discriminate].
Defined.

End RateLimitRunsFacts.

(** ** Secrets: encryption and decryption together *)
Module CryptoSealFacts.
Import Crypto CryptoSeal.
Local Open Scope string_scope.

Lemma split_on_free c s : free_of c s = true → Js.split_on c s = [s].
Proof.
  induction s as [|c' s IH]; simpl; [reflexivity|].
  intros H. apply andb_true_iff in H as [Hc Hs].
  apply negb_true_iff in Hc. rewrite Hc, (IH Hs). reflexivity.
Qed.

Lemma split_on_app c s rest :
  free_of c s = true →
  Js.split_on c (s ++ String c rest) = s :: Js.split_on c rest.
Proof.
  induction s as [|c' s IH]; simpl.
  - intros _. rewrite Ascii.eqb_refl. reflexivity.
  - intros H. apply andb_true_iff in H as [Hc Hs].
    apply negb_true_iff in Hc. rewrite Hc, (IH Hs). reflexivity.
Qed.

Lemma free_of_app c s t :
  free_of c (s ++ t) = free_of c s && free_of c t.
Proof.
  induction s as [|c' s IH]; simpl; [reflexivity|].
  rewrite IH, andb_assoc. reflexivity.
Qed.

Lemma hex_digit_not_dot n : nth n hex_digits "0"%char ≠ "."%char.
Proof.
  do 16 (destruct n as [|n]; [discriminate|]).
  simpl. destruct n; discriminate.
Qed.

(** Hexadecimal text has no dot, and is empty only for no bytes. *)
Lemma hex_free_of_dot bytes : free_of "." (hex bytes) = true.
Proof.
  induction bytes as [|b bytes IH]; [reflexivity|].
  cbn [hex]. rewrite free_of_app, IH, andb_true_r.
  unfold hex_of_byte. cbn [free_of].
  rewrite !(proj2 (Ascii.eqb_neq _ _) (hex_digit_not_dot _)). reflexivity.
Qed.

Lemma hex_truthy bytes :
  Js.truthy (Some (hex bytes)) = negb (bool_decide (bytes = [])).
Proof.
  destruct bytes as [|b bytes]; [reflexivity|].
  rewrite (bool_decide_eq_false_2 (b :: bytes = [])) by discriminate.
  reflexivity.
Qed.

Section RoundTrip.
Variable seal : list Byte.byte → string → list Byte.byte * list Byte.byte.
Variable decipher : string → string → string → result string Js.thrown.

(** What [decryptSecret] does with what [encryptSecret] wrote: it
    finds the three fields again, and hands them to the cipher unless
    one of them is empty. *)
Lemma decryptSecret_of_encryptSecret iv value encrypted authTag :
  seal iv value = (encrypted, authTag) →
  decryptSecret decipher (encryptSecret seal iv value)
  = if bool_decide (iv = []) || bool_decide (encrypted = []) || bool_decide (authTag = [])
    then Throw (Js.ErrorMsg malformed)
    else decipher (hex iv) (hex encrypted) (hex authTag).
Proof.
  intros Hseal. unfold decryptSecret, encryptSecret. rewrite Hseal.
  change (hex iv ++ "." ++ hex encrypted ++ "." ++ hex authTag)
    with (hex iv ++ String "." (hex encrypted ++ String "." (hex authTag))).
  rewrite (split_on_app _ _ _ (hex_free_of_dot iv)).
  rewrite (split_on_app _ _ _ (hex_free_of_dot encrypted)).
  rewrite (split_on_free _ _ (hex_free_of_dot authTag)).
  cbn [lookup list_lookup]. simpl lookup.
  rewrite !hex_truthy, !negb_involutive. reflexivity.
Qed.

(** X3.  Round trip: when the cipher text is not empty (and neither are the
    nonce and the tag), and the cipher opens what it sealed,
    [decryptSecret (encryptSecret value)] is [value]. *)
Theorem decryptSecret_encryptSecret_round_trip iv value encrypted authTag :
  seal iv value = (encrypted, authTag) →
  iv ≠ [] → encrypted ≠ [] → authTag ≠ [] →
  decipher (hex iv) (hex encrypted) (hex authTag) = Ok value →
  decryptSecret decipher (encryptSecret seal iv value) = Ok value.
Proof.
  intros Hseal Hiv Henc Htag Hopen.
  rewrite (decryptSecret_of_encryptSecret _ _ _ _ Hseal).
  rewrite !bool_decide_eq_false_2 by assumption. exact Hopen.
Qed.

(** X4.  The edge: a value whose cipher text has no byte (with AES-GCM, the
    empty secret) is written as [iv..tag], which [decryptSecret]
    refuses as malformed, whatever the cipher would say. *)
Theorem decryptSecret_refuses_empty_cipher_text iv value authTag :
  seal iv value = ([], authTag) →
  decryptSecret decipher (encryptSecret seal iv value)
  = Throw (Js.ErrorMsg malformed).
Proof.
  intros Hseal. rewrite (decryptSecret_of_encryptSecret _ _ _ _ Hseal).
  rewrite (bool_decide_eq_true_2 ([] = [])) by reflexivity.
  rewrite orb_true_r. reflexivity.
Qed.

End RoundTrip.
End CryptoSealFacts.

(** ** Secrets: the concrete cases *)
Module CryptoToyFacts.
Import Crypto CryptoSeal CryptoToy.
Local Open Scope string_scope.

Lemma decryptSecret_encryptSecret_round_trip_witness :
  encryptSecret toy_seal nonce12 "s3cret" = "000102030405060708090a0b.733363726574.a7"
  ∧ decryptSecret toy_open (encryptSecret toy_seal nonce12 "s3cret") = Ok "s3cret".
Proof.
  split; [reflexivity|].
  apply (CryptoSealFacts.decryptSecret_encryptSecret_round_trip toy_seal toy_open
           nonce12 "s3cret" _ [Byte.xa7] eq_refl); [discriminate..|reflexivity].
Defined.

Lemma decryptSecret_refuses_empty_cipher_text_witness :
  encryptSecret toy_seal nonce12 "" = "000102030405060708090a0b..a7"
  ∧ decryptSecret toy_open (encryptSecret toy_seal nonce12 "")
    = Throw (Js.ErrorMsg malformed).
Proof.
  split; [reflexivity|].
  apply (CryptoSealFacts.decryptSecret_refuses_empty_cipher_text toy_seal toy_open
           nonce12 "" [Byte.xa7] eq_refl).
Defined.

End CryptoToyFacts.

(** ** [chunkArray] *)
Module ChunkFacts.
Import Chunk.
Local Open Scope Z_scope.

Section Chunks.
Context {T : Type}.
Variable items : list T.
Variable size : Z.

(** From an index inside the array, a slice of [size >= 1] elements is
    the next [size] elements, or the fewer that are left. *)
Lemma js_slice_next i :
  0 ≤ i → 1 ≤ size →
  js_slice items i (i + size) = take (Z.to_nat size) (drop (Z.to_nat i) items).
Proof.
  intros Hi Hsize. unfold js_slice.
  rewrite (proj2 (Z.ltb_ge i 0)) by lia.
  rewrite (proj2 (Z.ltb_ge (i + size) 0)) by lia.
  destruct (Z.le_gt_cases (i + size) (Z.of_nat (List.length items))) as [Hin|Hout].
  - rewrite (Z.min_l (i + size)), (Z.min_l i) by lia.
    f_equal. lia.
  - rewrite (Z.min_r (i + size)) by lia.
    destruct (Z.le_gt_cases i (Z.of_nat (List.length items))) as [Hi'|Hi'].
    + rewrite (Z.min_l i) by lia.
      rewrite !take_ge; [reflexivity | |]; rewrite length_drop; lia.
    + rewrite (Z.min_r i) by lia.
      rewrite !drop_ge by lia. rewrite !take_nil. reflexivity.
Qed.

(** The loop, entered at [i] with the chunks of the first [i]
    elements: with enough fuel it ends, and adds chunks that make up
    the rest of the array, each of 1 to [size] elements and each but
    the last of [size]. *)
Lemma chunk_loop_rest fuel :
  1 ≤ size →
  ∀ i chunks,
    0 ≤ i →
    (Z.to_nat (Z.of_nat (List.length items) - i) ≤ fuel)%nat →
    ∃ more,
      chunk_loop fuel items size i chunks = Some (chunks ++ more)
      ∧ List.concat more = drop (Z.to_nat i) items
      ∧ Forall (λ c, (1 ≤ List.length c ≤ Z.to_nat size)%nat) more
      ∧ ∀ j c, more !! j = Some c → (S j < List.length more)%nat →
               List.length c = Z.to_nat size.
Proof.
  intros Hsize. induction fuel as [|fuel IH]; intros i chunks Hi Hfuel.
  - exists []. cbn [chunk_loop].
    rewrite (proj2 (Z.ltb_ge i _)) by lia.
    rewrite app_nil_r, drop_ge by lia.
    repeat split; [constructor | intros j c Hj; inversion Hj].
  - cbn [chunk_loop].
    destruct (i <? Z.of_nat (List.length items)) eqn:Hlt.
    + apply Z.ltb_lt in Hlt.
      destruct (IH (i + size) (chunks ++ [js_slice items i (i + size)]))
        as (more & Hrun & Hcat & Hall & Hfull); [lia | lia |].
      rewrite js_slice_next in Hrun by lia.
      rewrite js_slice_next by lia.
      exists (take (Z.to_nat size) (drop (Z.to_nat i) items) :: more).
      split; [rewrite Hrun, <- app_assoc; reflexivity|].
      split.
      { cbn [List.concat]. rewrite Hcat.
        replace (Z.to_nat (i + size)) with (Z.to_nat i + Z.to_nat size)%nat by lia.
        rewrite <- drop_drop. apply take_drop. }
      split.
      { constructor; [|exact Hall].
        rewrite length_take, length_drop. lia. }
      intros [|j] c Hc Hlast.
      * injection Hc as <-. rewrite length_take, length_drop.
        destruct (Z.le_gt_cases (Z.of_nat (List.length items)) (i + size)) as [Hend|Hmid];
          [|lia].
        exfalso. destruct fuel as [|fuel'];
          cbn [chunk_loop] in Hrun;
          rewrite (proj2 (Z.ltb_ge (i + size) _)) in Hrun by lia;
          injection Hrun as Hrun;
          rewrite <- (app_nil_r (chunks ++ _)) in Hrun at 1;
          apply app_inv_head in Hrun; subst more; simpl in Hlast; lia.
      * apply (Hfull j c Hc). simpl in Hlast. lia.
    + apply Z.ltb_ge in Hlt. exists [].
      rewrite app_nil_r, drop_ge by lia.
      repeat split; [constructor | intros j c Hj; inversion Hj].
Qed.

(** X5.  For [size >= 1], [chunkArray] ends within [items.length]
    iterations, and its chunks, put end to end, are the array; no chunk
    is empty or longer than [size], and all but the last have exactly
    [size] elements. *)
Theorem chunkArray_partitions fuel :
  1 ≤ size →
  (List.length items ≤ fuel)%nat →
  ∃ chunks,
    chunkArray fuel items size = Some chunks
    ∧ List.concat chunks = items
    ∧ Forall (λ c, (1 ≤ List.length c ≤ Z.to_nat size)%nat) chunks
    ∧ ∀ j c, chunks !! j = Some c → (S j < List.length chunks)%nat →
             List.length c = Z.to_nat size.
Proof.
  intros Hsize Hfuel.
  destruct (chunk_loop_rest fuel Hsize 0 []) as (more & Hrun & Hrest); [lia | lia |].
  exists more. split; [exact Hrun | exact Hrest].
Qed.

(** X6.  For [size <= 0] and an array that is not empty, the index never
    passes the end of the array: the loop does not end, whatever the
    fuel. *)
Theorem chunkArray_never_ends fuel :
  size ≤ 0 →
  items ≠ [] →
  chunkArray fuel items size = None.
Proof.
  intros Hsize Hitems. unfold chunkArray.
  assert (Hlen : 0 < Z.of_nat (List.length items))
    by (destruct items; [congruence | simpl; lia]).
  assert (H : ∀ i chunks, i ≤ 0 → chunk_loop fuel items size i chunks = None).
  { induction fuel as [|fuel' IH]; intros i chunks Hi; cbn [chunk_loop];
      rewrite (proj2 (Z.ltb_lt i _)) by lia; [reflexivity|].
    apply IH. lia. }
  apply H. lia.
Qed.

End Chunks.

Lemma chunkArray_partitions_witness :
  chunkArray 7 [1; 2; 3; 4; 5; 6; 7] 3 = Some [[1; 2; 3]; [4; 5; 6]; [7]]
  ∧ ∃ chunks, chunkArray 7 [1; 2; 3; 4; 5; 6; 7] 3 = Some chunks
              ∧ List.concat chunks = [1; 2; 3; 4; 5; 6; 7].
Proof.
  split; [reflexivity|].
  destruct (chunkArray_partitions [1; 2; 3; 4; 5; 6; 7] 3 7%nat)
    as (chunks & Hrun & Hcat & _); [lia | simpl; lia |].
  exists chunks. split; [exact Hrun | exact Hcat].
Defined.

Lemma chunkArray_never_ends_witness :
  chunkArray 1000 [1; 2; 3] 0 = None ∧ chunkArray 1000 [1; 2; 3] (-2) = None.
Proof.
  split.
  - apply (chunkArray_never_ends [1; 2; 3] 0 1000%nat); [lia | discriminate].
  - apply (chunkArray_never_ends [1; 2; 3] (-2) 1000%nat); [lia | discriminate].
Defined.

End ChunkFacts.

(** ** [sequentialProcess]: order, indices and where it stops *)
Module SequentialFacts.
Import DbUtils Sequential.

Section InOrder.
Context {T St : Type}.
Variable handler : T → nat → St → result unit Js.thrown * St.
Variable jitter : Z → Z.
Variables retries base : Z.

Local Abbreviation run_from :=
  (sequentialProcess_from (logged handler) jitter retries base).

Lemma logged_after item index k log s :
  (Retry.after (logged handler item index) k (log, s)).1
  = log ++ replicate k (item, index).
Proof.
  revert log s. induction k as [|k IH]; intros log s; simpl.
  - symmetry. apply app_nil_r.
  - rewrite IH, <- app_assoc. reflexivity.
Qed.

Lemma run_from_all_succeed items :
  (∀ item index s, is_Ok (handler item index s).1 = true) →
  ∀ index log s,
  ∃ s', run_from items index (log, s)
        = (Ok tt, (log ++ zip items (seq index (List.length items)), s')).
Proof.
  intros Hok. induction items as [|item items IH]; intros index log s.
  - exists s. simpl. rewrite app_nil_r. reflexivity.
  - cbn [sequentialProcess_from].
    assert (Hcall : logged handler item index (log, s)
                    = (Ok tt, (log ++ [(item, index)], (handler item index s).2))).
    { unfold logged. simpl. specialize (Hok item index s).
      destruct (handler item index s).1 as [[]|e]; [reflexivity | discriminate]. }
    rewrite (RetryFacts.withRetry_first_success _ _ _ _ _ _ _ Hcall). simpl.
    destruct (IH (S index) (log ++ [(item, index)]) (handler item index s).2)
      as [s' Hrun].
    exists s'. rewrite Hrun, <- app_assoc. reflexivity.
Qed.

Lemma run_from_stops pre :
  ∀ item post index log s,
    (∀ x index s, x ∈ pre → is_Ok (handler x index s).1 = true) →
    (∀ index s, is_Ok (handler item index s).1 = false) →
    ∃ e s', run_from (pre ++ item :: post) index (log, s)
            = (Throw e,
               (log ++ zip pre (seq index (List.length pre))
                    ++ replicate (Z.to_nat retries + 1) (item, (index + List.length pre)%nat),
                s')).
Proof.
  induction pre as [|x pre IH]; intros item post index log s Hpre Hitem.
  - cbn [app sequentialProcess_from].
    pose proof (BackoffFacts.withRetry_calls
                  (logged handler item index) jitter retries base (log, s))
      as (Hk & Hfinal & Hout & Hgive).
    set (r := Retry.withRetry (logged handler item index) jitter retries base (log, s)) in *.
    assert (Hfail : is_Ok (Retry.outcome r) = false).
    { rewrite Hout. unfold logged at 1. simpl. apply Hitem. }
    rewrite (Hgive Hfail) in Hfinal.
    destruct (Retry.outcome r) as [v|e]; [discriminate|].
    exists e, (Retry.final r).2. f_equal.
    rewrite (surjective_pairing (Retry.final r)). f_equal.
    rewrite Hfinal, logged_after. simpl. rewrite Nat.add_0_r. reflexivity.
  - cbn [app sequentialProcess_from].
    assert (Hcall : logged handler x index (log, s)
                    = (Ok tt, (log ++ [(x, index)], (handler x index s).2))).
    { unfold logged. simpl. specialize (Hpre x index s (list_elem_of_here _ _)).
      destruct (handler x index s).1 as [[]|e]; [reflexivity | discriminate]. }
    rewrite (RetryFacts.withRetry_first_success _ _ _ _ _ _ _ Hcall). simpl.
    destruct (IH item post (S index) (log ++ [(x, index)]) (handler x index s).2)
      as (e & s' & Hrun); [|exact Hitem|].
    { intros y i s0 Hy. apply Hpre. apply list_elem_of_further. exact Hy. }
    exists e, s'. rewrite Hrun. f_equal. f_equal.
    rewrite <- !app_assoc. simpl.
    replace (index + S (List.length pre))%nat with (S (index + List.length pre)) by lia.
    reflexivity.
Qed.

(** X7.  [sequentialProcess] calls its handler on the items in the order of
    the array, each with its own index: when every call succeeds, each
    item is handled exactly once; when the calls for one item all fail,
    the items before it have been handled once, this item
    [retries + 1] times, the items after it not at all, and the error
    leaves the loop. *)
Theorem sequentialProcess_in_order_until_failure :
  (∀ items log s,
      (∀ item index s, is_Ok (handler item index s).1 = true) →
      ∃ s', sequentialProcess (logged handler) jitter retries base items (log, s)
            = (Ok tt, (log ++ zip items (seq 0 (List.length items)), s')))
  ∧ (∀ pre item post log s,
      (∀ x index s, x ∈ pre → is_Ok (handler x index s).1 = true) →
      (∀ index s, is_Ok (handler item index s).1 = false) →
      ∃ e s', sequentialProcess (logged handler) jitter retries base
                (pre ++ item :: post) (log, s)
              = (Throw e,
                 (log ++ zip pre (seq 0 (List.length pre))
                      ++ replicate (Z.to_nat retries + 1) (item, List.length pre),
                  s'))).
Proof.
  split.
  - intros items log s Hok. apply (run_from_all_succeed items Hok O log s).
  - intros pre item post log s Hpre Hitem.
    apply (run_from_stops pre item post O log s Hpre Hitem).
Qed.

End InOrder.

(** A handler that fails on the item 3 only. *)
Lemma sequentialProcess_in_order_witness :
  let handler (item : Z) (index : nat) (s : unit) : result unit Js.thrown * unit :=
    (if bool_decide (item = 3%Z) then Throw (Js.ErrorMsg "three") else Ok tt, tt) in
  (∃ s', sequentialProcess (logged (λ (item : Z) (index : nat) (s : unit), (Ok tt, tt)))
           (λ _, 0%Z) 4 250 [7; 8; 9]%Z ([], tt)
         = (Ok tt, ([] ++ zip [7; 8; 9]%Z (seq 0 3), s')))
  ∧ (∃ e s', sequentialProcess (logged handler) (λ _, 0%Z) 4 250
               ([1; 2] ++ 3 :: [4; 5])%Z ([], tt)
             = (Throw e,
                ([] ++ zip [1; 2]%Z (seq 0 2)
                    ++ replicate (Z.to_nat 4 + 1) (3%Z, 2%nat), s'))).
Proof.
  intros handler. split.
  - apply (proj1 (sequentialProcess_in_order_until_failure
             (λ (item : Z) (index : nat) (s : unit), (Ok tt, tt)) (λ _, 0%Z) 4 250)
             [7; 8; 9]%Z [] tt).
    reflexivity.
  - apply (proj2 (sequentialProcess_in_order_until_failure handler (λ _, 0%Z) 4 250)
             [1; 2]%Z 3%Z [4; 5]%Z [] tt).
    + intros x index s Hx.
      apply elem_of_cons in Hx as [->|Hx]; [reflexivity|].
      apply elem_of_cons in Hx as [->|Hx]; [reflexivity|].
      inversion Hx.
    + reflexivity.
Defined.

End SequentialFacts.

(** ** The provider client: tokens, requests, URLs *)
Module KoreClientFacts.
Import Kore KoreClient.
Local Open Scope string_scope.
Local Open Scope list_scope.

Section Tokens.
Variable endpoint : nat → result TokenResponse Js.thrown.
Variable jitter : Z → Z.
Variable describe : KoreAccountSecret → TokenResponse → string.

Local Abbreviation getAccessToken' := (getAccessToken endpoint jitter describe).
Local Abbreviation token_fetch st :=
  (Retry.withRetry (fetch_token endpoint) jitter Retry.default_retries
     Retry.default_baseDelayMs (token_requests st)).

Lemma fetch_token_after k n : Retry.after (fetch_token endpoint) k n = (n + k)%nat.
Proof.
  revert n. induction k as [|k IH]; intros n; simpl; [lia|].
  rewrite IH. lia.
Qed.

(** Every fetch of a token sends at least one request. *)
Lemma token_fetch_requests st :
  (token_requests st < Retry.final (token_fetch st))%nat.
Proof.
  pose proof (BackoffFacts.withRetry_calls (fetch_token endpoint)
                jitter Retry.default_retries Retry.default_baseDelayMs
                (token_requests st)) as (Hk & Hfinal & _).
  rewrite Hfinal, fetch_token_after. lia.
Qed.

(** With no good token in the cache, the call goes to the in-flight
    map and then to the endpoint. *)
Lemma getAccessToken_uncached account now later st :
  cached_token st (clientId account) now = None →
  tokenInFlight st !! clientId account = None →
  getAccessToken' account now later st
  = match Retry.outcome (token_fetch st) with
    | Throw reason =>
        (Throw reason,
         mkTokenState (tokenCache st)
           (<[clientId account := Rejected reason]> (tokenInFlight st))
           (Retry.final (token_fetch st)))
    | Ok response =>
        if negb (ok response) then
          (Throw (Js.KoreHttpError (http_status response) (describe account response)),
           mkTokenState (tokenCache st)
             (delete (clientId account)
                (<[clientId account :=
                     Rejected (Js.KoreHttpError (http_status response)
                                 (describe account response))]> (tokenInFlight st)))
             (Retry.final (token_fetch st)))
        else
          match json response with
          | Throw reason =>
              (Throw reason,
               mkTokenState (tokenCache st)
                 (<[clientId account := Rejected reason]> (tokenInFlight st))
                 (Retry.final (token_fetch st)))
          | Ok data =>
              (Ok (access_token data),
               mkTokenState
                 (<[clientId account :=
                      mkEntry (access_token data)
                        (later + default 3600%Z (expires_in data) * 1000)%Z]>
                    (tokenCache st))
                 (delete (clientId account)
                    (<[clientId account := Fulfilled (access_token data)]>
                       (tokenInFlight st)))
                 (Retry.final (token_fetch st)))
          end
    end.
Proof.
  intros Hcache Hflight. unfold getAccessToken, cached_token in *.
  rewrite Hflight.
  destruct (tokenCache st !! clientId account) as [entry|]; [|reflexivity].
  destruct (expiresAt entry >? now + 10000)%Z; [discriminate | reflexivity].
Qed.

(** X8.  The cache: after a call that fetched a token, every call made more
    than 10 s before the token expires returns it without any request
    and without touching the state; a call made later than that sends
    a request again. *)
Theorem getAccessToken_serves_from_cache account now later st response data :
  cached_token st (clientId account) now = None →
  tokenInFlight st !! clientId account = None →
  Retry.outcome (token_fetch st) = Ok response →
  ok response = true →
  json response = Ok data →
  let call := getAccessToken' account now later st in
  let expiry := (later + default 3600 (expires_in data) * 1000)%Z in
  call.1 = Ok (access_token data)
  ∧ tokenInFlight call.2 !! clientId account = None
  ∧ (∀ now' later', (now' + 10000 < expiry)%Z →
       getAccessToken' account now' later' call.2 = (Ok (access_token data), call.2))
  ∧ (∀ now' later', (expiry ≤ now' + 10000)%Z →
       (token_requests call.2
        < token_requests (getAccessToken' account now' later' call.2).2)%nat).
Proof.
  intros Hcache Hflight Hfetch Hok Hjson call expiry.
  assert (Hcall : call
    = (Ok (access_token data),
       mkTokenState
         (<[clientId account := mkEntry (access_token data) expiry]> (tokenCache st))
         (delete (clientId account)
            (<[clientId account := Fulfilled (access_token data)]> (tokenInFlight st)))
         (Retry.final (token_fetch st)))).
  { subst call. rewrite (getAccessToken_uncached _ _ _ _ Hcache Hflight).
    rewrite Hfetch, Hok, Hjson. reflexivity. }
  rewrite Hcall. cbn [fst snd].
  set (st1 := mkTokenState _ _ _).
  split; [reflexivity|]. split; [apply lookup_delete_eq|]. split.
  - intros now' later' Hgood. unfold getAccessToken.
    cbn [st1 tokenCache]. rewrite lookup_insert_eq. cbn [expiresAt token].
    rewrite (proj2 (Z.gtb_lt _ _)) by lia. reflexivity.
  - intros now' later' Hstale.
    rewrite (getAccessToken_uncached account now' later' st1).
    + pose proof (token_fetch_requests st1) as Hmore.
      destruct (Retry.outcome (token_fetch st1)) as [resp|reason];
        [destruct (negb (ok resp)); [|destruct (json resp)]|];
        cbn [snd token_requests]; exact Hmore.
    + unfold cached_token. cbn [st1 tokenCache]. rewrite lookup_insert_eq.
      cbn [expiresAt]. rewrite Z.gtb_ltb, (proj2 (Z.ltb_ge _ _)) by lia. reflexivity.
    + apply lookup_delete_eq.
Qed.

End Tokens.

(** The first call fetches "tok-1", good for 3600 s from its arrival
    at 100 ms; a call at 3 589 000 ms is served from the cache, a call
    at 3 590 100 ms is not. *)
Lemma getAccessToken_serves_from_cache_witness :
  let get := getAccessToken token_up no_jitter token_error tenant in
  let first := get 0%Z 100%Z no_tokens in
  first.1 = Ok "tok-1"
  ∧ get 3589000%Z 3589100%Z first.2 = (Ok "tok-1", first.2)
  ∧ (token_requests first.2 < token_requests (get 3590100%Z 3590200%Z first.2).2)%nat.
Proof.
  intros get first.
  destruct (getAccessToken_serves_from_cache token_up no_jitter token_error tenant
              0%Z 100%Z no_tokens token_200 (mkTokenJson "tok-1" (Some 3600%Z))
              eq_refl eq_refl eq_refl eq_refl eq_refl)
    as (Hfirst & _ & Hhit & Hmiss).
  split; [exact Hfirst|]. split.
  - apply Hhit. simpl. lia.
  - apply Hmiss. simpl. lia.
Defined.

End KoreClientFacts.

(** ** The provider client: one request; URLs and cursors *)
Module KoreFetchFacts.
Import Kore KoreClient.
Local Open Scope string_scope.
Local Open Scope list_scope.

Section Fetch.
Context {T : Type}.
Variable base : string.
Variable token_endpoint : nat → result TokenResponse Js.thrown.
Variable jitter : Z → Z.
Variable describe : KoreAccountSecret → TokenResponse → string.
Variable data_endpoint : list Request → Request → result (DataResponse T) Js.thrown.
Variable describe_failure : DataResponse T → string.

Local Abbreviation koreFetch' :=
  (koreFetch base token_endpoint jitter describe data_endpoint describe_failure).

Lemma fetch_data_after request k before :
  Retry.after (fetch_data data_endpoint request) k before
  = before ++ replicate k request.
Proof.
  revert before. induction k as [|k IH]; intros before; simpl.
  - symmetry. apply app_nil_r.
  - rewrite IH, <- app_assoc. reflexivity.
Qed.

(** X9.  How [koreFetch] fails.  When the token cannot be had, no data
    request is sent and the token's error is thrown.  A response that
    is not 2xx is not retried: after this one request a
    [KoreHttpError] with the response's status is thrown.  A fetch that
    is rejected every time is sent four times, the first and three
    retries, before its error is thrown. *)
Theorem koreFetch_failures account path method' body' now later st :
  let token_call :=
    getAccessToken token_endpoint jitter describe account now later (tokens st) in
  let call := koreFetch' account path method' body' now later st in
  (∀ err, token_call.1 = Throw err →
     call.1 = Throw err ∧ requests call.2 = requests st)
  ∧ (∀ token response,
       token_call.1 = Ok token →
       let request := mkRequest (kore_url base path) method' token body' in
       data_endpoint (requests st) request = Ok response →
       data_ok response = false →
       call.1 = Throw (Js.KoreHttpError (data_status response) (describe_failure response))
       ∧ requests call.2 = requests st ++ [request])
  ∧ (∀ token,
       token_call.1 = Ok token →
       let request := mkRequest (kore_url base path) method' token body' in
       (∀ before, is_Ok (data_endpoint before request) = false) →
       is_Ok call.1 = false
       ∧ requests call.2 = requests st ++ replicate 4 request).
Proof.
  intros token_call call. subst call. unfold koreFetch. fold token_call.
  destruct token_call as [[token|err] tokens'] eqn:Htoken; cbn [fst].
  - split; [intros err [=]|]. split.
    + intros token' response [= <-] Hresp Hbad.
      set (request := mkRequest (kore_url base path) method' token body') in *.
      assert (Hcall : fetch_data data_endpoint request (requests st)
                      = (Ok response, requests st ++ [request]))
        by (unfold fetch_data; rewrite Hresp; reflexivity).
      rewrite (RetryFacts.withRetry_first_success _ _ _ _ _ _ _ Hcall).
      cbn [Retry.outcome Retry.final]. rewrite Hbad. split; reflexivity.
    + intros token' [= <-] Hdown.
      set (request := mkRequest (kore_url base path) method' token body') in *.
      assert (Hfails : ∀ before,
                 ∃ e, (fetch_data data_endpoint request before).1 = Throw e).
      { intros before. cbn [fetch_data fst]. specialize (Hdown before).
        destruct (data_endpoint before request) as [resp|e]; [discriminate|].
        exists e. reflexivity. }
      destruct (RetryFacts.withRetry_loop_always_fails
                  (fetch_data data_endpoint request) jitter Retry.default_retries
                  Retry.default_baseDelayMs Hfails 3%nat 0%Z (requests st) O []
                  eq_refl) as (_ & Hfinal & Hout).
      unfold Retry.withRetry. change (Z.to_nat Retry.default_retries) with 3%nat.
      rewrite Hout, Hfinal.
      destruct (Hfails (Retry.after (fetch_data data_endpoint request) 3 (requests st)))
        as [e He].
      rewrite He, fetch_data_after. cbn [fst snd requests]. split; reflexivity.
  - split.
    + intros err' [= <-]. split; reflexivity.
    + split; [intros ? ? [=] | intros ? [=]].
Qed.

End Fetch.

(** With a token at hand, a 503 costs one request. *)
Lemma koreFetch_failures_witness :
  let call :=
    koreFetch (T := unit) "https://api.example/v1" token_up no_jitter token_error
      unavailable (λ _, "KORE API request failed (503): {}")
      tenant "/Fleets?PageSize=500" "GET" None 0%Z 100%Z (mkClient no_tokens []) in
  call.1 = Throw (Js.KoreHttpError 503 "KORE API request failed (503): {}")
  ∧ requests call.2
    = [] ++ [mkRequest "https://api.example/v1/Fleets?PageSize=500" "GET" "tok-1" None].
Proof.
  apply (proj1 (proj2 (koreFetch_failures (T := unit) "https://api.example/v1" token_up
           no_jitter token_error unavailable (λ _, "KORE API request failed (503): {}")
           tenant "/Fleets?PageSize=500" "GET" None 0%Z 100%Z (mkClient no_tokens [])))
           "tok-1" (mkData false 503 "{}" (Throw Js.NotAnError)));
    reflexivity.
Defined.

(** *** URLs *)
Local Open Scope string_scope.

Lemma prefix_append base rest : String.prefix base (base ++ rest) = true.
Proof.
  induction base as [|a base IH]; simpl.
  - destruct rest; reflexivity.
  - destruct (ascii_dec a a) as [_|Hne]; [exact IH | congruence].
Qed.

Lemma substring_whole s : String.substring 0 (String.length s) s = s.
Proof. induction s as [|a s IH]; simpl; [reflexivity | rewrite IH; reflexivity]. Qed.

Lemma substring_append base rest m :
  String.substring (String.length base) m (base ++ rest) = String.substring 0 m rest.
Proof. induction base as [|a base IH]; simpl; [reflexivity | exact IH]. Qed.

Lemma length_append base rest :
  String.length (base ++ rest) = (String.length base + String.length rest)%nat.
Proof. induction base as [|a base IH]; simpl; [reflexivity | rewrite IH; reflexivity]. Qed.

(** [stripBase] takes the base off a URL that starts with it. *)
Lemma stripBase_append base rest : stripBase base (base ++ rest) = rest.
Proof.
  unfold stripBase. rewrite prefix_append, substring_append, length_append.
  replace (String.length base + String.length rest - String.length base)%nat
    with (String.length rest) by lia.
  apply substring_whole.
Qed.

(** X10.  A next-page URL, stripped by [stripBase] and given back to
    [koreFetch] as a path, is requested as it was when it is the base
    followed by a path that starts with a slash, and when it is an
    absolute URL that does not start with the base.  When the base is
    followed by something else (the base being a prefix of the URL but
    not of its path), a slash is put in and another URL is requested. *)
Theorem next_page_url_round_trip base :
  (∀ path, kore_url base (stripBase base (base ++ "/" ++ path)) = base ++ "/" ++ path)
  ∧ (∀ url, String.prefix base url = false → String.prefix "http" url = true →
            kore_url base (stripBase base url) = url)
  ∧ (∀ rest, String.prefix "/" rest = false → String.prefix "http" rest = false →
             kore_url base (stripBase base (base ++ rest)) = base ++ "/" ++ rest).
Proof.
  split; [|split].
  - intros path. rewrite stripBase_append. unfold kore_url. simpl.
    destruct path; reflexivity.
  - intros url Hbase Hhttp. unfold stripBase. rewrite Hbase.
    unfold kore_url. rewrite Hhttp. reflexivity.
  - intros rest Hslash Hhttp. rewrite stripBase_append. unfold kore_url.
    rewrite Hhttp, Hslash. reflexivity.
Qed.

Lemma next_page_url_round_trip_witness :
  kore_url "https://api.example/v1" (stripBase "https://api.example/v1"
                                       "https://other.example/Sims?Page=2")
  = "https://other.example/Sims?Page=2"
  ∧ kore_url "https://api.example/v1" (stripBase "https://api.example/v1"
                                         ("https://api.example/v1" ++ "beta/Sims"))
    = "https://api.example/v1" ++ "/" ++ "beta/Sims".
Proof.
  split.
  - apply (proj1 (proj2 (next_page_url_round_trip "https://api.example/v1")));
      reflexivity.
  - apply (proj2 (proj2 (next_page_url_round_trip "https://api.example/v1")));
      reflexivity.
Defined.

End KoreFetchFacts.

(** ** Listings: what they return and how they end *)
Module ListingFacts.
Import Kore KoreClient ListingShape.
Local Open Scope string_scope.
Local Open Scope list_scope.

Section Sims.
Variable base : string.
Variable encodeURIComponent : string → string.
Variable koreFetch : list string → string → result SimList.t Js.thrown.
Variable fleetSid' : string.

Lemma resolvable_listed before path data :
  koreFetch before path = Ok data →
  Forall (listed_under koreFetch fleetSid')
    (resolvable fleetSid' (default [] (SimList.sims data ?? SimList.data data))).
Proof.
  intros Hfetch. unfold resolvable. apply Forall_forall. intros sim Hin.
  apply list_elem_of_fmap in Hin as (raw & -> & Hraw).
  apply list_elem_of_filter in Hraw as [Hsid Hraw].
  apply list_elem_of_fmap in Hraw as (item & -> & Hitem).
  refine (conj Hsid (conj eq_refl _)).
  exists before, path, data, item.
  refine (conj Hfetch (conj Hitem eq_refl)).
Qed.

Lemma pages_listed fuel :
  ∀ nextPath (visited : gset string) sims any before,
    Forall (listed_under koreFetch fleetSid') sims →
    Forall (listed_under koreFetch fleetSid')
      (collected (pages base koreFetch fleetSid' fuel nextPath visited sims any before)).
Proof.
  induction fuel as [|fuel IH]; intros nextPath visited sims any before Hsims;
    cbn [pages].
  - destruct nextPath as [path|]; [destruct (Js.truthy (Some path) && _)|]; exact Hsims.
  - destruct nextPath as [path|]; [destruct (Js.truthy (Some path) && _)|];
      try exact Hsims.
    destruct (koreFetch before path) as [data|err] eqn:Hfetch; [|exact Hsims].
    rewrite KoreFacts.push_items_resolvable. apply IH.
    apply Forall_app. split; [exact Hsims | exact (resolvable_listed _ _ _ Hfetch)].
Qed.

Lemma candidates_loop_listed fuel candidates :
  ∀ sims before found after,
    Forall (listed_under koreFetch fleetSid') sims →
    candidates_loop base koreFetch fleetSid' fuel candidates sims before
    = (Some (Ok found), after) →
    Forall (listed_under koreFetch fleetSid') found.
Proof.
  induction candidates as [|path rest IH]; intros sims before found after Hsims;
    cbn [candidates_loop].
  - intros [= <- <-]. exact Hsims.
  - pose proof (pages_listed fuel (Some path) ∅ sims false before Hsims) as Hrun.
    destruct (pages base koreFetch fleetSid' fuel (Some path) ∅ sims false before)
      as [e c f r].
    cbn [ended collected fetchedAny requested] in *.
    destruct e as [|err|]; [destruct f|destruct (try_next err)|]; try discriminate.
    + intros [= <- <-]. exact Hrun.
    + apply IH. exact Hrun.
    + apply IH. exact Hrun.
Qed.

(** X11.  Every device that [listSimsFromKore] returns has an external id
    that is not empty, carries the fleet that was asked for (whatever
    fleet the provider wrote in it), and is the normalisation of an
    element of a page that the provider answered with: the listing
    makes up no device. *)
Theorem listSimsFromKore_devices_are_listed_under_fleet fuel before found after :
  listSimsFromKore base encodeURIComponent koreFetch fleetSid' fuel before
  = (Some (Ok found), after) →
  Forall (listed_under koreFetch fleetSid') found.
Proof.
  unfold listSimsFromKore. apply candidates_loop_listed. constructor.
Qed.

Lemma candidates_loop_all_refused fuel candidates :
  (∀ before path, ∃ err, koreFetch before path = Throw err ∧ try_next err = true) →
  Forall (λ path, path ≠ "") candidates →
  ∀ sims before,
    candidates_loop base koreFetch fleetSid' (S fuel) candidates sims before
    = (Some (Ok sims), before ++ candidates).
Proof.
  intros Hrefuse. induction candidates as [|path rest IH]; intros Hne sims before.
  - cbn [candidates_loop]. rewrite app_nil_r. reflexivity.
  - apply Forall_cons in Hne as [Hpath Hrest].
    destruct (Hrefuse before path) as (err & Hfetch & Hnext).
    rewrite (KoreFacts.candidates_loop_skip base koreFetch fleetSid' fuel path rest
               sims before err Hpath Hfetch Hnext).
    rewrite (IH Hrest), <- app_assoc. reflexivity.
Qed.

(** X12.  [listSimsFromKore] keeps the 404s and 400s to itself: it never
    throws one, and when the provider answers every request with a 404
    or a 400 it returns the empty list, after one request to each of
    its six candidates. *)
Theorem listSimsFromKore_absorbs_not_found :
  (∀ fuel before err after,
      listSimsFromKore base encodeURIComponent koreFetch fleetSid' fuel before
      = (Some (Throw err), after) →
      try_next err = false)
  ∧ ((∀ before path, ∃ err, koreFetch before path = Throw err ∧ try_next err = true) →
     ∀ fuel before,
       listSimsFromKore base encodeURIComponent koreFetch fleetSid' (S fuel) before
       = (Some (Ok []), before ++ candidates encodeURIComponent fleetSid')).
Proof.
  split.
  - intros fuel before err after Hrun.
    exact (proj1 (KoreFacts.candidates_loop_throws base koreFetch fleetSid' fuel
                    _ _ _ _ _ Hrun)).
  - intros Hrefuse fuel before. unfold listSimsFromKore.
    apply candidates_loop_all_refused; [exact Hrefuse|].
    unfold candidates. repeat constructor; discriminate.
Qed.

End Sims.

(** The optional fields follow the truthiness of the raw value, not
    of its text: the empty array is truthy and reads as the empty
    string, while [0] and [false] are falsy and read as [null]. *)
Lemma normalizeSim_optional_fields :
  map (λ raw,
         uniqueName
           (normalizeSim
              (Raw.mk (Js.Str "HS1") Js.Undefined Js.Undefined Js.Undefined raw
                 Js.Undefined Js.Undefined Js.Undefined Js.Undefined Js.Undefined
                 Js.Undefined Js.Undefined Js.Undefined Js.Undefined)))
    [Js.Arr []; Js.Num 0; Js.Bool false; Js.Str ""; Js.Null; Js.Str "truck-1"; Js.Num 7]
  = [Some ""; None; None; None; None; Some "truck-1"; Some "7"].
Proof. vm_compute. reflexivity. Qed.

(** A provider that answers 404 to everything. *)
Lemma listSimsFromKore_absorbs_not_found_witness :
  listSimsFromKore "" plain
    (λ _ _, Throw (Js.KoreHttpError 404 "KORE API request failed (404)")) "HF1" 1 []
  = (Some (Ok []), [] ++ candidates plain "HF1").
Proof.
  apply (proj2 (listSimsFromKore_absorbs_not_found "" plain
           (λ _ _, Throw (Js.KoreHttpError 404 "KORE API request failed (404)")) "HF1")).
  intros before path. eexists. split; reflexivity.
Defined.

Lemma listSimsFromKore_devices_witness :
  Forall (listed_under fifth_answers "HF1")
    [mkSim "HS1" "8901" None "active" "HF1" None None;
     mkSim "HS2" "8902" None "active" "HF1" None None;
     mkSim "HS3" "8903" None "active" "HF1" None None].
Proof.
  eapply (listSimsFromKore_devices_are_listed_under_fleet "" plain fifth_answers "HF1"
            1%nat []).
  vm_compute. reflexivity.
Defined.

Section Fleets.
Variable base : string.
Variable koreFetch : list string → string → result FleetList.t Js.thrown.

Lemma push_fleets_listed items :
  ∀ fleets, Forall fleet_listed fleets → Forall fleet_listed (push_fleets items fleets).
Proof.
  unfold push_fleets. induction items as [|item items IH]; intros fleets Hfleets;
    cbn [foldl]; [exact Hfleets|].
  apply IH. unfold Js.truthy.
  destruct (decide (fleet_sid (normalizeFleet item) = "")) as [Hsid|Hsid].
  - rewrite (bool_decide_eq_true_2 _ Hsid). exact Hfleets.
  - rewrite (bool_decide_eq_false_2 _ Hsid). cbn [negb].
    apply Forall_app. split; [exact Hfleets|]. constructor; [|constructor].
    exact Hsid.
Qed.

Lemma fleet_pages_shape fuel :
  ∀ nextPath fleets before,
    Forall fleet_listed fleets →
    let run := fleet_pages base koreFetch fuel nextPath fleets before in
    (∀ found, run.1 = Some (Ok found) → Forall fleet_listed found)
    ∧ (∀ err, run.1 = Some (Throw err) →
         ∃ pre path, run.2 = pre ++ [path] ∧ koreFetch pre path = Throw err).
Proof.
  induction fuel as [|fuel IH]; intros nextPath fleets before Hfleets; cbn [fleet_pages].
  - destruct (Js.truthy nextPath); cbn [fst snd];
      (split; [intros found [=]; subst; exact Hfleets | intros err [=]]).
  - destruct (Js.truthy nextPath);
      [|cbn [fst snd]; split; [intros found [=]; subst; exact Hfleets | intros err [=]]].
    destruct nextPath as [path|]; [|cbn [fst]; split; [intros ? [=] | intros ? [=]]].
    destruct (koreFetch before path) as [data|err] eqn:Hfetch.
    + apply IH. apply push_fleets_listed. exact Hfleets.
    + cbn [fst snd]. split; [intros ? [=]|].
      intros err' [= <-]. exists before, path. split; [reflexivity | exact Hfetch].
Qed.

Lemma fleet_pages_loops fuel :
  (∀ before, ∃ page, koreFetch before first_fleets_path = Ok page
                     ∧ next_fleets_path base page = Some first_fleets_path) →
  ∀ fleets before,
    (fleet_pages base koreFetch fuel (Some first_fleets_path) fleets before).1 = None
    ∧ (fleet_pages base koreFetch fuel (Some first_fleets_path) fleets before).2
      = before ++ replicate fuel first_fleets_path.
Proof.
  intros Hloop. induction fuel as [|fuel IH]; intros fleets before; cbn [fleet_pages].
  - change (Js.truthy (Some first_fleets_path)) with true. cbn [fst snd replicate].
    rewrite app_nil_r. split; reflexivity.
  - change (Js.truthy (Some first_fleets_path)) with true. cbn iota.
    destruct (Hloop before) as (page & -> & ->).
    destruct (IH (push_fleets (default [] (FleetList.fleets page ?? FleetList.data page))
                    fleets) (before ++ [first_fleets_path])) as [Hnone Hreq].
    rewrite Hnone, Hreq, <- app_assoc. split; reflexivity.
Qed.

(** X13.  [listFleetsFromKore]: the fleets it returns have an external id
    that is not empty; an error it throws is
    what the last request threw, and what the earlier pages gave is
    lost with it; and it keeps no record of the pages it has seen, so
    when the provider's next link leads back to the first page it
    requests that page again and again and never returns. *)
Theorem listFleetsFromKore_shape_and_cycle :
  (∀ fuel before found after,
      listFleetsFromKore base koreFetch fuel before = (Some (Ok found), after) →
      Forall fleet_listed found)
  ∧ (∀ fuel before err after,
      listFleetsFromKore base koreFetch fuel before = (Some (Throw err), after) →
      ∃ pre path, after = pre ++ [path] ∧ koreFetch pre path = Throw err)
  ∧ ((∀ before, ∃ page, koreFetch before first_fleets_path = Ok page
                        ∧ next_fleets_path base page = Some first_fleets_path) →
     ∀ fuel before,
       listFleetsFromKore base koreFetch fuel before
       = (None, before ++ replicate fuel first_fleets_path)).
Proof.
  unfold listFleetsFromKore. split; [|split].
  - intros fuel before found after Hrun.
    apply (proj1 (fleet_pages_shape fuel (Some first_fleets_path) [] before
                    (List.Forall_nil _)) found).
    rewrite Hrun. reflexivity.
  - intros fuel before err after Hrun.
    destruct (proj2 (fleet_pages_shape fuel (Some first_fleets_path) [] before
                       (List.Forall_nil _)) err) as (pre & path & Hreq & Hthrow).
    + rewrite Hrun. reflexivity.
    + rewrite Hrun in Hreq. exists pre, path. split; [exact Hreq | exact Hthrow].
  - intros Hloop fuel before.
    destruct (fleet_pages_loops fuel Hloop [] before) as [Hnone Hreq].
    rewrite (surjective_pairing (fleet_pages _ _ _ _ _ _)), Hnone, Hreq. reflexivity.
Qed.

End Fleets.

Lemma listFleetsFromKore_cycle_witness :
  listFleetsFromKore "https://api.example/v1" looping_fleets 50 []
  = (None, [] ++ replicate 50 first_fleets_path).
Proof.
  apply (proj2 (proj2 (listFleetsFromKore_shape_and_cycle "https://api.example/v1"
           looping_fleets))).
  intros before. eexists. split; reflexivity.
Defined.

End ListingFacts.

(** ** Command dispatch: effects and authorisation *)
Module DispatchAuditFacts.
Import Dispatch DispatchAudit.
Local Open Scope string_scope.
Local Open Scope list_scope.

Lemma accountMap_of_member accounts k account :
  accountMap_of accounts !! k = Some account → account ∈ accounts.
Proof.
  unfold accountMap_of.
  assert (H : ∀ (m : gmap string Account.t) k a,
             foldl (λ m account, <[Account.id account := account]> m) m accounts !! k
             = Some a → a ∈ accounts ∨ m !! k = Some a).
  { induction accounts as [|a0 accounts IH]; intros m k' a'; cbn [foldl];
      [intros Hm; right; exact Hm|].
    intros Hfold. destruct (IH _ _ _ Hfold) as [Hin|Hm].
    - left. apply list_elem_of_further. exact Hin.
    - rewrite lookup_insert in Hm. case_decide.
      + injection Hm as <-. left. apply list_elem_of_here.
      + right. exact Hm. }
  intros Hfold. destruct (H ∅ k account Hfold) as [Hin|Hm]; [exact Hin|].
  rewrite lookup_empty in Hm. discriminate.
Qed.

Lemma sim_findMany_member db accountId OR sim :
  sim ∈ sim_findMany db accountId OR → sim ∈ sims db ∧ Sim.accountId sim = accountId.
Proof.
  unfold sim_findMany. intros Hin. apply list_elem_of_filter in Hin as [Hp Hin].
  split; [exact Hin|]. apply andb_true_iff in Hp as [Hacc _].
  apply bool_decide_eq_true in Hacc. exact Hacc.
Qed.

Lemma supported_command_not_empty command :
  Commands.isSupportedCommand command = true → command ≠ "".
Proof. intros Hsupp ->. vm_compute in Hsupp. discriminate. Qed.

Section Loops.
Variable trim : string → string.
Variable decipher : string → string → string → result string Js.thrown.
Variable provider : list Send.t → Send.t → result unit Js.thrown.
Variable logWrite : World → CommandLog.t → result unit Js.thrown.
Variable clock : World → string.
Variable context : Auth.AuthContext.
Variable command : string.
Variable text : option string.
Variable requiresWrite : bool.
Variable perAccountDelay : Z.
Variable db : Db.

Local Abbreviation dispatch_sim' :=
  (dispatch_sim trim provider logWrite clock context command text requiresWrite perAccountDelay).
Local Abbreviation dispatch_sims' :=
  (dispatch_sims trim provider logWrite clock context command text requiresWrite perAccountDelay).
Local Abbreviation dispatch_target' :=
  (dispatch_target trim decipher provider logWrite clock context command text requiresWrite
     perAccountDelay).
Local Abbreviation dispatch_targets' :=
  (dispatch_targets trim decipher provider logWrite clock context command text requiresWrite
     perAccountDelay).
Local Abbreviation acc :=
  (accounted (request_ok trim decipher db context command text requiresWrite)
     (entry_ok db context requiresWrite) perAccountDelay).

Lemma accounted_nil w : acc [] w w.
Proof.
  exists [], []. cbn [List.length replicate List.filter map].
  destruct (perAccountDelay =? 0)%Z; rewrite !app_nil_r;
    refine (conj eq_refl (conj eq_refl (conj eq_refl (conj eq_refl (conj eq_refl
              (conj _ _)))))); constructor.
Qed.

Lemma accounted_app es1 es2 w w1 w2 :
  acc es1 w w1 → acc es2 w1 w2 → acc (es1 ++ es2) w w2.
Proof.
  intros (a1 & r1 & Hs1 & Hl1 & Hz1 & Ha1 & Hr1 & HP1 & HQ1)
         (a2 & r2 & Hs2 & Hl2 & Hz2 & Ha2 & Hr2 & HP2 & HQ2).
  exists (a1 ++ a2), (r1 ++ r2).
  rewrite Hs2, Hs1, Hl2, Hl1, Hz2, Hz1, <- !app_assoc, !List.filter_app, !map_app,
    Ha1, Ha2, Hr1, Hr2.
  refine (conj eq_refl (conj eq_refl (conj _ (conj eq_refl (conj eq_refl
            (conj _ _)))))).
  - destruct (perAccountDelay =? 0)%Z; [reflexivity|].
    rewrite length_app, replicate_add. reflexivity.
  - apply Forall_app. split; assumption.
  - apply Forall_app. split; assumption.
Qed.

(** An entry pushed without anything having been done. *)
Lemma accounted_silent e w :
  attempted e = false → queued e = false → entry_ok db context requiresWrite e →
  acc [e] w w.
Proof.
  intros Hatt Hq HQ. exists [], [].
  cbn [List.filter List.length replicate map]. rewrite Hatt, Hq.
  destruct (perAccountDelay =? 0)%Z; rewrite !app_nil_r;
    refine (conj eq_refl (conj eq_refl (conj eq_refl (conj eq_refl (conj eq_refl
              (conj _ _)))))); try constructor; try exact HQ; constructor.
Qed.

Lemma group_error_ok accountId accountLabel message :
  entry_ok db context requiresWrite (group_error accountId accountLabel message).
Proof. split; intros H; discriminate H. Qed.

Hypothesis Hcommand : commandToSend trim command text ≠ "".

Lemma dispatch_sim_accounted account secret sim results w :
  account ∈ accounts db →
  sim ∈ sims db →
  Sim.accountId sim = Account.id account →
  Crypto.decryptSecret decipher (Account.clientSecretEncrypted account) = Ok secret →
  let mappedScopes :=
    if Auth.isOwner context then None
    else Some (filter (λ scope, Auth.accountId scope = Account.id account)
                 (Auth.scopes context)) in
  ∃ e w', dispatch_sim' account secret mappedScopes sim results w = (results ++ [e], w')
          ∧ acc [e] w w'.
Proof using Hcommand.
  intros Haccount Hsim Hown Hsecret mappedScopes.
  unfold dispatch_sim.
  destruct (negb (Auth.isOwner context)
            && negb (default false (allowed mappedScopes requiresWrite sim))) eqn:Hgate.
  - (* refused *)
    apply andb_true_iff in Hgate as [Hagent Hdenied].
    apply negb_true_iff in Hagent, Hdenied.
    subst mappedScopes. rewrite Hagent in Hdenied.
    cbn [allowed fmap option_fmap option_map default from_option id] in Hdenied.
    eexists. exists w. split; [reflexivity|].
    apply accounted_silent; [reflexivity | reflexivity |].
    split; [|intros H; discriminate H].
    intros _. split; [reflexivity|]. exists sim.
    refine (conj Hsim (conj eq_refl (conj Hown _))).
    intros [Hisowner | (scope & Hin & Hacc & Hfleet & Hflag)]; [congruence|].
    apply not_true_iff_false in Hdenied. apply Hdenied. apply existsb_exists.
    exists scope. split.
    + apply list_elem_of_In, list_elem_of_filter. split; [congruence | exact Hin].
    + unfold scope_permits.
      destruct Hfleet as [Hfleet|Hfleet]; rewrite Hfleet.
      * rewrite bool_decide_eq_true_2 by reflexivity. exact Hflag.
      * rewrite (bool_decide_eq_true_2 (Some (Sim.fleetId sim) = Some (Sim.fleetId sim)))
          by reflexivity.
        rewrite orb_true_r. exact Hflag.
  - (* allowed: the command is sent *)
    assert (Hauth : authorised context requiresWrite sim).
    { subst mappedScopes. destruct (Auth.isOwner context) eqn:Howner;
        [left; exact Howner | right].
      cbn [negb andb allowed fmap option_fmap option_map default from_option id] in Hgate.
      apply negb_false_iff in Hgate.
      apply existsb_exists in Hgate as (scope & Hin & Hperm).
      apply list_elem_of_In in Hin. apply list_elem_of_filter in Hin as [Hacc Hin].
      exists scope. split; [exact Hin|]. split; [congruence|].
      unfold scope_permits in Hperm.
      destruct (bool_decide (Auth.fleetId scope = None)) eqn:Hnone;
        destruct (bool_decide (Auth.fleetId scope = Some (Sim.fleetId sim))) eqn:Hfleet;
        cbn [orb negb] in Hperm; try discriminate Hperm;
        (split; [|exact Hperm]);
        first [ left; exact (bool_decide_eq_true_1 _ Hnone)
              | right; exact (bool_decide_eq_true_1 _ Hfleet) ]. }
    cbv zeta.
    change (if bool_decide (command = "custom") then trim (default "" text) else command)
      with (commandToSend trim command text).
    rewrite (bool_decide_eq_false_2 _ Hcommand).
    set (request := Send.mk _ _ _ _ _ _ _ _).
    set (row := CommandLog.mk _ _ _ _ _ _).
    assert (HP : request_ok trim decipher db context command text requiresWrite request).
    { refine (conj eq_refl (conj Hcommand (conj eq_refl _))).
      exists account, sim. split; [|exact Hauth].
      refine (conj Haccount (conj Hsim (conj Hown (conj eq_refl (conj eq_refl
                (conj eq_refl Hsecret)))))). }
    destruct (provider (sent w) request) as [[]|error];
      [destruct (logWrite _ row) as [[]|error]|];
      destruct (perAccountDelay =? 0)%Z eqn:Hdelay;
      (eexists; eexists; split; [reflexivity|]);
      first [ solve [ exists [request], [row];
                      rewrite Hdelay; cbn [sent commandLog slept]; rewrite ?app_nil_r;
                      refine (conj eq_refl (conj eq_refl (conj eq_refl (conj eq_refl
                                (conj eq_refl (conj _ _))))));
                      [ constructor; [exact HP | constructor]
                      | constructor; [|constructor];
                        split; [intros H; discriminate H | intros _; left; reflexivity] ] ]
            | solve [ exists [request], [];
                      rewrite Hdelay; cbn [sent commandLog slept]; rewrite ?app_nil_r;
                      refine (conj eq_refl (conj eq_refl (conj eq_refl (conj eq_refl
                                (conj eq_refl (conj _ _))))));
                      [ constructor; [exact HP | constructor]
                      | constructor; [|constructor];
                        split; [intros H; discriminate H | intros _; right; reflexivity] ] ] ].
Qed.

Lemma dispatch_sims_accounted account secret sims' :
  account ∈ accounts db →
  Crypto.decryptSecret decipher (Account.clientSecretEncrypted account) = Ok secret →
  Forall (λ sim, sim ∈ sims db ∧ Sim.accountId sim = Account.id account) sims' →
  let mappedScopes :=
    if Auth.isOwner context then None
    else Some (filter (λ scope, Auth.accountId scope = Account.id account)
                 (Auth.scopes context)) in
  ∀ results w,
  ∃ es w', dispatch_sims' account secret mappedScopes sims' results w = (results ++ es, w')
           ∧ acc es w w'.
Proof using Hcommand.
  intros Haccount Hsecret Hsims mappedScopes.
  induction Hsims as [|sim sims' [Hsim Hown] _ IH]; intros results w; cbn [dispatch_sims].
  - exists [], w. rewrite app_nil_r. split; [reflexivity | apply accounted_nil].
  - destruct (dispatch_sim_accounted account secret sim results w Haccount Hsim Hown
                Hsecret) as (e & w1 & Hrun & Hacc1).
    fold mappedScopes in Hrun. rewrite Hrun.
    destruct (IH (results ++ [e]) w1) as (es & w' & Hrest & Hacc2).
    exists (e :: es), w'. rewrite Hrest, <- app_assoc. split; [reflexivity|].
    exact (accounted_app [e] es w w1 w' Hacc1 Hacc2).
Qed.

Lemma dispatch_target_accounted accountMap target results w :
  (∀ k a, accountMap !! k = Some a → a ∈ accounts db) →
  match dispatch_target' db accountMap target results w with
  | Ok (rs, w') => ∃ es, rs = results ++ es ∧ acc es w w'
  | Throw _ => True
  end.
Proof using Hcommand.
  intros Hmembers. unfold dispatch_target.
  destruct (accountMap !! Target.accountId target) as [account|] eqn:Hacc.
  2: { eexists. split; [reflexivity|].
       apply accounted_silent; [reflexivity | reflexivity | apply group_error_ok]. }
  destruct (Crypto.decryptSecret decipher _) as [secret|error] eqn:Hdec; [|exact I].
  destruct (identifiers target) as [|clause clauses].
  { eexists. split; [reflexivity|].
    apply accounted_silent; [reflexivity | reflexivity | apply group_error_ok]. }
  destruct (sim_findMany db (Account.id account) (clause :: clauses))
    as [|sim0 sims0] eqn:Hsims.
  { eexists. split; [reflexivity|].
    apply accounted_silent; [reflexivity | reflexivity | apply group_error_ok]. }
  destruct (dispatch_sims_accounted account secret (sim0 :: sims0)
              (Hmembers _ _ Hacc) Hdec) with (results := results) (w := w)
    as (es & w' & Hrun & Haccounted).
  { rewrite <- Hsims. apply Forall_forall. intros sim Hin.
    exact (sim_findMany_member db _ _ sim Hin). }
  rewrite Hrun. exists es. split; [reflexivity | exact Haccounted].
Qed.

Lemma dispatch_targets_accounted accountMap targets :
  (∀ k a, accountMap !! k = Some a → a ∈ accounts db) →
  ∀ results w,
  ∃ es, acc es w (dispatch_targets' db accountMap targets results w).2
        ∧ ∀ rs, (dispatch_targets' db accountMap targets results w).1 = Ok rs →
                rs = results ++ es.
Proof using Hcommand.
  intros Hmembers. induction targets as [|target targets IH]; intros results w;
    cbn [dispatch_targets].
  - exists []. cbn [fst snd]. split; [apply accounted_nil|].
    intros rs [= <-]. rewrite app_nil_r. reflexivity.
  - pose proof (dispatch_target_accounted accountMap target results w Hmembers) as Ht.
    destruct (dispatch_target' db accountMap target results w) as [[rs1 w1]|error].
    + destruct Ht as (es1 & -> & Hacc1).
      destruct (IH (results ++ es1) w1) as (es2 & Hacc2 & Hrs).
      exists (es1 ++ es2). split; [exact (accounted_app _ _ _ _ _ Hacc1 Hacc2)|].
      intros rs Hrun. rewrite (Hrs rs Hrun), <- app_assoc. reflexivity.
    + exists []. cbn [fst snd]. split; [apply accounted_nil|]. intros rs [=].
Qed.

End Loops.

Section Handler.
Variable trim : string → string.
Variable decipher : string → string → string → result string Js.thrown.
Variable provider : list Send.t → Send.t → result unit Js.thrown.
Variable logWrite : World → CommandLog.t → result unit Js.thrown.
Variable clock : World → string.

Lemma perAccountDelay_of_range body :
  BodySchema_ok body = true →
  let delay := perAccountDelay_of (Body.throttle body) in
  (delay = 0 ∨ 34 ≤ delay ≤ 1000)%Z.
Proof.
  unfold BodySchema_ok, perAccountDelay_of. intros Hok.
  apply andb_true_iff in Hok as [_ Hrate].
  destruct (Body.throttle body) as [[rate|]|]; cbv zeta; [|left; reflexivity..].
  apply andb_true_iff in Hrate as [Hlo Hhi].
  apply Z.leb_le in Hlo, Hhi.
  destruct (rate =? 0)%Z; [left; reflexivity|]. right. split.
  - apply Z.div_le_lower_bound; lia.
  - apply Z.div_le_upper_bound; nia.
Qed.

(** What the handler did, whatever it answers: some entries account
    for it, and they are the results when it answers with results. *)
Lemma POST_accounted context body db now (store : RateLimit.Store) w :
  let command := trim (Body.command body) in
  let run := POST trim decipher provider logWrite clock context body db now store w in
  ∃ es,
    accounted
      (request_ok trim decipher db context command (Body.text body)
         (Commands.isWriteCommand command))
      (entry_ok db context (Commands.isWriteCommand command))
      (perAccountDelay_of (Body.throttle body)) es w run.2
    ∧ ∀ rs, run.1.1 = Results rs → rs = es ∧ BodySchema_ok body = true.
Proof.
  intros command run. subst run. unfold POST.
  destruct (BodySchema_ok body) eqn:Hschema; cbn [negb].
  2: { exists []. cbn [fst snd]. split; [apply accounted_nil | intros rs [=]]. }
  fold command.
  destruct (Commands.isSupportedCommand command) eqn:Hsupp; cbn [negb].
  2: { exists []. cbn [fst snd]. split; [apply accounted_nil | intros rs [=]]. }
  destruct (bool_decide (command = "custom")
            && (negb (Js.truthy (Body.text body))
                || negb (Js.truthy (trim <$> Body.text body)))) eqn:Hgate.
  { exists []. cbn [fst snd]. split; [apply accounted_nil | intros rs [=]]. }
  destruct (RateLimit.enforceRateLimit _ 30 60000 now store) as [[[]|m] store'].
  2: { exists []. cbn [fst snd]. split; [apply accounted_nil | intros rs [=]]. }
  assert (Hcommand : commandToSend trim command (Body.text body) ≠ "").
  { unfold commandToSend.
    destruct (bool_decide (command = "custom")) eqn:Hc;
      [|apply supported_command_not_empty; exact Hsupp].
    cbn [andb] in Hgate. apply orb_false_iff in Hgate as [_ Htrim].
    apply negb_false_iff in Htrim.
    destruct (Body.text body) as [t|]; [|discriminate Htrim].
    cbn in Htrim |- *. apply negb_true_iff, bool_decide_eq_false in Htrim. exact Htrim. }
  destruct (dispatch_targets_accounted trim decipher provider logWrite clock context command
              (Body.text body) (Commands.isWriteCommand command)
              (perAccountDelay_of (Body.throttle body)) db Hcommand
              (accountMap_of (account_findMany db
                                (map Target.accountId (Body.accountScopedTargets body))))
              (Body.accountScopedTargets body)) with (results := @nil Entry.t) (w := w)
    as (es & Hacc & Hrs).
  { intros k a Hlookup. apply accountMap_of_member in Hlookup.
    unfold account_findMany in Hlookup. apply list_elem_of_filter in Hlookup as [_ Hin].
    exact Hin. }
  exists es.
  destruct (dispatch_targets _ _ _ _ _ _ _ _ _ _ _ _ _ _) as [[rs|error] w'];
    cbn [fst snd] in *.
  - split; [exact Hacc|]. intros rs' [= <-]. split; [apply (Hrs rs eq_refl) | reflexivity].
  - split; [exact Hacc|]. intros rs' [=].
Qed.

(** X14.  Whatever the handler answers, every call it made to the provider
    was for a device the caller may command: the device is a row of
    the database, on the account whose credentials the call carries
    (the stored secret, decrypted), and the caller is an owner or holds
    a grant on that account, account-wide or on the device's fleet,
    that carries write for a write command and read otherwise.  The
    command sent is not empty and is sent as the text too. *)
Theorem POST_sends_only_for_authorised_devices
    context body db now (store : RateLimit.Store) w :
  let command := trim (Body.command body) in
  ∃ added,
    sent (POST trim decipher provider logWrite clock context body db now store w).2
    = sent w ++ added
    ∧ Forall (request_ok trim decipher db context command (Body.text body)
                (Commands.isWriteCommand command)) added.
Proof.
  intros command.
  destruct (POST_accounted context body db now store w)
    as (es & (added & rows & Hsent & _ & _ & _ & _ & HP & _) & _).
  exists added. split; [exact Hsent | exact HP].
Qed.

(** X15.  When the handler answers with results, the results tell what it
    did: the provider was called once for each entry that carries
    [sentAt], in order; the command log got one row for each queued
    entry, in order, with the entry's account, device, command and
    payload; when a delay is set (between 34 and 1000 ms) it slept
    that long once after every provider call; an entry with [sentAt]
    is queued or error; and a forbidden entry is for a device of the
    database that the caller may not command. *)
Theorem POST_results_account_for_effects
    context body db now (store : RateLimit.Store) w results :
  let command := trim (Body.command body) in
  let run := POST trim decipher provider logWrite clock context body db now store w in
  let delay := perAccountDelay_of (Body.throttle body) in
  run.1.1 = Results results →
  ∃ added rows,
    sent run.2 = sent w ++ added
    ∧ commandLog run.2 = commandLog w ++ rows
    ∧ slept run.2 = slept w ++ (if (delay =? 0)%Z then []
                                else replicate (List.length added) delay)
    ∧ (delay = 0 ∨ 34 ≤ delay ≤ 1000)%Z
    ∧ map Send.simSid added = map Entry.simSid (List.filter attempted results)
    ∧ map row_of rows = map logged_as (List.filter queued results)
    ∧ Forall (entry_ok db context (Commands.isWriteCommand command)) results.
Proof.
  intros command run delay Hresults.
  destruct (POST_accounted context body db now store w)
    as (es & (added & rows & Hsent & Hlog & Hslept & Hadded & Hrows & _ & HQ) & Hrs).
  destruct (Hrs results Hresults) as [-> Hschema].
  exists added, rows.
  refine (conj Hsent (conj Hlog (conj Hslept (conj _ (conj Hadded (conj Hrows HQ)))))).
  apply perAccountDelay_of_range. exact Hschema.
Qed.

(** X16.  The command "custom" is classified as a read: the text is sent as
    the command, whatever it says, and the only devices refused are
    those the caller holds no read grant for. *)
Theorem custom_text_is_sent_on_read_access
    context body db now (store : RateLimit.Store) w results :
  let run := POST trim decipher provider logWrite clock context body db now store w in
  trim (Body.command body) = "custom" →
  run.1.1 = Results results →
  ∃ added,
    sent run.2 = sent w ++ added
    ∧ map Send.simSid added = map Entry.simSid (List.filter attempted results)
    ∧ Forall (λ request, Send.command request = trim (default "" (Body.text body))) added
    ∧ Forall (λ e, Entry.status e = "forbidden" →
                   ∃ sim, sim ∈ sims db ∧ Sim.id sim = Entry.simId e
                          ∧ Sim.accountId sim = Entry.accountId e
                          ∧ ¬ authorised context false sim) results.
Proof.
  intros run Hcustom Hresults.
  destruct (POST_accounted context body db now store w)
    as (es & (added & rows & Hsent & _ & _ & Hadded & _ & HP & HQ) & Hrs).
  destruct (Hrs results Hresults) as [-> _].
  rewrite Hcustom in HP, HQ.
  exists added. refine (conj Hsent (conj Hadded (conj _ _))).
  - eapply Forall_impl; [exact HP|]. intros request (Hsentcommand & _). exact Hsentcommand.
  - eapply Forall_impl; [exact HQ|]. intros e [Hforbidden _] Hstatus.
    exact (proj2 (Hforbidden Hstatus)).
Qed.

(** X17.  Validation costs nothing and the gate counts requests: a request
    answered 422 leaves the rate limiter and the world as they were; a
    request the gate refuses does nothing else; every other request
    has taken one token, however many devices it commands. *)
Theorem POST_takes_one_token_per_accepted_request
    context body db now (store : RateLimit.Store) w :
  let gate :=
    RateLimit.enforceRateLimit ("command:" ++ Auth.userId context)%string
      30 60000 now store in
  let run := POST trim decipher provider logWrite clock context body db now store w in
  match run.1.1 with
  | Rejected status _ => status = 422%Z ∧ run.1.2 = store ∧ run.2 = w
  | Results _ => gate.1 = Ok tt ∧ run.1.2 = gate.2
  | ApiError error =>
      run.1.2 = gate.2
      ∧ (gate.1 = Ok tt ∨ (gate.1 = Throw RateLimit.RateLimitExceeded
                           ∧ error = Js.ErrorMsg RateLimit.RateLimitExceeded
                           ∧ run.1.2 = store ∧ run.2 = w))
  end.
Proof.
  intros gate run. subst gate run. unfold POST.
  destruct (BodySchema_ok body); cbn [negb]; [|cbn; auto].
  destruct (Commands.isSupportedCommand _); cbn [negb]; [|cbn; auto].
  destruct (bool_decide _ && _); [cbn; auto|].
  assert (Hmsg : ∀ m, (RateLimit.enforceRateLimit
                          ("command:" ++ Auth.userId context)%string 30 60000 now store).1
                       = Throw m →
                 m = RateLimit.RateLimitExceeded
                 ∧ (RateLimit.enforceRateLimit
                      ("command:" ++ Auth.userId context)%string 30 60000 now store).2
                   = store).
  { unfold RateLimit.enforceRateLimit. intros m.
    destruct (store !! _) as [bucket|]; [|intros [=]].
    destruct (RateLimit.resetAt bucket <=? now)%Z; [intros [=]|].
    destruct (RateLimit.tokens bucket <=? 0)%Z; [|intros [=]].
    intros [= <-]. split; reflexivity. }
  destruct (RateLimit.enforceRateLimit _ 30 60000 now store) as [[[]|m] store'].
  - destruct (dispatch_targets _ _ _ _ _ _ _ _ _ _ _ _ _ _) as [[rs|error] w'];
      cbn [fst snd]; auto.
  - cbn [fst snd] in *. destruct (Hmsg m eq_refl) as [-> ->].
    split; [reflexivity|]. right. auto.
Qed.

End Handler.

(** An owner's "info" for device s1 of account A1. *)
Lemma POST_results_account_for_effects_witness :
  ∃ added rows,
    sent (POST Js.trim_ascii toy_decipher provider_up log_up fixed_clock the_owner
            (body_of "info" [target1]) db12 0 (∅ : RateLimit.Store) world0).2 = sent world0 ++ added
    ∧ map Send.simSid added = ["HS1"]
    ∧ map row_of rows = [("A1", "s1", "info", "info")].
Proof.
  destruct (POST_results_account_for_effects Js.trim_ascii toy_decipher provider_up log_up
              fixed_clock the_owner (body_of "info" [target1]) db12 0 (∅ : RateLimit.Store) world0
              [Entry.mk "A1" "Alpha" "HS1" "s1" "8900000000000000001" "queued" ""
                 (Some "info") (Some "info") (Some "2024-05-01T10:00:00.000Z")])
    as (added & rows & Hsent & _ & _ & _ & Hadded & Hrows & _);
    [vm_compute; reflexivity|].
  exists added, rows. split; [exact Hsent|]. split; [exact Hadded | exact Hrows].
Defined.

(** The reader holds no write grant; the text it sends as "custom" is
    the write command "reset", and it reaches device HS1. *)
Lemma custom_text_is_sent_on_read_access_witness :
  Commands.isWriteCommand "reset" = true
  ∧ Auth.hasWriteAccess (Auth.scopes reader) "A1" None = false
  ∧ ∃ added,
      sent (POST Js.trim_ascii toy_decipher provider_up log_up fixed_clock reader
              (custom_body " reset " [target1]) db12 0 (∅ : RateLimit.Store) world0).2 = sent world0 ++ added
      ∧ map Send.simSid added = ["HS1"]
      ∧ Forall (λ request, Send.command request = "reset") added.
Proof.
  split; [reflexivity|]. split; [reflexivity|].
  destruct (custom_text_is_sent_on_read_access Js.trim_ascii toy_decipher provider_up log_up
              fixed_clock reader (custom_body " reset " [target1]) db12 0 (∅ : RateLimit.Store) world0
              [Entry.mk "A1" "Alpha" "HS1" "s1" "8900000000000000001" "queued" ""
                 (Some "reset") (Some "reset") (Some "2024-05-01T10:00:00.000Z")])
    as (added & Hsent & Hadded & Hcommand & _);
    [vm_compute; reflexivity | vm_compute; reflexivity |].
  exists added. split; [exact Hsent|]. split; [exact Hadded | exact Hcommand].
Defined.

End DispatchAuditFacts.

(** ** Device sync: what it touches, and how a fleet ends *)
Module DeviceSyncRequestFacts.
Import DeviceSync DeviceSyncRequest.
Local Open Scope string_scope.
Local Open Scope list_scope.

Lemma includes_elem xs x : Js.includes xs x = true → x ∈ xs.
Proof.
  unfold Js.includes. intros H. apply existsb_exists in H as (y & Hin & Heq).
  apply bool_decide_eq_true in Heq. subst y. apply list_elem_of_In. exact Hin.
Qed.

(** *** What the retries and the loops preserve *)

Lemma withRetry_loop_preserves {T E W} (Inv : W → Prop)
    (fn : W → result T E * W) jitter retries base :
  (∀ w, Inv w → Inv (fn w).2) →
  ∀ budget attempt w n slept,
    Inv w →
    Inv (Retry.final (Retry.withRetry_loop fn jitter retries base budget attempt w n slept)).
Proof.
  intros Hfn. induction budget as [|b IH]; intros attempt w n slept Hw;
    cbn [Retry.withRetry_loop]; pose proof (Hfn w Hw) as Hw';
    destruct (fn w) as [[v|e] w']; cbn [snd] in Hw'; try exact Hw'.
  - destruct (_ >? _)%Z; exact Hw'.
  - destruct (_ >? _)%Z; [exact Hw'|]. apply IH. exact Hw'.
Qed.

Lemma sequentialProcess_from_preserves {T W} (Inv : W → Prop)
    (handler : T → nat → W → result unit Js.thrown * W) jitter retries base items :
  (∀ item index w, item ∈ items → Inv w → Inv (handler item index w).2) →
  ∀ index w,
    Inv w →
    Inv (DbUtils.sequentialProcess_from handler jitter retries base items index w).2.
Proof.
  induction items as [|item items IH]; intros Hh index w Hw;
    cbn [DbUtils.sequentialProcess_from].
  - exact Hw.
  - assert (Hfinal : Inv (Retry.final
                            (Retry.withRetry (handler item index) jitter retries base w))).
    { unfold Retry.withRetry. apply withRetry_loop_preserves; [|exact Hw].
      intros w0. apply Hh. apply list_elem_of_here. }
    destruct (Retry.outcome _); [|exact Hfinal].
    apply IH; [|exact Hfinal].
    intros item' index' w0 Hin. apply Hh. apply list_elem_of_further. exact Hin.
Qed.

Lemma sequentialProcess_from_app {T W}
    (handler : T → nat → W → result unit Js.thrown * W) jitter retries base pre post :
  ∀ index w,
    DbUtils.sequentialProcess_from handler jitter retries base (pre ++ post) index w
    = match DbUtils.sequentialProcess_from handler jitter retries base pre index w with
      | (Ok _, w1) =>
          DbUtils.sequentialProcess_from handler jitter retries base post
            (index + List.length pre) w1
      | (Throw error, w1) => (Throw error, w1)
      end.
Proof.
  induction pre as [|item pre IH]; intros index w; cbn [app DbUtils.sequentialProcess_from].
  - cbn [List.length]. rewrite Nat.add_0_r. reflexivity.
  - destruct (Retry.outcome _); [|reflexivity].
    rewrite IH. cbn [List.length].
    replace (S index + List.length pre)%nat with (index + S (List.length pre))%nat by lia.
    reflexivity.
Qed.

Section Route.
Variable decipher : string → string → string → result string Js.thrown.
Variable listSims :
  list (Kore.KoreAccountSecret * string) → Kore.KoreAccountSecret → string →
  result (list Kore.KoreSim) Js.thrown.
Variable upsert : list Upsert.t → Upsert.t → result unit Js.thrown.
Variable jitter : Z → Z.
Variable context : Auth.AuthContext.
Variable fleetFilter : option (list string).
Variable ok : Account.t → Fleet.t → Prop.

Local Abbreviation touches_only := (touches_only decipher ok).

Lemma sync_sim_preserves account fleet sim index w :
  ok account fleet → touches_only w → touches_only (sync_sim upsert account fleet sim index w).2.
Proof.
  intros Hok [Hl Hu]. split; [exact Hl|]. cbn [sync_sim snd upserts].
  apply Forall_app. split; [exact Hu|]. constructor; [|constructor].
  exists account, fleet. split; [exact Hok|]. split; reflexivity.
Qed.

Lemma sync_fleet_preserves account secret fleet index w :
  ok account fleet →
  Crypto.decryptSecret decipher (Account.clientSecretEncrypted account) = Ok secret →
  touches_only w →
  touches_only (sync_fleet listSims upsert jitter account secret fleet index w).2.
Proof.
  intros Hok Hsecret [Hl Hu]. unfold sync_fleet.
  set (credentials := Kore.mkSecret _ _ _ _ _).
  set (w1 := mkWorld (listings w ++ [(credentials, Fleet.externalRef fleet)]) _ _ _).
  assert (H1 : touches_only w1).
  { split; [|exact Hu]. cbn [w1 listings]. apply Forall_app. split; [exact Hl|].
    constructor; [|constructor]. exists account, fleet, secret.
    split; [exact Hok|]. split; [exact Hsecret | reflexivity]. }
  destruct (listSims (listings w) credentials (Fleet.externalRef fleet)) as [sims|err].
  - pose proof (sequentialProcess_from_preserves touches_only (sync_sim upsert account fleet)
                  jitter 5 200 sims
                  (λ sim index' w0 _ Hw0, sync_sim_preserves account fleet sim index' w0
                                            Hok Hw0) O w1 H1) as H2.
    fold (DbUtils.sequentialProcess (sync_sim upsert account fleet) jitter 5 200 sims w1) in H2.
    destruct (DbUtils.sequentialProcess (sync_sim upsert account fleet) jitter 5 200 sims w1)
      as [[[]|err] w2]; cbn [snd] in *; [|exact H2].
    destruct H2 as [Hl2 Hu2]. split; [exact Hl2 | exact Hu2].
  - destruct (is_404 err); cbn [snd]; [|exact H1].
    destruct H1 as [Hl1 Hu1]. split; [exact Hl1 | exact Hu1].
Qed.

Lemma targetFleets_member account fleet :
  fleet ∈ targetFleets context fleetFilter account →
  fleet ∈ Account.fleets account
  ∧ (Js.has_length fleetFilter = true → Fleet.id fleet ∈ default [] fleetFilter)
  ∧ readable context account fleet.
Proof.
  unfold targetFleets. intros Hin. apply list_elem_of_filter in Hin as [Hkeep Hin].
  split; [exact Hin|].
  destruct (Js.has_length fleetFilter) eqn:Hlen;
    [destruct (Js.includes (default [] fleetFilter) (Fleet.id fleet)) eqn:Hinc|];
    cbn [andb negb] in Hkeep; try discriminate Hkeep.
  all: split; [first [intros _; apply includes_elem; exact Hinc | intros [=]]|].
  all: destruct (Auth.isOwner context) eqn:Howner; [left; exact Howner|right].
  all: cbn [fmap option_fmap option_map default] in Hkeep.
  all: apply existsb_exists in Hkeep as (scope & Hscope & Hfleet).
  all: apply list_elem_of_In, list_elem_of_filter in Hscope as [Hgrant Hscope].
  all: apply andb_true_iff in Hgrant as [Hacc Hread].
  all: apply bool_decide_eq_true in Hacc.
  all: exists scope; refine (conj Hscope (conj Hacc (conj Hread _))).
  all: apply orb_true_iff in Hfleet as [Hnone|Hthis];
         [left; exact (bool_decide_eq_true_1 _ Hnone)
         |right; exact (bool_decide_eq_true_1 _ Hthis)].
Qed.

Lemma sync_account_preserves account index w :
  (∀ fleet, fleet ∈ targetFleets context fleetFilter account → ok account fleet) →
  touches_only w →
  touches_only (sync_account decipher listSims upsert jitter context fleetFilter account index w).2.
Proof.
  intros Hok Hw. unfold sync_account.
  destruct (Crypto.decryptSecret decipher _) as [secret|err] eqn:Hdec;
    [|destruct Hw as [Hl Hu]; split; [exact Hl | exact Hu]].
  pose proof (sequentialProcess_from_preserves touches_only
                (sync_fleet listSims upsert jitter account secret) jitter
                DbUtils.default_retries DbUtils.default_baseDelayMs
                (targetFleets context fleetFilter account)
                (λ fleet index' w0 Hin Hw0,
                   sync_fleet_preserves account secret fleet index' w0 (Hok fleet Hin)
                     Hdec Hw0) O w Hw) as H2.
  fold (DbUtils.sequentialProcess (sync_fleet listSims upsert jitter account secret) jitter
          DbUtils.default_retries DbUtils.default_baseDelayMs
          (targetFleets context fleetFilter account) w) in H2.
  destruct (DbUtils.sequentialProcess _ _ _ _ _ _) as [[[]|err] w']; cbn [snd] in *;
    [exact H2|].
  destruct H2 as [Hl Hu]. split; [exact Hl | exact Hu].
Qed.

Lemma sync_accounts_preserves accounts :
  (∀ account fleet, account ∈ accounts →
                    fleet ∈ targetFleets context fleetFilter account → ok account fleet) →
  touches_only (sync_accounts decipher listSims upsert jitter context fleetFilter accounts).2.
Proof.
  intros Hok. unfold sync_accounts.
  pose proof (sequentialProcess_from_preserves touches_only
                (sync_account decipher listSims upsert jitter context fleetFilter) jitter
                DbUtils.default_retries DbUtils.default_baseDelayMs accounts
                (λ account index' w0 Hin Hw0,
                   sync_account_preserves account index' w0
                     (λ fleet, Hok account fleet Hin) Hw0)
                O world0 (conj (List.Forall_nil _) (List.Forall_nil _))) as H2.
  fold (DbUtils.sequentialProcess
          (sync_account decipher listSims upsert jitter context fleetFilter) jitter
          DbUtils.default_retries DbUtils.default_baseDelayMs accounts world0) in H2.
  destruct (DbUtils.sequentialProcess _ _ _ _ _ _) as [[[]|err] w']; exact H2.
Qed.

(** *** One fleet *)

Lemma sync_sims_loop account fleet sims :
  (∀ before call, upsert before call = Ok tt) →
  ∀ index w,
    DbUtils.sequentialProcess_from (sync_sim upsert account fleet) jitter 5 200 sims index w
    = (Ok tt, mkWorld (listings w) (upserts w ++ map (upsert_of account fleet) sims)
                (logged w) (summary w)).
Proof.
  intros Hup. induction sims as [|sim sims IH]; intros index w.
  - cbn [DbUtils.sequentialProcess_from map]. rewrite app_nil_r. destruct w. reflexivity.
  - assert (Hcall : sync_sim upsert account fleet sim index w
                    = (Ok tt, mkWorld (listings w)
                                (upserts w ++ [upsert_of account fleet sim])
                                (logged w) (summary w)))
      by (unfold sync_sim; rewrite Hup; reflexivity).
    rewrite (DeviceSyncFacts.sequentialProcess_from_next jitter
               (sync_sim upsert account fleet) 5 200 sim sims index w _ Hcall).
    rewrite IH. cbn [listings upserts logged summary map]. rewrite <- app_assoc.
    reflexivity.
Qed.

Lemma after_failing_upsert account fleet sim index err :
  (∀ before, upsert before (upsert_of account fleet sim) = Throw err) →
  ∀ k w,
    Retry.after (sync_sim upsert account fleet sim index) k w
    = mkWorld (listings w) (upserts w ++ replicate k (upsert_of account fleet sim))
        (logged w) (summary w)
    ∧ (sync_sim upsert account fleet sim index w).1 = Throw err.
Proof.
  intros Hdown.
  assert (Hcall : ∀ w, sync_sim upsert account fleet sim index w
                       = (Throw err,
                          mkWorld (listings w)
                            (upserts w ++ [upsert_of account fleet sim])
                            (logged w) (summary w))).
  { intros w. unfold sync_sim.
    change (Upsert.mk _ _ _ _ _ _ _) with (upsert_of account fleet sim).
    rewrite Hdown. reflexivity. }
  induction k as [|k IH]; intros w; (split; [|rewrite Hcall; reflexivity]).
  - cbn [Retry.after replicate]. rewrite app_nil_r. destruct w. reflexivity.
  - cbn [Retry.after]. rewrite Hcall. cbn [snd].
    rewrite (proj1 (IH _)). cbn [listings upserts logged summary replicate].
    rewrite <- app_assoc. reflexivity.
Qed.

(** X18.  A fleet whose listing succeeds.  When the store takes every
    upsert, the handler upserts every listed device, in the order of
    the listing, into this account and this fleet, and pushes one
    summary entry that counts them; it asked the provider once and
    logged nothing.  When the store keeps refusing the upsert of the
    first listed device, the handler asks for that upsert six times
    and then throws the store's error: no summary entry is pushed and
    the devices after the first are not upserted. *)
Theorem sync_fleet_upserts_every_listed_device account secret fleet index w sims :
  listSims (listings w) (credentials_of account secret) (Fleet.externalRef fleet)
  = Ok sims →
  ((∀ before call, upsert before call = Ok tt) →
   sync_fleet listSims upsert jitter account secret fleet index w
   = (Ok tt,
      mkWorld (listings w ++ [(credentials_of account secret, Fleet.externalRef fleet)])
        (upserts w ++ map (upsert_of account fleet) sims)
        (logged w)
        (summary w ++ [Summary.mk (Account.id account) (Some (Fleet.id fleet))
                         (Some (List.length sims)) None])))
  ∧ (∀ sim rest err,
       sims = sim :: rest →
       (∀ before, upsert before (upsert_of account fleet sim) = Throw err) →
       sync_fleet listSims upsert jitter account secret fleet index w
       = (Throw err,
          mkWorld (listings w ++ [(credentials_of account secret,
                                   Fleet.externalRef fleet)])
            (upserts w ++ replicate 6 (upsert_of account fleet sim))
            (logged w) (summary w))).
Proof.
  intros Hlist. split.
  - intros Hup. unfold sync_fleet.
    change (Kore.mkSecret _ _ _ _ _) with (credentials_of account secret).
    rewrite Hlist. unfold DbUtils.sequentialProcess. rewrite (sync_sims_loop _ _ _ Hup).
    reflexivity.
  - intros sim rest err -> Hdown. unfold sync_fleet.
    change (Kore.mkSecret _ _ _ _ _) with (credentials_of account secret).
    rewrite Hlist. unfold DbUtils.sequentialProcess.
    cbn [DbUtils.sequentialProcess_from].
    set (w1 := mkWorld _ (upserts w) (logged w) (summary w)).
    destruct (RetryFacts.withRetry_loop_always_fails
                (sync_sim upsert account fleet sim 0) jitter 5 200
                (λ w0, ex_intro _ err
                         (proj2 (after_failing_upsert account fleet sim O err Hdown O w0)))
                5%nat 0%Z w1 O [] eq_refl) as (_ & Hfinal & Houtcome).
    unfold Retry.withRetry. change (Z.to_nat 5) with 5%nat.
    rewrite Houtcome, Hfinal.
    rewrite (proj2 (after_failing_upsert account fleet sim O err Hdown O _)).
    rewrite (proj1 (after_failing_upsert account fleet sim O err Hdown 6 w1)).
    reflexivity.
Qed.

(** *** A fleet that keeps failing *)

Lemma after_failing_listing account secret fleet index err :
  (∀ before, listSims before (credentials_of account secret) (Fleet.externalRef fleet)
             = Throw err) →
  is_404 err = false →
  ∀ k w,
    Retry.after (sync_fleet listSims upsert jitter account secret fleet index) k w
    = mkWorld (listings w ++ replicate k (credentials_of account secret,
                                          Fleet.externalRef fleet))
        (upserts w) (logged w) (summary w)
    ∧ (sync_fleet listSims upsert jitter account secret fleet index w).1 = Throw err.
Proof.
  intros Hdown Hnot.
  assert (Hcall : ∀ w, sync_fleet listSims upsert jitter account secret fleet index w
                       = (Throw err,
                          mkWorld (listings w ++ [(credentials_of account secret,
                                                   Fleet.externalRef fleet)])
                            (upserts w) (logged w) (summary w))).
  { intros w. unfold sync_fleet.
    change (Kore.mkSecret _ _ _ _ _) with (credentials_of account secret).
    rewrite Hdown, Hnot. reflexivity. }
  induction k as [|k IH]; intros w; (split; [|rewrite Hcall; reflexivity]).
  - cbn [Retry.after replicate]. rewrite app_nil_r. destruct w. reflexivity.
  - cbn [Retry.after]. rewrite Hcall. cbn [snd].
    rewrite (proj1 (IH _)). cbn [listings upserts logged summary replicate].
    rewrite <- app_assoc. reflexivity.
Qed.

(** X19.  A fleet whose listing keeps failing with an error that is not a
    404 ends the account: after the fleets before it have gone
    through, the route asks for the listing five times, then pushes
    one error entry for the account with the error's message and
    returns; the fleets after it are not listed, and nothing is
    upserted or logged for the failing fleet. *)
Theorem sync_account_gives_up_after_five_listings
    account secret index w w1 pre fleet rest err :
  Crypto.decryptSecret decipher (Account.clientSecretEncrypted account) = Ok secret →
  targetFleets context fleetFilter account = pre ++ fleet :: rest →
  DbUtils.sequentialProcess (sync_fleet listSims upsert jitter account secret) jitter
    DbUtils.default_retries DbUtils.default_baseDelayMs pre w = (Ok tt, w1) →
  (∀ before, listSims before (credentials_of account secret) (Fleet.externalRef fleet)
             = Throw err) →
  is_404 err = false →
  sync_account decipher listSims upsert jitter context fleetFilter account index w
  = (Ok tt,
     mkWorld (listings w1 ++ replicate 5 (credentials_of account secret,
                                          Fleet.externalRef fleet))
       (upserts w1) (logged w1)
       (summary w1 ++ [Summary.mk (Account.id account) None None
                         (Some (Js.message_or "sync failed" err))])).
Proof.
  intros Hdec Htargets Hpre Hdown Hnot. unfold sync_account.
  rewrite Hdec, Htargets. unfold DbUtils.sequentialProcess in *.
  rewrite sequentialProcess_from_app, Hpre. cbn [DbUtils.sequentialProcess_from].
  set (fn := sync_fleet listSims upsert jitter account secret fleet (0 + List.length pre)).
  destruct (RetryFacts.withRetry_loop_always_fails fn jitter
              DbUtils.default_retries DbUtils.default_baseDelayMs
              (λ w0, ex_intro _ err
                       (proj2 (after_failing_listing account secret fleet
                                 (0 + List.length pre) err Hdown Hnot O w0)))
              4%nat 0%Z w1 O [] eq_refl) as (_ & Hfinal & Houtcome).
  unfold Retry.withRetry.
  change (Z.to_nat DbUtils.default_retries) with 4%nat.
  rewrite Houtcome, Hfinal. subst fn.
  rewrite (proj2 (after_failing_listing account secret fleet (0 + List.length pre) err
                    Hdown Hnot O _)).
  rewrite (proj1 (after_failing_listing account secret fleet (0 + List.length pre) err
                    Hdown Hnot 5 w1)).
  reflexivity.
Qed.

End Route.

(** *** The handler as a whole *)

Section Handler.
Variable decipher : string → string → string → result string Js.thrown.
Variable listSims :
  list (Kore.KoreAccountSecret * string) → Kore.KoreAccountSecret → string →
  result (list Kore.KoreSim) Js.thrown.
Variable upsert : list Upsert.t → Upsert.t → result unit Js.thrown.
Variable jitter : Z → Z.

Lemma accountIds_of_requested context accountFilter all accountIds id :
  accountIds_of context accountFilter all = Ok accountIds →
  id ∈ accountIds →
  Js.has_length accountFilter = true →
  id ∈ default [] accountFilter.
Proof.
  unfold accountIds_of. intros Hids Hin Hlen. rewrite Hlen in Hids.
  destruct (Auth.isOwner context).
  - injection Hids as <-. exact Hin.
  - destruct (set_of _) as [|a allowed]; [discriminate Hids|].
    destruct (filter _ (default [] accountFilter)) as [|b ids] eqn:Hfilter;
      [discriminate Hids|].
    injection Hids as <-. rewrite <- Hfilter in Hin.
    apply list_elem_of_filter in Hin as [_ Hin]. exact Hin.
Qed.

(** X20.  Whatever the route answers, every listing it asked of the provider
    and every upsert it made was for a fleet of an account of the
    database that the request names (as far as it names accounts or
    fleets) and that the caller may read: the caller is an owner, or
    holds a grant on the account that carries read and is account-wide
    or on that fleet.  The listing carried that account's credentials,
    with the stored secret decrypted. *)
Theorem device_sync_touches_only_readable_fleets context body db :
  let touched account fleet :=
    account ∈ db ∧ fleet ∈ Account.fleets account
    ∧ requested body account fleet ∧ readable context account fleet in
  let w := (POST decipher listSims upsert jitter context body db).2 in
  Forall (listing_for decipher touched) (listings w)
  ∧ Forall (upsert_into touched) (upserts w).
Proof.
  intros touched w. subst w. unfold POST.
  destruct (BodySchema_ok body); cbn [negb]; [|split; constructor].
  destruct (accountIds_of context (Body.accountIds body) (map Account.id db))
    as [accountIds|error] eqn:Hids; [|split; constructor].
  cbv zeta.
  pose proof (sync_accounts_preserves decipher listSims upsert jitter context
                (Body.fleetIds body) touched
                (filter (λ account, Js.includes accountIds (Account.id account) = true) db))
    as Hrun.
  destruct (sync_accounts _ _ _ _ _ _) as [[summary|error] w']; cbn [snd] in *;
    apply Hrun; intros account fleet Haccount Hfleet;
    apply list_elem_of_filter in Haccount as [Hnamed Haccount];
    destruct (targetFleets_member context (Body.fleetIds body) account fleet Hfleet)
      as (Hmember & Hfilter & Hread);
    (refine (conj Haccount (conj Hmember (conj (conj _ Hfilter) Hread))));
    intros Hlen;
    exact (accountIds_of_requested context _ _ _ _ Hids (includes_elem _ _ Hnamed) Hlen).
Qed.

End Handler.

(** Fleet HF2 of account A lists one device, and the store takes it. *)
Lemma sync_fleet_upserts_every_listed_device_witness :
  sync_fleet (listing_through "" Kore.plain one_device 1) upsert_up Kore.no_jitter
    accountA "5ec2e7" fleetA2 0 world0
  = (Ok tt,
     mkWorld [(credentials_of accountA "5ec2e7", "HF2")]
       [Upsert.mk "HS7" "8907" None "active" None "A" "f2"]
       []
       [Summary.mk "A" (Some "f2") (Some 1%nat) None]).
Proof.
  apply (proj1 (sync_fleet_upserts_every_listed_device
                  (listing_through "" Kore.plain one_device 1) upsert_up
                  Kore.no_jitter accountA "5ec2e7" fleetA2 O world0
                  [Kore.mkSim "HS7" "8907" None "active" "HF2" None None] eq_refl)).
  intros before call. reflexivity.
Defined.

(** An owner, account A, and a provider that is down: fleet HF1 is
    asked for five times and fleet HF2 never. *)
Lemma sync_account_gives_up_after_five_listings_witness :
  sync_account Dispatch.toy_decipher listing_down upsert_up Kore.no_jitter
    Dispatch.the_owner None accountA 0 world0
  = (Ok tt,
     mkWorld ([] ++ replicate 5 (credentials_of accountA "5ec2e7", "HF1")) [] []
       ([] ++ [Summary.mk "A" None None (Some "KORE API request failed (500)")])).
Proof.
  apply (sync_account_gives_up_after_five_listings Dispatch.toy_decipher listing_down upsert_up
           Kore.no_jitter Dispatch.the_owner None accountA "5ec2e7" O world0 world0
           [] fleetA1 [fleetA2] (Js.KoreHttpError 500 "KORE API request failed (500)"));
    first [reflexivity | intros before; reflexivity].
Defined.

End DeviceSyncRequestFacts.

(** ** The logs of a device *)
Module SmsLogsFacts.
Import Kore KoreClient SmsLogs.
Local Open Scope string_scope.
Local Open Scope list_scope.

Section Logs.
Variable base : string.
Variable token_endpoint : nat → result TokenResponse Js.thrown.
Variable jitter : Z → Z.
Variable describe : KoreAccountSecret → TokenResponse → string.
Variable data_endpoint :
  list Request → Request → result (DataResponse CommandList.t) Js.thrown.
Variable describe_failure : DataResponse CommandList.t → string.
Variable encodeURIComponent : string → string.
Variable show_number : Z → string.
Variable clock : string.
Variable decipher : string → string → string → result string Js.thrown.

Local Abbreviation koreFetch' :=
  (koreFetch base token_endpoint jitter describe data_endpoint describe_failure).
Local Abbreviation listSmsLogs' :=
  (listSmsLogs base token_endpoint jitter describe data_endpoint describe_failure
     encodeURIComponent show_number clock).
Local Abbreviation GET' :=
  (GET base token_endpoint jitter describe data_endpoint describe_failure
     encodeURIComponent show_number clock decipher).

(** With a token, [koreFetch] sends its one request between one and
    four times, and nothing else. *)
Lemma koreFetch_requests account path method' body' now later st token tokens' :
  getAccessToken token_endpoint jitter describe account now later (tokens st)
  = (Ok token, tokens') →
  ∃ k, (1 ≤ k ≤ 4)%nat
       ∧ requests (koreFetch' account path method' body' now later st).2
         = requests st ++ replicate k (mkRequest (kore_url base path) method' token body').
Proof.
  intros Htoken. unfold koreFetch. rewrite Htoken.
  set (request := mkRequest (kore_url base path) method' token body').
  destruct (BackoffFacts.withRetry_loop_general
              (fetch_data data_endpoint request) jitter Retry.default_retries
              Retry.default_baseDelayMs 3%nat 0%Z (requests st) O [])
    as (k & Hk & _ & Hfinal & _); [lia | reflexivity |].
  exists k. split; [lia|].
  change (Retry.withRetry_loop (fetch_data data_endpoint request) jitter
            Retry.default_retries Retry.default_baseDelayMs 3 0 (requests st) 0 [])
    with (Retry.withRetry (fetch_data data_endpoint request) jitter
            Retry.default_retries Retry.default_baseDelayMs (requests st)) in Hfinal.
  rewrite KoreFetchFacts.fetch_data_after in Hfinal.
  cbv zeta. destruct (Retry.outcome _) as [response|err];
    [destruct (negb (data_ok response))|]; cbn [snd requests]; exact Hfinal.
Qed.

Lemma listSmsLogs_requests account params now later st :
  requests (listSmsLogs' account params now later st).2
  = requests (koreFetch' account (logs_path encodeURIComponent show_number params)
                "GET" None now later st).2.
Proof.
  unfold listSmsLogs. destruct (koreFetch' _ _ _ _ _ _ _) as [[data|err] st']; reflexivity.
Qed.

Local Ltac refused :=
  cbn [fst snd]; split;
  [split; [auto | reflexivity]
  |intros [H | (? & ? & [=])]; exfalso; apply H; reflexivity].

(** X21.  The route asks the provider for nothing unless the device was
    found, is on the account the query names, and the caller may read
    it: when any request was sent, or logs were returned, the caller
    is an owner or holds a grant on the device's account that carries
    read and is account-wide or on the device's fleet.  Every refusal
    (400, 404, 403) leaves the client as it was. *)
Theorem sim_logs_asks_provider_only_for_readable_device
    context found accountId cursor createdAfter now later st :
  let run := GET' context found accountId cursor createdAfter now later st in
  match run.1 with
  | Rejected status _ => (status = 400 ∨ status = 404 ∨ status = 403)%Z ∧ run.2 = st
  | _ => True
  end
  ∧ ((requests run.2 ≠ requests st ∨ ∃ commands next, run.1 = Logs commands next) →
     ∃ sim account,
       found = Some (sim, account)
       ∧ accountId = Some (Dispatch.Sim.accountId sim)
       ∧ (Auth.isOwner context = true
          ∨ ∃ scope, scope ∈ Auth.scopes context
                     ∧ Auth.accountId scope = Dispatch.Sim.accountId sim
                     ∧ Auth.canRead scope = true
                     ∧ (Auth.fleetId scope = None
                        ∨ Auth.fleetId scope = Some (Dispatch.Sim.fleetId sim)))).
Proof.
  intros run. subst run. unfold GET.
  destruct (Js.truthy accountId); cbn [negb];
    [|refused].
  destruct found as [[sim account]|];
    [|refused].
  destruct (bool_decide (Some (Dispatch.Sim.accountId sim) = accountId)) eqn:Hacc;
    cbn [negb]; [|refused].
  apply bool_decide_eq_true in Hacc. subst accountId. cbn [default from_option id].
  destruct (negb (Auth.isOwner context)
            && negb (allowed context (Dispatch.Sim.accountId sim) sim)) eqn:Hgate;
    [refused|].
  assert (Hread : Auth.isOwner context = true
                  ∨ ∃ scope, scope ∈ Auth.scopes context
                     ∧ Auth.accountId scope = Dispatch.Sim.accountId sim
                     ∧ Auth.canRead scope = true
                     ∧ (Auth.fleetId scope = None
                        ∨ Auth.fleetId scope = Some (Dispatch.Sim.fleetId sim))).
  { destruct (Auth.isOwner context); [left; reflexivity|right].
    cbn [negb andb] in Hgate. apply negb_false_iff in Hgate.
    apply existsb_exists in Hgate as (scope & Hin & Hperm).
    apply list_elem_of_In in Hin. exists scope. split; [exact Hin|].
    destruct (bool_decide (Auth.accountId scope = Dispatch.Sim.accountId sim)) eqn:Hsame;
      cbn [negb] in Hperm; [|discriminate Hperm].
    apply bool_decide_eq_true in Hsame.
    apply andb_true_iff in Hperm as [Hfleet Hcan].
    refine (conj Hsame (conj Hcan _)).
    apply orb_true_iff in Hfleet as [Hnone|Hthis];
      [left; exact (bool_decide_eq_true_1 _ Hnone)
      |right; exact (bool_decide_eq_true_1 _ Hthis)]. }
  split.
  - destruct (Crypto.decryptSecret decipher _) as [secret|err]; [|exact I].
    destruct (listSmsLogs' _ _ _ _ _) as [[[commands next]|err] st']; exact I.
  - intros _. exists sim, account. split; [reflexivity|]. split; [reflexivity | exact Hread].
Qed.

(** X22.  With a cursor, the request is the cursor's and nothing of the
    device's: a caller who passes the checks for one device makes the
    route send the account's token to the URL the cursor gives, as it
    stands when it starts with "http" and after the base otherwise,
    between one and four times. *)
Theorem sim_logs_request_follows_cursor
    context sim account secret cursor createdAfter now later st token tokens' :
  let run :=
    GET' context (Some (sim, account)) (Some (Dispatch.Sim.accountId sim)) (Some cursor)
      createdAfter now later st in
  let credentials :=
    mkSecret (Dispatch.Account.label account) (Dispatch.Account.clientId account) secret
      (Dispatch.Account.oauthScope account) (Dispatch.Account.oauthAudience account) in
  Dispatch.Sim.accountId sim ≠ "" →
  cursor ≠ "" →
  Auth.isOwner context = true ∨ allowed context (Dispatch.Sim.accountId sim) sim = true →
  Crypto.decryptSecret decipher (Dispatch.Account.clientSecretEncrypted account)
  = Ok secret →
  getAccessToken token_endpoint jitter describe credentials now later (tokens st)
  = (Ok token, tokens') →
  (∃ k, (1 ≤ k ≤ 4)%nat
        ∧ requests run.2
          = requests st ++ replicate k (mkRequest (kore_url base cursor) "GET" token None))
  ∧ (String.prefix "http" cursor = true → kore_url base cursor = cursor).
Proof.
  intros run credentials Hacc Hcursor Hmay Hdec Htoken. split.
  - subst run. unfold GET.
    assert (Htruthy : ∀ s, s ≠ "" → Js.truthy (Some s) = true).
    { intros s Hs. unfold Js.truthy. rewrite (bool_decide_eq_false_2 _ Hs). reflexivity. }
    rewrite (Htruthy _ Hacc). cbn [negb].
    rewrite bool_decide_eq_true_2 by reflexivity. cbn [negb default from_option id].
    assert (Hgate : negb (Auth.isOwner context)
                    && negb (allowed context (Dispatch.Sim.accountId sim) sim) = false).
    { destruct Hmay as [-> | ->]; [reflexivity | apply andb_false_r]. }
    rewrite Hgate, Hdec. fold credentials.
    destruct (koreFetch_requests credentials
                (logs_path encodeURIComponent show_number
                   (Params.mk (Dispatch.Sim.simSid sim) createdAfter (Some 50%Z)
                      (Some cursor)))
                "GET" None now later st token tokens' Htoken) as (k & Hk & Hreq).
    exists k. split; [exact Hk|].
    rewrite <- listSmsLogs_requests in Hreq.
    unfold logs_path in Hreq. cbn [Params.nextPageUrl default from_option id] in Hreq.
    rewrite (Htruthy _ Hcursor) in Hreq.
    destruct (listSmsLogs' _ _ _ _ _) as [[[commands next]|err] st']; exact Hreq.
  - intros Hhttp. unfold kore_url. rewrite Hhttp. reflexivity.
Qed.

End Logs.

(** The reader may read device s1; the cursor names another host. *)
Lemma sim_logs_request_follows_cursor_witness :
  ∃ k, (1 ≤ k ≤ 4)%nat
       ∧ requests
           (GET "https://api.example/v1" token_up no_jitter token_error no_commands
              (λ _, "") plain (λ _, "50") "2024-05-01T10:00:00.000Z" Dispatch.toy_decipher
              DispatchAudit.reader (Some (Dispatch.sim1, Dispatch.acc1)) (Some "A1")
              (Some "https://elsewhere.example/collect") None 0%Z 100%Z
              (mkClient no_tokens [])).2
         = [] ++ replicate k (mkRequest (kore_url "https://api.example/v1"
                                           "https://elsewhere.example/collect")
                                "GET" "tok-1" None).
Proof.
  apply (proj1 (sim_logs_request_follows_cursor "https://api.example/v1" token_up
           no_jitter token_error no_commands (λ _, "") plain (λ _, "50")
           "2024-05-01T10:00:00.000Z" Dispatch.toy_decipher
           DispatchAudit.reader Dispatch.sim1 Dispatch.acc1 "5ec2e7"
           "https://elsewhere.example/collect" None 0%Z 100%Z (mkClient no_tokens [])
           "tok-1" (getAccessToken token_up no_jitter token_error
                      (mkSecret "Alpha" "client-1" "5ec2e7" None None) 0%Z 100%Z
                      no_tokens).2
           ltac:(discriminate) ltac:(discriminate) (or_intror eq_refl) eq_refl eq_refl)).
Defined.

End SmsLogsFacts.

(** ** The devices route: what its filter lets through *)
Module SimsQueryFacts.
Import SimsQuery.
Local Open Scope string_scope.
Local Open Scope list_scope.

Lemma includes_iff xs x : Js.includes xs x = true ↔ x ∈ xs.
Proof.
  unfold Js.includes. rewrite existsb_exists. split.
  - intros (y & Hin & Heq). apply bool_decide_eq_true in Heq. subst y.
    apply list_elem_of_In. exact Hin.
  - intros Hin. exists x. split; [apply list_elem_of_In; exact Hin|].
    apply bool_decide_eq_true. reflexivity.
Qed.

Lemma set_of_elem xs x : x ∈ DeviceSyncRequest.set_of xs ↔ x ∈ xs.
Proof.
  unfold DeviceSyncRequest.set_of.
  assert (H : ∀ seen,
             x ∈ foldl (λ seen x, if Js.includes seen x then seen else seen ++ [x]) seen xs
             ↔ x ∈ seen ∨ x ∈ xs).
  { induction xs as [|y xs IH]; intros seen; cbn [foldl].
    - rewrite elem_of_nil. tauto.
    - rewrite IH, elem_of_cons. destruct (Js.includes seen y) eqn:Hinc.
      + apply includes_iff in Hinc. split; [tauto|].
        intros [H|[->|H]]; tauto.
      + rewrite elem_of_app, list_elem_of_singleton. tauto. }
  rewrite H, elem_of_nil. tauto.
Qed.

Lemma accountIds_elem context accountId :
  accountId ∈ accountIds context ↔ reads_account context accountId.
Proof.
  unfold accountIds, reads_account, readable. rewrite set_of_elem, list_elem_of_fmap.
  split.
  - intros (scope & -> & Hin). apply list_elem_of_filter in Hin as [Hread Hin].
    exists scope. split; [exact Hin|]. split; [exact Hread | reflexivity].
  - intros (scope & Hin & Hread & <-). exists scope. split; [reflexivity|].
    apply list_elem_of_filter. split; [exact Hread | exact Hin].
Qed.

Lemma fleetIds_elem context fleetId :
  fleetId ∈ fleetIds context ↔ reads_fleet context fleetId.
Proof.
  unfold fleetIds, reads_fleet, readable. rewrite set_of_elem, list_elem_of_fmap.
  split.
  - intros (scope & -> & Hin). apply list_elem_of_filter in Hin as [Htruthy Hin].
    apply list_elem_of_filter in Hin as [Hread Hin].
    destruct (Auth.fleetId scope) as [f|] eqn:Hf; [|discriminate Htruthy].
    cbn in Htruthy |- *. apply negb_true_iff, bool_decide_eq_false in Htruthy.
    split; [exact Htruthy|]. exists scope. split; [exact Hin|].
    split; [exact Hread | exact Hf].
  - intros (Hne & scope & Hin & Hread & Hf). exists scope. split; [rewrite Hf; reflexivity|].
    apply list_elem_of_filter. split.
    + rewrite Hf. cbn. apply negb_true_iff, bool_decide_eq_false. exact Hne.
    + apply list_elem_of_filter. split; [exact Hread | exact Hin].
Qed.

Lemma has_length_elem (xs : list string) x : x ∈ xs → has_length xs = true.
Proof. destruct xs; [intros H; inversion H | reflexivity]. Qed.

Lemma has_length_false (xs : list string) : has_length xs = false → xs = [].
Proof. destruct xs; [reflexivity | discriminate]. Qed.

(** X23.  What a caller who is not an owner can get from the route: only
    devices of accounts the caller holds a read grant on (from any of
    its scopes, account-wide or on a fleet) and, when accounts are
    asked for, of these.  When the fleet restriction applies, that is,
    when a fleet is asked for that the caller holds a read grant on,
    or no fleet is asked for and the caller holds a read grant on some
    fleet, only devices of such fleets get through, and then the
    devices of the accounts the caller holds account-wide are left
    out with the others. *)
Theorem sims_query_stays_within_readable_accounts
    context accountFilters fleetFilters sim :
  Auth.isOwner context = false →
  selected context accountFilters fleetFilters sim = true →
  reads_account context (Dispatch.Sim.accountId sim)
  ∧ (has_length accountFilters = true → Dispatch.Sim.accountId sim ∈ accountFilters)
  ∧ (∀ fleetId,
       reads_fleet context fleetId →
       (if has_length fleetFilters then fleetId ∈ fleetFilters else True) →
       reads_fleet context (Dispatch.Sim.fleetId sim)
       ∧ (has_length fleetFilters = true → Dispatch.Sim.fleetId sim ∈ fleetFilters)).
Proof.
  intros Howner. unfold selected, whereClause. rewrite Howner.
  destruct (readable context) as [|scope0 rest] eqn:Hreadable; [discriminate|].
  cbv zeta. unfold matches. cbn [accountId_in fleetId_in].
  intros Hsel. apply andb_true_iff in Hsel as [Hacc Hfleet].
  apply includes_iff in Hacc.
  split; [|split].
  - destruct (has_length accountFilters).
    + apply list_elem_of_filter in Hacc as [Hin _].
      apply accountIds_elem, includes_iff. exact Hin.
    + apply accountIds_elem. exact Hacc.
  - intros Hlen. rewrite Hlen in Hacc.
    apply list_elem_of_filter in Hacc as [_ Hin]. exact Hin.
  - intros fleetId Hgranted Hasked.
    destruct (has_length fleetFilters) eqn:Hlen.
    + assert (Hallowed : fleetId ∈ filter (λ f, Js.includes (fleetIds context) f = true)
                                     fleetFilters).
      { apply list_elem_of_filter. split; [|exact Hasked].
        apply includes_iff, fleetIds_elem. exact Hgranted. }
      rewrite (has_length_elem _ _ Hallowed) in Hfleet.
      apply includes_iff, list_elem_of_filter in Hfleet as [Hin Hnamed].
      split; [apply fleetIds_elem, includes_iff; exact Hin | intros _; exact Hnamed].
    + assert (Hallowed : fleetId ∈ fleetIds context) by (apply fleetIds_elem; exact Hgranted).
      rewrite (has_length_elem _ _ Hallowed) in Hfleet.
      apply includes_iff, fleetIds_elem in Hfleet.
      split; [exact Hfleet | intros [=]].
Qed.

(** X24.  When fleets are asked for and the caller holds a read grant on
    none of them, the fleet restriction is dropped, not applied: the
    route returns the devices of every fleet of the accounts the
    caller holds a read grant on, a grant on one fleet of the account
    being enough. *)
Theorem sims_query_drops_fleet_filter_without_granted_fleet
    context accountFilters fleetFilters sim :
  Auth.isOwner context = false →
  has_length fleetFilters = true →
  (∀ fleetId, fleetId ∈ fleetFilters → ¬ reads_fleet context fleetId) →
  selected context accountFilters fleetFilters sim = true
  ↔ reads_account context (Dispatch.Sim.accountId sim)
    ∧ (has_length accountFilters = true → Dispatch.Sim.accountId sim ∈ accountFilters).
Proof.
  intros Howner Hlen Hnone. unfold selected, whereClause. rewrite Howner, Hlen.
  assert (Hempty : filter (λ f, Js.includes (fleetIds context) f = true) fleetFilters = []).
  { destruct (filter _ fleetFilters) as [|f fs] eqn:Hfilter; [reflexivity|].
    assert (Hin : f ∈ filter (λ f, Js.includes (fleetIds context) f = true) fleetFilters)
      by (rewrite Hfilter; apply list_elem_of_here).
    apply list_elem_of_filter in Hin as [Hgranted Hnamed].
    apply includes_iff, fleetIds_elem in Hgranted.
    destruct (Hnone f Hnamed Hgranted). }
  split.
  - destruct (readable context) as [|scope0 rest] eqn:Hreadable; [discriminate|].
    cbv zeta. rewrite Hempty. unfold matches. cbn [accountId_in fleetId_in has_length].
    rewrite andb_true_r. intros Hacc. apply includes_iff in Hacc.
    destruct (has_length accountFilters).
    + apply list_elem_of_filter in Hacc as [Hin Hnamed].
      split; [apply accountIds_elem, includes_iff; exact Hin | intros _; exact Hnamed].
    + split; [apply accountIds_elem; exact Hacc | intros [=]].
  - intros [Hreads Hnamed].
    destruct (readable context) as [|scope0 rest] eqn:Hreadable.
    { destruct Hreads as (scope & Hin & Hread & _).
      assert (Hmember : scope ∈ readable context)
        by (apply list_elem_of_filter; split; [exact Hread | exact Hin]).
      rewrite Hreadable in Hmember. inversion Hmember. }
    cbv zeta. rewrite Hempty. unfold matches. cbn [accountId_in fleetId_in has_length].
    rewrite andb_true_r. apply includes_iff.
    apply accountIds_elem in Hreads.
    destruct (has_length accountFilters).
    + apply list_elem_of_filter. split; [apply includes_iff; exact Hreads|].
      apply Hnamed. reflexivity.
    + exact Hreads.
Qed.

(** The reader's one grant is on fleet f1 of account A1: asked for
    fleet f1 it gets device s1 of that fleet. *)
Lemma sims_query_stays_within_readable_accounts_witness :
  reads_account DispatchAudit.reader "A1".
Proof.
  apply (proj1 (sims_query_stays_within_readable_accounts DispatchAudit.reader [] ["f1"]
                  Dispatch.sim1 eq_refl eq_refl)).
Defined.

(** Asked for fleet f9, which it holds no grant for, the reader gets
    the device of fleet f9. *)
Lemma sims_query_drops_fleet_filter_witness :
  selected DispatchAudit.reader [] ["f9"] sim_other_fleet = true.
Proof.
  apply (proj2 (sims_query_drops_fleet_filter_without_granted_fleet DispatchAudit.reader
                  [] ["f9"] sim_other_fleet eq_refl eq_refl
                  ltac:(intros f Hin (_ & scope & Hscope & _ & Hfleet);
                        apply list_elem_of_singleton in Hin; subst f;
                        apply list_elem_of_singleton in Hscope; subst scope;
                        discriminate Hfleet))).
  split; [|intros [=]].
  exists Dispatch.read_only_fleet_scope.
  split; [apply list_elem_of_here | split; reflexivity].
Defined.

End SimsQueryFacts.

(** ** The scope helpers *)
Module AuthAssertFacts.
Import Auth AuthAssert.
Local Open Scope string_scope.
Local Open Scope list_scope.

Lemma some_scope_iff (flag : Scope → bool) scopes accountId' fleetId' :
  existsb (λ scope,
    if negb (bool_decide (accountId scope = accountId')) then false
    else if Js.truthy fleetId' then
      bool_decide (fleetId scope = fleetId') && flag scope
    else if bool_decide (fleetId scope = None) then flag scope
    else flag scope) scopes = true
  ↔ granted_by flag scopes accountId' fleetId'.
Proof.
  unfold granted_by. rewrite existsb_exists. split.
  - intros (scope & Hin & Hperm). apply list_elem_of_In in Hin.
    exists scope. split; [exact Hin|].
    destruct (bool_decide (accountId scope = accountId')) eqn:Hacc; cbn [negb] in Hperm;
      [|discriminate Hperm].
    apply bool_decide_eq_true in Hacc. split; [exact Hacc|].
    destruct (Js.truthy fleetId').
    + apply andb_true_iff in Hperm as [Hfleet Hflag].
      apply bool_decide_eq_true in Hfleet. split; [exact Hflag | intros _; exact Hfleet].
    + destruct (bool_decide (fleetId scope = None)); (split; [exact Hperm | intros [=]]).
  - intros (scope & Hin & Hacc & Hflag & Hfleet).
    exists scope. split; [apply list_elem_of_In; exact Hin|].
    rewrite (bool_decide_eq_true_2 _ Hacc). cbn [negb].
    destruct (Js.truthy fleetId').
    + rewrite (bool_decide_eq_true_2 _ (Hfleet eq_refl)). exact Hflag.
    + destruct (bool_decide (fleetId scope = None)); exact Hflag.
Qed.

(** X25.  Each helper answers true exactly when one scope on the account
    carries its permission and, when a fleet is asked about, is a
    grant on that very fleet.  Asked about the account alone ([null],
    [undefined] or the empty string for the fleet), a grant on any one
    fleet of the account is enough.  Each assertion throws exactly
    when its helper answers false. *)
Theorem scope_helpers_answer_by_one_scope scopes accountId' fleetId' :
  (hasReadAccess scopes accountId' fleetId' = true
   ↔ granted_by canRead scopes accountId' fleetId')
  ∧ (hasWriteAccess scopes accountId' fleetId' = true
     ↔ granted_by canWrite scopes accountId' fleetId')
  ∧ (hasInviteAccess scopes accountId' fleetId' = true
     ↔ granted_by canInvite scopes accountId' fleetId')
  ∧ (assertReadable scopes accountId' fleetId' = Ok tt
     ↔ granted_by canRead scopes accountId' fleetId')
  ∧ (assertWritable scopes accountId' fleetId' = Ok tt
     ↔ granted_by canWrite scopes accountId' fleetId')
  ∧ (assertInvitable scopes accountId' fleetId' = Ok tt
     ↔ granted_by canInvite scopes accountId' fleetId').
Proof.
  unfold assertReadable, assertWritable, assertInvitable.
  pose proof (some_scope_iff canRead scopes accountId' fleetId') as Hread.
  pose proof (some_scope_iff canWrite scopes accountId' fleetId') as Hwrite.
  pose proof (some_scope_iff canInvite scopes accountId' fleetId') as Hinvite.
  fold (hasReadAccess scopes accountId' fleetId') in Hread.
  fold (hasWriteAccess scopes accountId' fleetId') in Hwrite.
  fold (hasInviteAccess scopes accountId' fleetId') in Hinvite.
  refine (conj Hread (conj Hwrite (conj Hinvite (conj _ (conj _ _))))).
  - rewrite <- Hread. destruct (hasReadAccess _ _ _); cbn [negb]; split; congruence.
  - rewrite <- Hwrite. destruct (hasWriteAccess _ _ _); cbn [negb]; split; congruence.
  - rewrite <- Hinvite. destruct (hasInviteAccess _ _ _); cbn [negb]; split; congruence.
Qed.

End AuthAssertFacts.

(** ** Device sync over the real listing *)
Module DeviceSyncListingFacts.
Import DeviceSync DeviceSyncRequest.
Local Open Scope string_scope.
Local Open Scope list_scope.

Section RealListing.
Variable listSims :
  list (Kore.KoreAccountSecret * string) → Kore.KoreAccountSecret → string →
  result (list Kore.KoreSim) Js.thrown.
Variable upsert : list Upsert.t → Upsert.t → result unit Js.thrown.
Variable jitter : Z → Z.
Variable base : string.
Variable encodeURIComponent : string → string.
Variable koreFetch : list string → string → result Kore.SimList.t Js.thrown.

Lemma is_404_try_next err : is_404 err = true → Kore.try_next err = true.
Proof.
  destruct err as [m|status m|]; cbn [is_404 Kore.try_next]; try discriminate.
  intros ->. reflexivity.
Qed.

Lemma sync_sims_keep_log account fleet sims w :
  logged (DbUtils.sequentialProcess (sync_sim upsert account fleet) jitter 5 200 sims w).2
  = logged w.
Proof.
  apply (DeviceSyncRequestFacts.sequentialProcess_from_preserves
           (λ w', logged w' = logged w) (sync_sim upsert account fleet) jitter 5 200 sims);
    [|reflexivity].
  intros sim index w' _ Hw'. exact Hw'.
Qed.

(** C8, the code against the claim.  When the listing the fleet handler
    asks for is a run of [listSimsFromKore] (over any provider, ended
    with any result), the handler logs no warning: the branch that
    skips a fleet on a 404 is never taken, because [listSimsFromKore]
    keeps every 404 to itself.  When the provider answers every request
    for the fleet with a 404, the listing is the empty list, and the
    handler returns having pushed a summary entry for the fleet with
    [synced: 0], where the claim has a logged warning and no entry. *)
Theorem device_sync_never_skips_a_missing_fleet
    account secret fleet index w fuel before r :
  (Kore.listSimsFromKore base encodeURIComponent koreFetch (Fleet.externalRef fleet)
     (S fuel) before).1 = Some r →
  listSims (listings w) (credentials_of account secret) (Fleet.externalRef fleet) = r →
  let run := sync_fleet listSims upsert jitter account secret fleet index w in
  logged run.2 = logged w
  ∧ ((∀ before path, ∃ err, koreFetch before path = Throw err ∧ is_404 err = true) →
     r = Ok []
     ∧ run = (Ok tt,
              mkWorld (listings w ++ [(credentials_of account secret,
                                       Fleet.externalRef fleet)])
                (upserts w) (logged w)
                (summary w ++ [Summary.mk (Account.id account) (Some (Fleet.id fleet))
                                 (Some 0%nat) None]))).
Proof.
  intros Hreal Hlist run. subst run. split.
  - unfold sync_fleet.
    change (Kore.mkSecret _ _ _ _ _) with (credentials_of account secret).
    rewrite Hlist. destruct r as [sims|err].
    + pose proof (sync_sims_keep_log account fleet sims
                    (mkWorld (listings w ++ [(credentials_of account secret,
                                              Fleet.externalRef fleet)])
                       (upserts w) (logged w) (summary w))) as Hlog.
      destruct (DbUtils.sequentialProcess _ _ _ _ _ _) as [[[]|err] w2];
        cbn [snd push_summary logged] in *; exact Hlog.
    + assert (Hnext : Kore.try_next err = false).
      { destruct (Kore.listSimsFromKore base encodeURIComponent koreFetch
                    (Fleet.externalRef fleet) (S fuel) before) as [outcome after] eqn:Hrun.
        cbn [fst] in Hreal. subst outcome.
        exact (proj1 (KoreFacts.candidates_loop_throws base koreFetch
                        (Fleet.externalRef fleet) (S fuel) _ _ _ _ _ Hrun)). }
      destruct (is_404 err) eqn:H404.
      * rewrite (is_404_try_next err H404) in Hnext. discriminate Hnext.
      * reflexivity.
  - intros Hgone.
    assert (Hempty : r = Ok []).
    { unfold Kore.listSimsFromKore in Hreal.
      rewrite (ListingFacts.candidates_loop_all_refused base koreFetch
                 (Fleet.externalRef fleet) fuel
                 (Kore.candidates encodeURIComponent (Fleet.externalRef fleet))) in Hreal.
      - injection Hreal as <-. reflexivity.
      - intros before' path. destruct (Hgone before' path) as (err & Hfetch & H404).
        exists err. split; [exact Hfetch | exact (is_404_try_next err H404)].
      - unfold Kore.candidates. repeat constructor; discriminate. }
    split; [exact Hempty|]. rewrite Hempty in Hlist. unfold sync_fleet.
    change (Kore.mkSecret _ _ _ _ _) with (credentials_of account secret).
    rewrite Hlist. reflexivity.
Qed.

End RealListing.

(** Fleet HF1 of account A is gone: the provider answers 404 to each of
    the six requests of its listing.  The fleet gets a summary entry
    with [synced: 0], and nothing is logged; so it is for the route as
    a whole, called by an owner when both fleets of account A are
    gone. *)
Lemma device_sync_missing_fleet_witness :
  sync_fleet (listing_through "" Kore.plain fleet_gone 1) upsert_up Kore.no_jitter
    accountA "5ec2e7" fleetA1 0 world0
  = (Ok tt,
     mkWorld ([] ++ [(credentials_of accountA "5ec2e7", "HF1")]) [] []
       ([] ++ [Summary.mk "A" (Some "f1") (Some 0%nat) None]))
  ∧ (POST Dispatch.toy_decipher (listing_through "" Kore.plain fleet_gone 1) upsert_up
       Kore.no_jitter Dispatch.the_owner (Body.mk None None) [accountA]).1
    = Synced [Summary.mk "A" (Some "f1") (Some 0%nat) None;
              Summary.mk "A" (Some "f2") (Some 0%nat) None]
  ∧ logged (POST Dispatch.toy_decipher (listing_through "" Kore.plain fleet_gone 1)
              upsert_up Kore.no_jitter Dispatch.the_owner (Body.mk None None)
              [accountA]).2
    = [].
Proof.
  split; [|split; vm_compute; reflexivity].
  apply (proj2 (device_sync_never_skips_a_missing_fleet
                  (listing_through "" Kore.plain fleet_gone 1) upsert_up Kore.no_jitter
                  "" Kore.plain fleet_gone accountA "5ec2e7" fleetA1 O world0 O []
                  (Ok []) eq_refl eq_refl)).
  intros before path. eexists. split; reflexivity.
Defined.

End DeviceSyncListingFacts.
